(** * AgentArmada: the board model and the targeting engine

    A shallow embedding of [src/utils/boardUtils.ts] and of the class
    [BattleshipAI] of [src/utils/aiUtils.ts], followed by the properties
    of the specification that were checked against them.

    Conventions of the embedding.
    - A JavaScript [number] that holds a row, a column, a length or a
      counter is a [Z]; every value the code computes with is an integer.
    - An array is a [list]; [arr[i]] is [lookupZ arr i], which is [None]
      where JavaScript yields [undefined].  A function whose source
      dereferences such an [undefined] (a [TypeError]) returns [None].
    - A mutated object is passed in and returned.
    - A call of [Math.random()] is a [Rand]: a rational number of [0,1). *)

From stdpp Require Import base option list gmap sets sorting.
From Stdlib Require Import ZArith Lia.

Open Scope Z_scope.

(** ** Shared helpers *)

(** [arr[i]]: [undefined] for a negative index or one past the end. *)
Definition lookupZ {A} (l : list A) (i : Z) : option A :=
  if decide (0 ≤ i) then l !! Z.to_nat i else None.

(** A draw of [Math.random()]: the rational
    [(rnum mod (rden + 1)) / (rden + 1)], which ranges over the rationals
    of [0,1) as [rnum] and [rden] range over [nat]. *)
Record Rand := mkRand { rnum : nat; rden : nat }.

Definition rand_num (r : Rand) : Z := Z.of_nat (rnum r `mod` S (rden r))%nat.
Definition rand_den (r : Rand) : Z := Z.of_nat (S (rden r)).

(** [Math.random() < 0.5] *)
Definition rand_lt_half (r : Rand) : bool := bool_decide (2 * rand_num r < rand_den r).

(** [Math.floor(Math.random() * n)] for an integer [n >= 0] *)
Definition rand_floor_mul (r : Rand) (n : Z) : Z := (rand_num r * n) `div` rand_den r.

(** ** src/types.ts *)

Inductive CellState := empty | ship | hit | miss | sunk.

#[global] Instance CellState_eq_dec : EqDecision CellState.
Proof. solve_decision. Defined.

Record Cell := mkCell { state : CellState; shipId : option Z }.

Abbreviation Board := (list (list Cell)).

(** The fields [id], [length], [hits], [sunk] and [placed] of the
    interface, under names that do not clash with the rest. *)
Record Ship := mkShip {
  ship_id : Z;
  ship_length : Z;
  ship_hits : Z;
  ship_sunk : bool;
  ship_placed : option bool
}.

Record Coord := mkCoord { row : Z; col : Z }.

#[global] Instance Coord_eq_dec : EqDecision Coord.
Proof. solve_decision. Defined.

(** The result of a shot: ['hit' | 'miss' | 'sunk']. *)
Inductive ShotResult := Hit | Miss | Sunk.

#[global] Instance ShotResult_eq_dec : EqDecision ShotResult.
Proof. solve_decision. Defined.

(** ** src/utils/boardUtils.ts *)

Definition BOARD_SIZE : Z := 10.
Definition SHIP_LENGTHS : list Z := [5; 4; 3; 3; 2].

Definition createEmptyBoard : Board :=
  replicate (Z.to_nat BOARD_SIZE) (replicate (Z.to_nat BOARD_SIZE) (mkCell empty None)).

Definition createShips : list Ship :=
  imap (λ index length, mkShip (Z.of_nat index) length 0 false (Some false)) SHIP_LENGTHS.

(** [board[row][col]]; [None] where the source would dereference
    [undefined]. *)
Definition getCell (board : Board) (r c : Z) : option Cell :=
  cells ← lookupZ board r; lookupZ cells c.

(** [board[row][col] = cell].  Inside the row it replaces the element.
    Outside it JavaScript would grow the row or add a property to it; no
    caller does that, and the embedding stops there with [None]. *)
Definition setCell (board : Board) (r c : Z) (cell : Cell) : option Board :=
  _ ← getCell board r c;
  Some (alter (λ cells, <[Z.to_nat c := cell]> cells) (Z.to_nat r) board).

(** [board[row][col].state = st]: the cell object is updated in place and
    keeps its [shipId]. *)
Definition setState (st : CellState) (cell : Cell) : Cell := mkCell st (shipId cell).

Definition setCellState (board : Board) (r c : Z) (st : CellState) : option Board :=
  cell ← getCell board r c; setCell board r c (setState st cell).

(** [for (let i = 0; i < length; i++) if (cellAt(i).state !== 'empty') return false]
    followed by [return true]; [fuel] is the number of iterations left. *)
Fixpoint allEmptyFrom (cellAt : Z → option Cell) (i : Z) (fuel : nat) : option bool :=
  match fuel with
  | O => Some true
  | S fuel' =>
      cell ← cellAt i;
      if decide (state cell ≠ empty) then Some false
      else allEmptyFrom cellAt (i + 1) fuel'
  end.

Definition canPlaceShip (board : Board) (r c length : Z) (horizontal : bool) : option bool :=
  if horizontal then
    if decide (c + length > BOARD_SIZE) then Some false
    else allEmptyFrom (λ i, getCell board r (c + i)) 0 (Z.to_nat length)
  else
    if decide (r + length > BOARD_SIZE) then Some false
    else allEmptyFrom (λ i, getCell board (r + i) c) 0 (Z.to_nat length).

(** [for (let i = 0; i < length; i++) board[..][..] = { state: 'ship', shipId }] *)
Fixpoint placeFrom (target : Z → Z * Z) (sid : Z) (i : Z) (fuel : nat) (board : Board) : option Board :=
  match fuel with
  | O => Some board
  | S fuel' =>
      board' ← setCell board (target i).1 (target i).2 (mkCell ship (Some sid));
      placeFrom target sid (i + 1) fuel' board'
  end.

Definition placeShip (board : Board) (r c length : Z) (horizontal : bool) (sid : Z) : option Board :=
  if horizontal then placeFrom (λ i, (r, c + i)) sid 0 (Z.to_nat length) board
  else placeFrom (λ i, (r + i, c)) sid 0 (Z.to_nat length) board.

(** The state of the [while] loop of [placeShipsRandomly] for one ship;
    [draws] counts the calls of [Math.random()] made so far. *)
Record Placing := mkPlacing {
  p_board : Board;
  p_placed : bool;
  p_attempts : Z;
  p_draws : nat
}.

(** [while (!placed && attempts < 100) { ... attempts++ }]; the loop runs
    at most 100 times, which is the [fuel] its caller gives it. *)
Fixpoint placeLoop (rng : nat → Rand) (shp : Ship) (fuel : nat) (st : Placing) : option Placing :=
  match fuel with
  | O => Some st
  | S fuel' =>
      if negb (p_placed st) && bool_decide (p_attempts st < 100) then
        let horizontal := rand_lt_half (rng (p_draws st)) in
        let r := rand_floor_mul (rng (S (p_draws st))) BOARD_SIZE in
        let c := rand_floor_mul (rng (S (S (p_draws st)))) BOARD_SIZE in
        ok ← canPlaceShip (p_board st) r c (ship_length shp) horizontal;
        st' ← (if ok : bool then
                 board' ← placeShip (p_board st) r c (ship_length shp) horizontal (ship_id shp);
                 Some (mkPlacing board' true (p_attempts st) (p_draws st))
               else Some st);
        placeLoop rng shp fuel'
          (mkPlacing (p_board st') (p_placed st') (p_attempts st' + 1) (3 + p_draws st)%nat)
      else Some st
  end.

Definition placeOneShip (rng : nat → Rand) (shp : Ship) (board : Board) (draws : nat) : option Placing :=
  placeLoop rng shp 100 (mkPlacing board false 0 draws).

(** [placeShipsRandomly] returns nothing and writes nothing to the
    console: its whole effect is the board it leaves (and the random
    numbers it has consumed). *)
Fixpoint placeShipsRandomly (rng : nat → Rand) (board : Board) (ships : list Ship) (draws : nat)
  : option (Board * nat) :=
  match ships with
  | [] => Some (board, draws)
  | shp :: rest =>
      st ← placeOneShip rng shp board draws;
      placeShipsRandomly rng (p_board st) rest (p_draws st)
  end.

(** [for (let i = 0; i < n; i++) body(i)] over a threaded state, where
    the body may fail. *)
Fixpoint forUpTo {St : Type} (body : Z → St → option St) (i : Z) (fuel : nat) (s : St) : option St :=
  match fuel with
  | O => Some s
  | S fuel' => s' ← body i s; forUpTo body (i + 1) fuel' s'
  end.

Definition markShipAsSunk (board : Board) (sid : Z) : option Board :=
  forUpTo (λ r, forUpTo (λ c b,
      cell ← getCell b r c;
      if decide (shipId cell = Some sid) then setCellState b r c sunk else Some b)
    0 (Z.to_nat BOARD_SIZE)) 0 (Z.to_nat BOARD_SIZE) board.

(** [removeShip], which stands between [placeShip] and
    [placeShipsRandomly] in the source: every cell that carries [shipId]
    is replaced by a fresh [{ state: 'empty' }]. *)
Definition removeShip (board : Board) (sid : Z) : option Board :=
  forUpTo (λ r, forUpTo (λ c b,
      cell ← getCell b r c;
      if decide (shipId cell = Some sid) then setCell b r c (mkCell empty None) else Some b)
    0 (Z.to_nat BOARD_SIZE)) 0 (Z.to_nat BOARD_SIZE) board.

(** [ships.find(s => s.id === sid)], with the position of the ship found
    so that the update of the object can be written back. *)
Fixpoint findShip (sid : option Z) (ships : list Ship) (i : nat) : option (nat * Ship) :=
  match ships with
  | [] => None
  | s :: rest => if decide (Some (ship_id s) = sid) then Some (i, s) else findShip sid rest (S i)
  end.

(** [ship.hits++], and [ship.sunk = true]. *)
Definition shipHit (s : Ship) : Ship :=
  mkShip (ship_id s) (ship_length s) (ship_hits s + 1) (ship_sunk s) (ship_placed s).
Definition shipSunk (s : Ship) : Ship :=
  mkShip (ship_id s) (ship_length s) (ship_hits s) true (ship_placed s).

Definition processShot (board : Board) (ships : list Ship) (r c : Z)
  : option (ShotResult * Board * list Ship) :=
  cell ← getCell board r c;
  if decide (state cell = ship) then
    board1 ← setCellState board r c hit;
    match findShip (shipId cell) ships 0, shipId cell with
    | Some (i, s), Some sid =>
        let s1 := shipHit s in
        if decide (ship_hits s1 = ship_length s1) then
          board2 ← markShipAsSunk board1 sid;
          Some (Sunk, board2, <[i := shipSunk s1]> ships)
        else Some (Hit, board1, <[i := s1]> ships)
    | _, _ => Some (Hit, board1, ships)
    end
  else
    board1 ← setCellState board r c miss;
    Some (Miss, board1, ships).

Definition allShipsSunk (ships : list Ship) : bool := forallb ship_sunk ships.

(** ** src/utils/aiUtils.ts: class BattleshipAI *)

Inductive Mode := Hunt | Target.
Inductive Direction := Up | Down | Left | Right.
Inductive LineType := Horizontal | Vertical.

#[global] Instance Mode_eq_dec : EqDecision Mode.
Proof. solve_decision. Defined.

#[global] Instance Direction_eq_dec : EqDecision Direction.
Proof. solve_decision. Defined.

#[global] Instance LineType_eq_dec : EqDecision LineType.
Proof. solve_decision. Defined.

(** The fields of the class.  The two [Set<string>] hold keys
    [`${row},${col}`]; the key of a coordinate is modelled by the pair
    [(row, col)] itself, which identifies the same coordinates as the
    string does. *)
Record BattleshipAI := mkAI {
  shotsFired : gset (Z * Z);
  mode : Mode;
  targetQueue : list Coord;
  lastHit : option Coord;
  hits : list Coord;
  firstHit : option Coord;
  lastProbeDirection : option LineType;
  remainingShipSizes : list Z;
  misses : gset (Z * Z)
}.

Definition set_shotsFired (v : gset (Z * Z)) (s : BattleshipAI) : BattleshipAI :=
  mkAI v (mode s) (targetQueue s) (lastHit s) (hits s) (firstHit s)
       (lastProbeDirection s) (remainingShipSizes s) (misses s).
Definition set_mode (v : Mode) (s : BattleshipAI) : BattleshipAI :=
  mkAI (shotsFired s) v (targetQueue s) (lastHit s) (hits s) (firstHit s)
       (lastProbeDirection s) (remainingShipSizes s) (misses s).
Definition set_targetQueue (v : list Coord) (s : BattleshipAI) : BattleshipAI :=
  mkAI (shotsFired s) (mode s) v (lastHit s) (hits s) (firstHit s)
       (lastProbeDirection s) (remainingShipSizes s) (misses s).
Definition set_lastHit (v : option Coord) (s : BattleshipAI) : BattleshipAI :=
  mkAI (shotsFired s) (mode s) (targetQueue s) v (hits s) (firstHit s)
       (lastProbeDirection s) (remainingShipSizes s) (misses s).
Definition set_hits (v : list Coord) (s : BattleshipAI) : BattleshipAI :=
  mkAI (shotsFired s) (mode s) (targetQueue s) (lastHit s) v (firstHit s)
       (lastProbeDirection s) (remainingShipSizes s) (misses s).
Definition set_firstHit (v : option Coord) (s : BattleshipAI) : BattleshipAI :=
  mkAI (shotsFired s) (mode s) (targetQueue s) (lastHit s) (hits s) v
       (lastProbeDirection s) (remainingShipSizes s) (misses s).
Definition set_lastProbeDirection (v : option LineType) (s : BattleshipAI) : BattleshipAI :=
  mkAI (shotsFired s) (mode s) (targetQueue s) (lastHit s) (hits s) (firstHit s)
       v (remainingShipSizes s) (misses s).
Definition set_remainingShipSizes (v : list Z) (s : BattleshipAI) : BattleshipAI :=
  mkAI (shotsFired s) (mode s) (targetQueue s) (lastHit s) (hits s) (firstHit s)
       (lastProbeDirection s) v (misses s).
Definition set_misses (v : gset (Z * Z)) (s : BattleshipAI) : BattleshipAI :=
  mkAI (shotsFired s) (mode s) (targetQueue s) (lastHit s) (hits s) (firstHit s)
       (lastProbeDirection s) (remainingShipSizes s) v.

(** [constructor()] *)
Definition newBattleshipAI : BattleshipAI :=
  mkAI ∅ Hunt [] None [] None None [5; 4; 3; 3; 2] ∅.

(** [arr.length] *)
Definition len {A} (l : list A) : Z := Z.of_nat (length l).

(** [arr.sort(cmp)]: the sort of JavaScript is stable, and [a] stays
    before [b] when [cmp(a, b) <= 0]. *)
Fixpoint insertBy {A} (cmp : A → A → Z) (x : A) (l : list A) : list A :=
  match l with
  | [] => [x]
  | y :: l' => if decide (cmp x y ≤ 0) then x :: y :: l' else y :: insertBy cmp x l'
  end.

Fixpoint sortBy {A} (cmp : A → A → Z) (l : list A) : list A :=
  match l with
  | [] => []
  | x :: l' => insertBy cmp x (sortBy cmp l')
  end.

(** [h.row === c.row && h.col === c.col] *)
Definition sameCoord (a b : Coord) : bool :=
  bool_decide (row a = row b) && bool_decide (col a = col b).

Definition coordToKey (r c : Z) : Z * Z := (r, c).

Definition hasShot (s : BattleshipAI) (r c : Z) : bool :=
  bool_decide (coordToKey r c ∈ shotsFired s).

Definition isValid (r c : Z) : bool :=
  bool_decide (r >= 0) && bool_decide (r < BOARD_SIZE) &&
  bool_decide (c >= 0) && bool_decide (c < BOARD_SIZE).

(** [isValid(r, c) && !hasShot(r, c)], the guard of every push. *)
Definition isOpen (s : BattleshipAI) (r c : Z) : bool :=
  isValid r c && negb (hasShot s r c).

(** [getOrthogonalNeighbors] up to the order of its result: the shuffle
    that ends the source function permutes the array in place, and the
    one caller reads only its length. *)
Definition getOrthogonalNeighbors (s : BattleshipAI) (r c : Z) : list Coord :=
  List.filter (λ n, isOpen s (row n) (col n))
    [mkCoord (r + -1) (c + 0); mkCoord (r + 1) (c + 0);
     mkCoord (r + 0) (c + -1); mkCoord (r + 0) (c + 1)].

(** [line.every(h => h.row === line[0].row)] *)
Definition isHorizontalLine (line : list Coord) : bool :=
  match line with
  | [] => true
  | h0 :: _ => forallb (λ h, bool_decide (row h = row h0)) line
  end.

(** [xs.map(key).sort((a, b) => a - b)] and its first and last element.
    The lists they are read from are never empty. *)
Definition sortedKeys (key : Coord → Z) (line : list Coord) : list Z :=
  sortBy (λ a b, a - b) (map key line).
Definition minKey (key : Coord → Z) (line : list Coord) : Z := hd 0 (sortedKeys key line).
Definition maxKey (key : Coord → Z) (line : list Coord) : Z := List.last (sortedKeys key line) 0.

Definition isHitExtendingLine (h : Coord) (line : list Coord) : bool :=
  if decide (len line < 2) then true
  else match line with
       | [] => true
       | h0 :: _ =>
           if isHorizontalLine line then
             if decide (row h ≠ row h0) then false
             else bool_decide (col h = minKey col line - 1) || bool_decide (col h = maxKey col line + 1)
           else
             if decide (col h ≠ col h0) then false
             else bool_decide (row h = minKey row line - 1) || bool_decide (row h = maxKey row line + 1)
       end.

Definition wouldExtendLine (tgt : Coord) (line : list Coord) : bool :=
  match line with
  | [] => false
  | [h] =>
      (bool_decide (row tgt = row h) && bool_decide (Z.abs (col tgt - col h) = 1)) ||
      (bool_decide (col tgt = col h) && bool_decide (Z.abs (row tgt - row h) = 1))
  | _ => isHitExtendingLine tgt line
  end.

(** The loop of [findContinuousHits] after its first element: [prev] is
    the last element pushed. *)
Fixpoint continueRun (direction : LineType) (prev : Coord) (rest : list Coord) : list Coord :=
  match rest with
  | [] => []
  | curr :: rest' =>
      let next := match direction with
                  | Horizontal => bool_decide (col curr = col prev + 1)
                  | Vertical => bool_decide (row curr = row prev + 1)
                  end in
      if next then curr :: continueRun direction curr rest' else []
  end.

Definition findContinuousHits (sortedHits : list Coord) (direction : LineType) : list Coord :=
  match sortedHits with
  | [] => []
  | h0 :: rest => h0 :: continueRun direction h0 rest
  end.

Definition byCol (a b : Coord) : Z := col a - col b.
Definition byRow (a b : Coord) : Z := row a - row b.

Definition findSunkShipHits (s : BattleshipAI) (last : Coord) : list Coord :=
  let allHitsIncludingLast := hits s ++ [last] in
  let horizontalHits :=
    sortBy byCol (List.filter (λ h, bool_decide (row h = row last)) allHitsIncludingLast) in
  let verticalHits :=
    sortBy byRow (List.filter (λ h, bool_decide (col h = col last)) allHitsIncludingLast) in
  let horizontalLine := findContinuousHits horizontalHits Horizontal in
  let verticalLine := findContinuousHits verticalHits Vertical in
  let horizontalContainsLast := existsb (λ h, sameCoord h last) horizontalLine in
  let verticalContainsLast := existsb (λ h, sameCoord h last) verticalLine in
  if horizontalContainsLast && verticalContainsLast then
    if decide (len horizontalLine > len verticalLine) then horizontalLine else verticalLine
  else if horizontalContainsLast then horizontalLine
  else if verticalContainsLast then verticalLine
  else [last].

(** [this.hits.some(hit => hit.row === r && hit.col === c)] *)
Definition isTrackedHit (s : BattleshipAI) (r c : Z) : bool :=
  existsb (λ h, bool_decide (row h = r) && bool_decide (col h = c)) (hits s).

(** A cell a ship may cover: on the board and not a recorded miss. *)
Definition cellFree (s : BattleshipAI) (r c : Z) : bool :=
  isValid r c && negb (hasShot s r c && negb (isTrackedHit s r c)).

Definition canPlaceShipAt (s : BattleshipAI) (startRow startCol size : Z) (horiz : bool) : bool :=
  forallb (λ i,
      let r := if horiz then startRow else startRow + i in
      let c := if horiz then startCol + i else startCol in
      cellFree s r c)
    (seqZ 0 size).

Definition stepDirection (direction : Direction) (r c i : Z) : Z * Z :=
  match direction with
  | Up => (r - i, c)
  | Down => (r + i, c)
  | Left => (r, c - i)
  | Right => (r, c + i)
  end.

Definition scoreDirectionFromHit (s : BattleshipAI) (hitRow hitCol : Z) (direction : Direction) : Z :=
  foldl (λ score shipSize,
      let canFit :=
        forallb (λ i, let rc := stepDirection direction hitRow hitCol i in cellFree s rc.1 rc.2)
                (seqZ 1 (shipSize - 1)) in
      if canFit then score + shipSize else score)
    0 (remainingShipSizes s).

(** The number of start positions [lo..hi] at which [fits] holds. *)
Definition countPlacements (fits : Z → bool) (lo hi : Z) : Z :=
  len (List.filter fits (seqZ lo (hi - lo + 1))).

Definition calculateCellScore (s : BattleshipAI) (r c : Z) : Z :=
  foldl (λ score shipSize,
      score
      + countPlacements (λ startCol, canPlaceShipAt s r startCol shipSize true)
          (Z.max 0 (c - shipSize + 1)) (Z.min (BOARD_SIZE - shipSize) c)
      + countPlacements (λ startRow, canPlaceShipAt s startRow c shipSize false)
          (Z.max 0 (r - shipSize + 1)) (Z.min (BOARD_SIZE - shipSize) r))
    0 (remainingShipSizes s).

(** The cells of the board in the order of the two nested loops. *)
Definition boardCells : list Coord :=
  r ← seqZ 0 BOARD_SIZE; c ← seqZ 0 BOARD_SIZE; [mkCoord r c].

(** The unfired cells of [cells] that score above zero, with their score. *)
Definition scoredCells (s : BattleshipAI) (cells : list Coord) : list (Coord * Z) :=
  omap (λ cell,
      if hasShot s (row cell) (col cell) then None
      else let score := calculateCellScore s (row cell) (col cell) in
           if decide (score > 0) then Some (cell, score) else None)
    cells.

(** [(row + col) % 2 !== 0] is the test that skips a cell. *)
Definition onCheckerboard (cell : Coord) : bool :=
  bool_decide (Z.rem (row cell + col cell) 2 = 0).

(** The weighted draw: [random] is kept multiplied by the denominator
    [den] of the draw.  The arithmetic here is exact; the source works
    in floating point, where the product [Math.random() * totalScore] is
    rounded (the subtractions of the integer scores that follow are
    exact while the remainder stays positive).  The loop always stops at a cell of the list either way; at
    a draw whose exact product lies less than a rounding error above a
    running sum, the source stops one cell earlier than this loop. *)
Fixpoint weightedPick (den : Z) (random : Z) (cells : list (Coord * Z)) : option Coord :=
  match cells with
  | [] => None
  | cell :: rest =>
      let random' := random - cell.2 * den in
      if decide (random' ≤ 0) then Some cell.1 else weightedPick den random' rest
  end.

Definition getSmartHuntShot (s : BattleshipAI) (rng : nat → Rand) : Coord :=
  let checkerboard := scoredCells s (List.filter onCheckerboard boardCells) in
  let cellScores :=
    if decide (len checkerboard = 0) then scoredCells s boardCells else checkerboard in
  match cellScores with
  | [] =>
      match List.find (λ cell, negb (hasShot s (row cell) (col cell))) boardCells with
      | Some cell => cell
      | None => mkCoord 0 0
      end
  | first :: _ =>
      let totalScore := foldl (λ sum cell, sum + cell.2) 0 cellScores in
      match weightedPick (rand_den (rng 0%nat)) (rand_num (rng 0%nat) * totalScore) cellScores with
      | Some cell => cell
      | None => (nth (Z.to_nat (rand_floor_mul (rng 1%nat) (len cellScores))) cellScores first).1
      end
  end.

(** [Map<number, Coord[]>], in the order in which its keys were set. *)
Fixpoint groupPush (k : Z) (h : Coord) (groups : list (Z * list Coord)) : list (Z * list Coord) :=
  match groups with
  | [] => [(k, [h])]
  | g :: rest => if decide (g.1 = k) then (g.1, g.2 ++ [h]) :: rest else g :: groupPush k h rest
  end.

Definition groupBy (key : Coord → Z) (l : list Coord) : list (Z * list Coord) :=
  foldl (λ groups h, groupPush (key h) h groups) [] l.

(** The continuous run of a group of two or more hits, if the group has
    that many. *)
Definition groupRun (direction : LineType) (group : list Coord) : option (list Coord) :=
  if decide (len group >= 2) then
    let sorted := sortBy (match direction with Horizontal => byCol | Vertical => byRow end) group in
    Some (findContinuousHits sorted direction)
  else None.

Definition longerLine (direction : LineType)
    (best : option (LineType * list Coord) * Z) (group : Z * list Coord)
  : option (LineType * list Coord) * Z :=
  match groupRun direction group.2 with
  | Some continuous =>
      if decide (len continuous > best.2) then (Some (direction, continuous), len continuous)
      else best
  | None => best
  end.

(** [if (isValid(r, c) && !hasShot(r, c)) queue.push({ row: r, col: c })] *)
Definition pushIfOpen (s : BattleshipAI) (r c : Z) (queue : list Coord) : list Coord :=
  if isOpen s r c then queue ++ [mkCoord r c] else queue.

(** The two cells past the ends of a line, right or down first. *)
Definition lineExtensions (s : BattleshipAI) (ty : LineType) (line : list Coord) (h0 : Coord)
    (queue : list Coord) : list Coord :=
  match ty with
  | Horizontal =>
      pushIfOpen s (row h0) (minKey col line - 1)
        (pushIfOpen s (row h0) (maxKey col line + 1) queue)
  | Vertical =>
      pushIfOpen s (minKey row line - 1) (col h0)
        (pushIfOpen s (maxKey row line + 1) (col h0) queue)
  end.

Definition scoredPush (s : BattleshipAI) (h : Coord) (direction : Direction)
    (acc : list (Coord * Z)) : list (Coord * Z) :=
  let rc := stepDirection direction (row h) (col h) 1 in
  if isOpen s rc.1 rc.2
  then acc ++ [(mkCoord rc.1 rc.2, scoreDirectionFromHit s (row h) (col h) direction)]
  else acc.

Definition byScoreDesc (a b : Coord * Z) : Z := b.2 - a.2.

Definition perpendicularTargets (s : BattleshipAI) (ty : LineType) (line : list Coord) : list (Coord * Z) :=
  foldl (λ acc h,
      match ty with
      | Horizontal => scoredPush s h Down (scoredPush s h Up acc)
      | Vertical => scoredPush s h Right (scoredPush s h Left acc)
      end)
    [] line.

Definition neighborPush (s : BattleshipAI) (h : Coord) (acc : list (Coord * Z)) (direction : Direction)
  : list (Coord * Z) :=
  let rc := stepDirection direction (row h) (col h) 1 in
  if isOpen s rc.1 rc.2 then
    if existsb (λ n, sameCoord n.1 (mkCoord rc.1 rc.2)) acc then acc
    else acc ++ [(mkCoord rc.1 rc.2, scoreDirectionFromHit s (row h) (col h) direction)]
  else acc.

Definition allNeighbors (s : BattleshipAI) : list (Coord * Z) :=
  foldl (λ acc h, foldl (neighborPush s h) acc [Up; Down; Left; Right]) [] (hits s).

Definition rebuildTargetQueue (s : BattleshipAI) : BattleshipAI :=
  let rowGroups := groupBy row (hits s) in
  let colGroups := groupBy col (hits s) in
  let longest := foldl (longerLine Vertical) (foldl (longerLine Horizontal) (None, 0) rowGroups) colGroups in
  let s1 :=
    match longest.1 with
    | Some (ty, h0 :: rest) =>
        let line := h0 :: rest in
        let s' := set_targetQueue
                    (lineExtensions s ty line h0 (targetQueue s)) s in
        if decide (len (targetQueue s') = 0) then
          set_targetQueue
            (targetQueue s' ++ map fst (sortBy byScoreDesc (perpendicularTargets s' ty line))) s'
        else s'
    | _ => s
    end in
  if decide (len (targetQueue s1) = 0) then
    set_targetQueue (targetQueue s1 ++ map fst (sortBy byScoreDesc (allNeighbors s1))) s1
  else s1.

(** The lines of one family of groups: the runs of two or more hits. *)
Definition linesOf (direction : LineType) (groups : list (Z * list Coord)) : list (list Coord) :=
  omap (λ g, match groupRun direction g.2 with
             | Some continuous => if decide (len continuous >= 2) then Some continuous else None
             | None => None
             end)
    groups.

Definition findAllLines (s : BattleshipAI) : list (list Coord) :=
  linesOf Horizontal (groupBy row (hits s)) ++ linesOf Vertical (groupBy col (hits s)).

Definition canExtendLine (s : BattleshipAI) (newHit : Coord) : bool :=
  existsb (λ h,
      negb (sameCoord h newHit) &&
      ((bool_decide (row h = row newHit) && bool_decide (Z.abs (col h - col newHit) = 1)) ||
       (bool_decide (col h = col newHit) && bool_decide (Z.abs (row h - row newHit) = 1))))
    (hits s).

(** How a call ends: it returns, or an exception leaves it.  Either way
    the engine object is left in the state given. *)
Inductive Completion := Returned (s : BattleshipAI) | Thrown (s : BattleshipAI).

Definition engine (c : Completion) : BattleshipAI :=
  match c with Returned s | Thrown s => s end.

(** The four neighbours of a first hit, open ones only, best score first. *)
Definition firstHitQueue (s : BattleshipAI) (coord : Coord) : list Coord :=
  let directions := [Up; Down; Left; Right] in
  let open := List.filter (λ d, let rc := stepDirection d (row coord) (col coord) 1 in
                                 isOpen s rc.1 rc.2) directions in
  let scoredNeighbors :=
    sortBy byScoreDesc
      (map (λ d, let rc := stepDirection d (row coord) (col coord) 1 in
                 (mkCoord rc.1 rc.2, scoreDirectionFromHit s (row coord) (col coord) d)) open) in
  map fst scoredNeighbors.

(** [if (isValid(r, c) && !hasShot(r, c) && !queue.some(same)) queue.unshift({ row: r, col: c })] *)
Definition unshiftIfNew (s : BattleshipAI) (r c : Z) (queue : list Coord) : list Coord :=
  if isOpen s r c then
    if existsb (λ t, bool_decide (row t = r) && bool_decide (col t = c)) queue then queue
    else mkCoord r c :: queue
  else queue.

Definition unshiftExtensions (s : BattleshipAI) (queue : list Coord) (line : list Coord) : list Coord :=
  match line with
  | [] => queue
  | h0 :: _ =>
      if isHorizontalLine line then
        unshiftIfNew s (row h0) (minKey col line - 1)
          (unshiftIfNew s (row h0) (maxKey col line + 1) queue)
      else
        unshiftIfNew s (minKey row line - 1) (col h0)
          (unshiftIfNew s (maxKey row line + 1) (col h0) queue)
  end.

(** [lines.reduce((longest, current) => current.length > longest.length ? current : longest)]
    on a non-empty array. *)
Definition longestOf (first : list Coord) (others : list (list Coord)) : list Coord :=
  foldl (λ longest current, if decide (len current > len longest) then current else longest)
        first others.

Definition reportHit (s0 : BattleshipAI) (coord : Coord) : Completion :=
  let s := set_hits (hits s0 ++ [coord]) (set_lastHit (Some coord) (set_mode Target s0)) in
  if decide (len (hits s) = 1) then
    let s1 := set_targetQueue [] s in
    Returned (set_targetQueue (targetQueue s1 ++ firstHitQueue s1 coord) s1)
  else if decide (len (hits s) = 2) then
    match hits s with
    | [] => Returned s
    | first :: _ =>
        if decide (row coord = row first) then
          let s1 := set_targetQueue [] s in
          let cols := sortBy (λ a b, a - b) [col first; col coord] in
          Returned (set_targetQueue
            (pushIfOpen s1 (row first) (hd 0 cols - 1)
               (pushIfOpen s1 (row first) (nth 1 cols 0 + 1) (targetQueue s1))) s1)
        else if decide (col coord = col first) then
          let s1 := set_targetQueue [] s in
          let rows := sortBy (λ a b, a - b) [row first; row coord] in
          Returned (set_targetQueue
            (pushIfOpen s1 (hd 0 rows - 1) (col first)
               (pushIfOpen s1 (nth 1 rows 0 + 1) (col first) (targetQueue s1))) s1)
        else Returned s
    end
  else
    match findAllLines s with
    | [] => Thrown s
    | line0 :: lines =>
        let bestLine := longestOf line0 lines in
        let isPartOfBestLine := existsb (λ h, sameCoord h coord) bestLine in
        let isExtendingBestLine := isPartOfBestLine && isHitExtendingLine coord bestLine in
        if isExtendingBestLine && bool_decide (len bestLine >= 2) then
          let s1 := set_targetQueue [] s in
          match bestLine with
          | [] => Returned s1
          | h0 :: _ =>
              Returned (set_targetQueue
                (lineExtensions s1 (if isHorizontalLine bestLine then Horizontal else Vertical)
                   bestLine h0 (targetQueue s1)) s1)
          end
        else
          let updatedLines := findAllLines s in
          let newLines := List.filter (λ line, existsb (λ h, sameCoord h coord) line) updatedLines in
          let extends := λ tgt, existsb (λ line, wouldExtendLine tgt line) newLines in
          let prioritized := List.filter extends (targetQueue s) in
          let others := List.filter (λ tgt, negb (extends tgt)) (targetQueue s) in
          let s1 := set_targetQueue (prioritized ++ others) s in
          if bool_decide (len prioritized = 0) && bool_decide (len newLines > 0) then
            Returned (set_targetQueue (foldl (unshiftExtensions s1) (targetQueue s1) newLines) s1)
          else Returned s1
    end.

Definition reportMiss (s0 : BattleshipAI) (coord : Coord) : BattleshipAI :=
  let s := set_misses ({[coordToKey (row coord) (col coord)]} ∪ misses s0) s0 in
  if bool_decide (len (hits s) > 0) && bool_decide (len (targetQueue s) > 0) then
    let lines := findAllLines s in
    if decide (len lines > 0) then
      let hasGoodTarget :=
        existsb (λ tgt, existsb (λ line, wouldExtendLine tgt line) lines) (targetQueue s) in
      if hasGoodTarget then s else rebuildTargetQueue (set_targetQueue [] s)
    else s
  else s.

(** [Math.max(...xs)]; [None] is the [-Infinity] of an empty list. *)
Definition maxOf (xs : list Z) : option Z :=
  match xs with
  | [] => None
  | x :: rest => Some (foldl Z.max x rest)
  end.

(** [arr.slice(0, n)] for an integer [n]. *)
Definition slice0 {A} (l : list A) (n : Z) : list A :=
  if decide (n < 0) then take (Z.to_nat (Z.max (len l + n) 0)) l else take (Z.to_nat n) l.

(** [i = arr.indexOf(x); if (i > -1) arr.splice(i, 1)] *)
Fixpoint removeFirst (x : Z) (l : list Z) : list Z :=
  match l with
  | [] => []
  | y :: rest => if decide (y = x) then rest else y :: removeFirst x rest
  end.

Definition reportSunk (s : BattleshipAI) (coord : Coord) (sunkCoords : option (list Coord)) : BattleshipAI :=
  let authoritative :=
    match sunkCoords with
    | Some (c :: cs) => Some (c :: cs)
    | _ => None
    end in
  let hitsToRemove :=
    match authoritative with
    | Some sunkCells =>
        List.filter (λ h, existsb (λ sunkCoord, sameCoord sunkCoord h) sunkCells) (hits s)
    | None =>
        let sunkShipHits := findSunkShipHits s coord in
        match maxOf (remainingShipSizes s) with
        | Some maxRemainingShip =>
            if decide (len sunkShipHits > maxRemainingShip)
            then slice0 sunkShipHits maxRemainingShip
            else slice0 sunkShipHits (len sunkShipHits)
        | None => []
        end
    end in
  let sunkShipSize := len hitsToRemove in
  let s1 := set_remainingShipSizes (removeFirst sunkShipSize (remainingShipSizes s)) s in
  let s2 := set_hits
              (List.filter (λ h, negb (existsb (λ sunkHit, sameCoord sunkHit h) hitsToRemove)) (hits s1))
              s1 in
  if decide (len (hits s2) > 0) then
    rebuildTargetQueue (set_targetQueue [] (set_mode Target s2))
  else
    set_lastProbeDirection None
      (set_firstHit None (set_lastHit None (set_targetQueue [] (set_mode Hunt s2)))).

Definition reportResult (s0 : BattleshipAI) (coord : Coord) (result : ShotResult)
    (sunkCoords : option (list Coord)) : Completion :=
  let s := set_shotsFired ({[coordToKey (row coord) (col coord)]} ∪ shotsFired s0) s0 in
  match result with
  | Hit => reportHit s coord
  | Miss => Returned (reportMiss s coord)
  | Sunk => Returned (reportSunk s coord sunkCoords)
  end.

Definition getNextShot (s0 : BattleshipAI) (rng : nat → Rand) : Coord * BattleshipAI :=
  if decide (len (hits s0) > 0) then
    let s1 := set_mode Target s0 in
    let s2 := if decide (len (targetQueue s1) = 0) then rebuildTargetQueue s1 else s1 in
    match targetQueue s2 with
    | shot :: rest => (shot, set_targetQueue rest s2)
    | [] =>
        let validHits :=
          List.filter (λ h, bool_decide (len (getOrthogonalNeighbors s2 (row h) (col h)) > 0))
                      (hits s2) in
        let s3 := if decide (len validHits < len (hits s2)) then set_hits validHits s2 else s2 in
        if decide (len (hits s3) = 0) then
          let s4 := set_mode Hunt s3 in (getSmartHuntShot s4 rng, s4)
        else (getSmartHuntShot s3 rng, s3)
    end
  else
    let s1 := set_mode Hunt s0 in (getSmartHuntShot s1 rng, s1).

Definition reset (s : BattleshipAI) : BattleshipAI :=
  set_misses ∅
    (set_remainingShipSizes [5; 4; 3; 3; 2]
      (set_lastProbeDirection None
        (set_firstHit None
          (set_hits []
            (set_lastHit None
              (set_targetQueue []
                (set_mode Hunt
                  (set_shotsFired ∅ s)))))))).

(** * The vocabulary of the properties *)

(** ** Boards and rosters *)

(** A board as [createEmptyBoard] makes it: 10 rows of 10 cells. *)
Definition wfBoard (board : Board) : Prop :=
  length board = Z.to_nat BOARD_SIZE ∧ Forall (λ cells, length cells = Z.to_nat BOARD_SIZE) board.

Definition onBoard (r c : Z) : Prop := (0 ≤ r < BOARD_SIZE) ∧ (0 ≤ c < BOARD_SIZE).

(** The [i]-th cell of a ship laid from [(r, c)]. *)
Definition shipCell (r c : Z) (horizontal : bool) (i : Z) : Z * Z :=
  if horizontal then (r, c + i) else (r + i, c).

(** All [length] cells from the origin lie on the board and are empty. *)
Definition placementFits (board : Board) (r c length : Z) (horizontal : bool) : Prop :=
  ∀ i, 0 ≤ i < length →
    onBoard (shipCell r c horizontal i).1 (shipCell r c horizontal i).2 ∧
    ∃ cell, getCell board (shipCell r c horizontal i).1 (shipCell r c horizontal i).2 = Some cell ∧
            state cell = empty.

(** The board of scenario A: a ship of length 3 at row 4, columns 2 to 4. *)
Definition scenarioA (sid : Z) : option Board := placeShip createEmptyBoard 4 2 3 true sid.

(** Draws of [Math.random()] that are all 0.9: every attempt of
    [placeShipsRandomly] is then a vertical ship from row 9, column 9. *)
Definition stubbornDraws : nat → Rand := λ _, mkRand 9 9.

(** [board'] is [board] with the cell at [(r, c)] replaced by [cell]. *)
Definition boardWith (board board' : Board) (r c : Z) (cell : Cell) : Prop :=
  ∀ r' c', getCell board' r' c' = if decide (r' = r ∧ c' = c) then Some cell else getCell board r' c'.

(** A cell after ship [sid] has sunk: a cell of that ship reads [sunk]. *)
Definition sinkCell (sid : Z) (cell : Cell) : Cell :=
  if decide (shipId cell = Some sid) then setState sunk cell else cell.

(** [board'] is [board] with every cell of ship [sid] recoloured. *)
Definition boardSunk (board board' : Board) (sid : Z) : Prop :=
  ∀ r' c', getCell board' r' c' = sinkCell sid <$> getCell board r' c'.

(** The ship of the roster that [ships.find(s => s.id === sid)] yields:
    the first one with that identifier, at position [i]. *)
Definition owningShip (ships : list Ship) (sid : Z) (i : nat) (s : Ship) : Prop :=
  ships !! i = Some s ∧ ship_id s = sid ∧
  ∀ j s', (j < i)%nat → ships !! j = Some s' → ship_id s' ≠ sid.

(** A sequence of shots, each resolved by [processShot] on the board and
    roster the previous one left; the results come in the order of the
    shots. *)
Fixpoint fireAll (board : Board) (ships : list Ship) (shots : list (Z * Z))
  : option (list ShotResult * Board * list Ship) :=
  match shots with
  | [] => Some ([], board, ships)
  | shot :: rest =>
      fired ← processShot board ships shot.1 shot.2;
      later ← fireAll fired.1.2 fired.2 rest;
      Some (fired.1.1 :: later.1.1, later.1.2, later.2)
  end.

(** [cells] holds exactly the cells of the board that carry [sid]. *)
Definition carries (board : Board) (sid : Z) (cells : list (Z * Z)) : Prop :=
  ∀ r c, (r, c) ∈ cells ↔ ∃ cell, getCell board r c = Some cell ∧ shipId cell = Some sid.

(** [cells] lists, once each, the cells of the board that carry [sid]. *)
Definition shipCells (board : Board) (sid : Z) (cells : list (Z * Z)) : Prop :=
  NoDup cells ∧ carries board sid cells.

(** The decidable form of [carries] on a 10x10 board. *)
Definition carriesCheck (board : Board) (sid : Z) (cells : list (Z * Z)) : bool :=
  forallb (λ r, forallb (λ c,
      bool_decide (bool_decide ((r, c) ∈ cells)
                   = match getCell board r c with
                     | Some cell => bool_decide (shipId cell = Some sid)
                     | None => false
                     end))
    (seqZ 0 BOARD_SIZE)) (seqZ 0 BOARD_SIZE) &&
  forallb (λ rc, isValid rc.1 rc.2) cells.

(** Every cell of [cells] reads [st]. *)
Definition cellsRead (board : Board) (st : CellState) (cells : list (Z * Z)) : Prop :=
  ∀ r c, (r, c) ∈ cells → ∃ cell, getCell board r c = Some cell ∧ state cell = st.

(** The shots fired at a cell of [cells], in the order they are fired. *)
Definition shotsAt (cells : list (Z * Z)) (shots : list (Z * Z)) : list (Z * Z) :=
  List.filter (λ shot, bool_decide (shot ∈ cells)) shots.

(** The results of the shots that were fired at a cell of [cells]. *)
Definition resultsAt (cells : list (Z * Z)) (shots : list (Z * Z)) (results : list ShotResult)
  : list ShotResult :=
  (List.filter (λ p, bool_decide (p.1 ∈ cells)) (zip shots results)).*2.

(** The cell [(r', c')] is one of the [length] cells of a ship laid from
    [(r, c)]. *)
Definition covers (r c length : Z) (horizontal : bool) (r' c' : Z) : Prop :=
  if horizontal then r' = r ∧ c ≤ c' < c + length else c' = c ∧ r ≤ r' < r + length.

#[global] Instance covers_dec r c length horizontal r' c' :
  Decision (covers r c length horizontal r' c').
Proof. unfold covers. destruct horizontal; apply _. Defined.

(** [board'] is [board] with the cells of that ship set to
    [{ state: 'ship', shipId: sid }]. *)
Definition boardPlaced (board board' : Board) (r c length : Z) (horizontal : bool) (sid : Z) : Prop :=
  ∀ r' c', getCell board' r' c'
           = if decide (covers r c length horizontal r' c') then Some (mkCell ship (Some sid))
             else getCell board r' c'.

(** A cell after [removeShip]: a cell of ship [sid] is a fresh empty cell. *)
Definition clearCell (sid : Z) (cell : Cell) : Cell :=
  if decide (shipId cell = Some sid) then mkCell empty None else cell.

Definition boardCleared (board board' : Board) (sid : Z) : Prop :=
  ∀ r' c', getCell board' r' c' = clearCell sid <$> getCell board r' c'.

(** No cell of the board carries [sid]. *)
Definition freshId (board : Board) (sid : Z) : Prop :=
  ∀ r c cell, getCell board r c = Some cell → shipId cell ≠ Some sid.

(** The colour a shot leaves on its cell, by the result returned. *)
Definition resultState (res : ShotResult) : CellState :=
  match res with Hit => hit | Miss => miss | Sunk => sunk end.

(** What one shot may do to a ship of the roster: identifier, length and
    [placed] stay, the hit count grows by at most one, a sunk ship stays
    sunk. *)
Definition rosterStep (s s' : Ship) : Prop :=
  ship_id s' = ship_id s ∧ ship_length s' = ship_length s ∧ ship_placed s' = ship_placed s ∧
  ship_hits s ≤ ship_hits s' ≤ ship_hits s + 1 ∧
  (ship_sunk s = true → ship_sunk s' = true).

(** Every empty cell is a bare [{ state: 'empty' }], as [createEmptyBoard]
    and [removeShip] make them. *)
Definition plainEmpty (board : Board) : Prop :=
  ∀ r c cell, getCell board r c = Some cell → state cell = empty → shipId cell = None.

(** [board'] is [board] with some of its empty cells turned into cells
    of ships whose identifier is in [ids]; every other cell is as it was. *)
Definition grownBy (ids : list Z) (board board' : Board) : Prop :=
  ∀ r c, getCell board' r c = getCell board r c ∨
         ∃ cell sid, getCell board r c = Some cell ∧ state cell = empty ∧ sid ∈ ids ∧
                     getCell board' r c = Some (mkCell ship (Some sid)).

(** ** The engine *)

(** The fields other than the queue, as one tuple. *)
Definition besidesQueue (s : BattleshipAI) :=
  (shotsFired s, mode s, lastHit s, hits s, firstHit s, lastProbeDirection s,
   remainingShipSizes s, misses s).



(** The key under which a coordinate is kept in [shotsFired]. *)
Definition keyOf (c : Coord) : Z * Z := coordToKey (row c) (col c).

(** A queue the engine can fire from: no coordinate twice, every one on
    the board and not fired at. *)
Definition openQueue (fired : gset (Z * Z)) (queue : list Coord) : Prop :=
  NoDup queue ∧ Forall (λ c, isValid (row c) (col c) = true ∧ keyOf c ∉ fired) queue.

(** What holds of the engine between the turns of a session. *)
Definition engineInv (s : BattleshipAI) : Prop :=
  openQueue (shotsFired s) (targetQueue s) ∧ (hits s = [] → targetQueue s = []).

(** The coordinate along which a line of the given type runs. *)
Definition along (ty : LineType) (c : Coord) : Z :=
  match ty with Horizontal => col c | Vertical => row c end.

(** ** Sessions and scenarios *)

(** A session of the engine as the game loop drives it ([executeAiTurn]
    of [App.tsx]): every turn asks for a shot and reports that shot's
    outcome before the next turn.  A turn carries what the engine does not
    decide: the random draws, the outcome, and the sunk coordinates.  [play]
    lists the shots the engine returns. *)
Record Turn := mkTurn {
  t_rng : nat → Rand;
  t_result : ShotResult;
  t_sunkCoords : option (list Coord)
}.

Fixpoint play (s : BattleshipAI) (turns : list Turn) : list Coord :=
  match turns with
  | [] => []
  | t :: rest =>
      let shot := getNextShot s (t_rng t) in
      shot.1 :: play (engine (reportResult shot.2 shot.1 (t_result t) (t_sunkCoords t))) rest
  end.

(** The engine at the end of a session. *)
Fixpoint playEnd (s : BattleshipAI) (turns : list Turn) : BattleshipAI :=
  match turns with
  | [] => s
  | t :: rest =>
      let shot := getNextShot s (t_rng t) in
      playEnd (engine (reportResult shot.2 shot.1 (t_result t) (t_sunkCoords t))) rest
  end.

(** The calls of the public interface in any order, and the shots that
    the calls of [getNextShot] among them return. *)
Inductive Call :=
  | Ask (rng : nat → Rand)
  | Report (coord : Coord) (result : ShotResult) (sunkCoords : option (list Coord)).

Fixpoint run (s : BattleshipAI) (calls : list Call) : list Coord :=
  match calls with
  | [] => []
  | Ask rng :: rest => let shot := getNextShot s rng in shot.1 :: run shot.2 rest
  | Report coord result sunkCoords :: rest =>
      run (engine (reportResult s coord result sunkCoords)) rest
  end.

(** The engine after one call, and after a sequence of calls, of the
    public interface. *)
Definition call (s : BattleshipAI) (c : Call) : BattleshipAI :=
  match c with
  | Ask rng => (getNextShot s rng).2
  | Report coord result sunkCoords => engine (reportResult s coord result sunkCoords)
  end.

Definition after (s : BattleshipAI) (calls : list Call) : BattleshipAI := foldl call s calls.

(** The books of the engine agree: every open hit and every recorded
    miss is among the coordinates fired at, the remaining fleet is what
    is left of [5,4,3,3,2], and the two fields that no method ever sets
    hold [null]. *)
Definition bookkept (s : BattleshipAI) : Prop :=
  (∀ h, h ∈ hits s → keyOf h ∈ shotsFired s) ∧
  misses s ⊆ shotsFired s ∧
  sublist (remainingShipSizes s) [5; 4; 3; 3; 2] ∧
  firstHit s = None ∧ lastProbeDirection s = None.

(** The scored cells [getSmartHuntShot] draws from: those of the
    checkerboard, or of the whole board when the checkerboard has none;
    and the sum of the scores of a list of scored cells. *)
Definition huntTier (s : BattleshipAI) : list (Coord * Z) :=
  let checkerboard := scoredCells s (List.filter onCheckerboard boardCells) in
  if decide (len checkerboard = 0) then scoredCells s boardCells else checkerboard.

Definition scoreSum (cells : list (Coord * Z)) : Z :=
  foldl (λ sum cell, sum + cell.2) 0 cells.

(** [b] is the cell next to [a] on its right or below it. *)
Definition nextTo (a b : Coord) : Prop :=
  (row b = row a ∧ col b = col a + 1) ∨ (col b = col a ∧ row b = row a + 1).

(** The coordinate that the members of a line of the given type share. *)
Definition across (ty : LineType) (c : Coord) : Z :=
  match ty with Horizontal => row c | Vertical => col c end.

(** [c] is one step up, down, left or right of one of the hits [hs]. *)
Definition besideHit (hs : list Coord) (c : Coord) : Prop :=
  ∃ h d, h ∈ hs ∧ (row c, col c) = stepDirection d (row h) (col h) 1.

(** Every coordinate of the queue is on the board. *)
Definition validQueue (queue : list Coord) : Prop :=
  Forall (λ c, isValid (row c) (col c) = true) queue.

(** The calls of a session, given the shots the engine returns in it. *)
Definition sessionCalls (turns : list Turn) (shots : list Coord) : list Call :=
  zip turns shots ≫= λ ts, [Ask (t_rng ts.1); Report ts.2 (t_result ts.1) (t_sunkCoords ts.1)].

(** A session of 101 turns in which every shot misses. *)
Definition allMisses : list Turn := replicate 101 (mkTurn stubbornDraws Miss None).

Definition c33 : Coord := mkCoord 3 3.
Definition c34 : Coord := mkCoord 3 4.
Definition c35 : Coord := mkCoord 3 5.

(** The engine after a hit at (3,3) followed by a hit at (3,4). *)
Definition afterTwoHits : BattleshipAI :=
  engine (reportResult (engine (reportResult newBattleshipAI c33 Hit None)) c34 Hit None).

(** * Properties *)

(** ** Lists *)

Section Lists.
Context {A : Type}.
Implicit Types (f : A → bool) (l : list A).

Lemma elem_of_List_filter f l x : x ∈ List.filter f l ↔ x ∈ l ∧ f x = true.
Proof. rewrite !list_elem_of_In. apply filter_In. Qed.

Lemma sublist_List_filter f l : sublist (List.filter f l) l.
Proof.
  induction l as [|x l IH]; simpl; [constructor|].
  destruct (f x); by constructor.
Qed.

Lemma NoDup_List_filter f l : NoDup l → NoDup (List.filter f l).
Proof. intros H. eapply sublist_NoDup; [done|apply sublist_List_filter]. Qed.

Lemma len_nil_inv l : len l = 0 → l = [].
Proof. unfold len. destruct l; [done|simpl; lia]. Qed.

Lemma len_pos l : len l > 0 ↔ l ≠ [].
Proof. unfold len. destruct l; simpl; split; (done || lia). Qed.

Lemma len_nonneg l : 0 ≤ len l.
Proof. unfold len. lia. Qed.
End Lists.

(** ** What a call of the engine leaves alone *)

Section Frame.

Lemma rebuildTargetQueue_frame s : besidesQueue (rebuildTargetQueue s) = besidesQueue s.
Proof.
  unfold rebuildTargetQueue.
  destruct (foldl _ _ _).1 as [[ty [|h0 rest]]|]; repeat case_decide; reflexivity.
Qed.

Lemma rebuildTargetQueue_eq s :
  rebuildTargetQueue s = set_targetQueue (targetQueue (rebuildTargetQueue s)) s.
Proof.
  pose proof (rebuildTargetQueue_frame s) as H. unfold besidesQueue in H.
  destruct (rebuildTargetQueue s), s; simpl in *. unfold set_targetQueue; simpl. congruence.
Qed.

Lemma rebuildTargetQueue_shotsFired s : shotsFired (rebuildTargetQueue s) = shotsFired s.
Proof. pose proof (rebuildTargetQueue_frame s) as H. unfold besidesQueue in H. congruence. Qed.

Lemma rebuildTargetQueue_hits s : hits (rebuildTargetQueue s) = hits s.
Proof. pose proof (rebuildTargetQueue_frame s) as H. unfold besidesQueue in H. congruence. Qed.

End Frame.

(** C10. A call of [getNextShot] leaves the set of fired coordinates, the
    set of misses and the remaining fleet lengths as they were, in every
    state of the engine.  Of the other fields it leaves [lastHit],
    [firstHit] and [lastProbeDirection] alone as well; the open hits it
    can only prune (the new list is a sublist of the old one). *)
Theorem getNextShot_frame (s : BattleshipAI) (rng : nat → Rand) :
  let s' := (getNextShot s rng).2 in
  shotsFired s' = shotsFired s ∧
  misses s' = misses s ∧
  remainingShipSizes s' = remainingShipSizes s ∧
  lastHit s' = lastHit s ∧ firstHit s' = firstHit s ∧
  lastProbeDirection s' = lastProbeDirection s ∧
  sublist (hits s') (hits s).
Proof.
  unfold getNextShot. cbv zeta.
  destruct (decide (len (hits s) > 0)) as [Hh|Hh]; [|by repeat split].
  set (s2 := if decide (len (targetQueue (set_mode Target s)) = 0)
             then rebuildTargetQueue (set_mode Target s) else set_mode Target s).
  assert (Hf : besidesQueue s2 = besidesQueue (set_mode Target s)).
  { subst s2. case_decide; [apply rebuildTargetQueue_frame|done]. }
  clearbody s2. unfold besidesQueue in Hf. simpl in Hf.
  destruct (targetQueue s2) as [|shot rest].
  - repeat case_decide; simpl; repeat split; try congruence;
      replace (hits s) with (hits s2) by congruence;
      (apply sublist_List_filter || done).
  - simpl. repeat split; try congruence. by replace (hits s) with (hits s2) by congruence.
Qed.

(** ** Reset *)

(** C9. [reset()] puts the engine in exactly the state a freshly
    constructed engine has: no fired coordinate, no miss, no open hit, an
    empty queue, mode [Hunt] and the fleet lengths [5,4,3,3,2]; hence a
    second [reset()] in a row changes nothing. *)
Theorem reset_is_fresh (s : BattleshipAI) :
  reset s = newBattleshipAI ∧
  reset s = mkAI ∅ Hunt [] None [] None None [5; 4; 3; 3; 2] ∅ ∧
  reset (reset s) = reset s.
Proof. repeat split. Qed.

Lemma reset_fresh (s : BattleshipAI) : reset s = newBattleshipAI.
Proof. reflexivity. Qed.

(** ** The scenarios of the specification *)

Section Scenarios.

Lemma afterTwoHits_returned (sc1 sc2 : option (list Coord)) :
  ∃ s1, reportResult newBattleshipAI c33 Hit sc1 = Returned s1 ∧
        reportResult s1 c34 Hit sc2 = Returned afterTwoHits.
Proof. eexists. split; reflexivity. Qed.

End Scenarios.

(** C7 (scenario C). From a fresh engine, after a hit at (3,3) and a hit
    at (3,4), both calls return and the target queue holds exactly the two
    coordinates (3,5) and (3,2): the two ends of the horizontal line, and
    nothing outside row 3. *)
Theorem scenario_C_queue (sc1 sc2 : option (list Coord)) :
  ∃ s1 s2,
    reportResult newBattleshipAI c33 Hit sc1 = Returned s1 ∧
    reportResult s1 c34 Hit sc2 = Returned s2 ∧
    targetQueue s2 = [mkCoord 3 5; mkCoord 3 2] ∧
    targetQueue s2 ≡ₚ [mkCoord 3 2; mkCoord 3 5] ∧
    Forall (λ c, row c = 3) (targetQueue s2).
Proof.
  destruct (afterTwoHits_returned sc1 sc2) as (s1 & H1 & H2).
  exists s1, afterTwoHits. split; [done|]. split; [done|].
  assert (Hq : targetQueue afterTwoHits = [mkCoord 3 5; mkCoord 3 2]) by (by vm_compute).
  rewrite Hq. split; [done|]. split; [apply Permutation_swap|].
  by repeat constructor.
Qed.

(** C2 (scenario D), evaluated on the code. After the two hits of
    scenario C, reporting (3,5) as sunk with the sunk coordinates
    (3,3), (3,4), (3,5) empties the open hits and the queue and sets the
    mode to [Hunt]; but the length taken from the remaining fleet is the
    number of open hits removed, which is 2: the fleet left is [5,4,3,3],
    not [5,4,3,2]. *)
Theorem scenario_D_fleet :
  ∃ s3,
    reportResult afterTwoHits c35 Sunk (Some [c33; c34; c35]) = Returned s3 ∧
    hits s3 = [] ∧ targetQueue s3 = [] ∧ mode s3 = Hunt ∧
    remainingShipSizes s3 = [5; 4; 3; 3] ∧
    remainingShipSizes s3 ≠ [5; 4; 3; 2].
Proof.
  eexists. split; [reflexivity|].
  assert (Hr : remainingShipSizes
                 (reportSunk (set_shotsFired ({[coordToKey (row c35) (col c35)]} ∪ shotsFired afterTwoHits)
                                afterTwoHits) c35 (Some [c33; c34; c35])) = [5; 4; 3; 3])
    by (by vm_compute).
  rewrite Hr. repeat split; by vm_compute.
Qed.

(** ** The hunt shot *)

Section Hunt.
Implicit Types (s : BattleshipAI) (cell : Coord).

Lemma elem_of_scoredCells s cells cell :
  cell ∈ (scoredCells s cells).*1 ↔
  cell ∈ cells ∧ hasShot s (row cell) (col cell) = false ∧
  calculateCellScore s (row cell) (col cell) > 0.
Proof.
  unfold scoredCells. rewrite list_elem_of_fmap. split.
  - intros ([c sc] & -> & Hin). apply list_elem_of_omap in Hin as (c' & Hc' & Heq).
    destruct (hasShot s (row c') (col c')) eqn:Hs; [done|].
    case_decide; [|done]. by simplify_eq/=.
  - intros (Hin & Hs & Hpos).
    exists (cell, calculateCellScore s (row cell) (col cell)). split; [done|].
    apply list_elem_of_omap. exists cell. split; [done|].
    rewrite Hs. by rewrite decide_True.
Qed.

Lemma weightedPick_elem den random cells cell :
  weightedPick den random cells = Some cell → cell ∈ cells.*1.
Proof.
  revert random. induction cells as [|[c sc] cells IH]; intros random; simpl; [done|].
  case_decide.
  - intros [= <-]. left.
  - intros H'. right. by eapply IH.
Qed.

(** The three tiers of [getSmartHuntShot]. *)
Lemma getSmartHuntShot_tiers s rng :
  let checkerboard := scoredCells s (List.filter onCheckerboard boardCells) in
  let everywhere := scoredCells s boardCells in
  let shot := getSmartHuntShot s rng in
  (checkerboard ≠ [] → shot ∈ checkerboard.*1) ∧
  (checkerboard = [] → everywhere ≠ [] → shot ∈ everywhere.*1) ∧
  (checkerboard = [] → everywhere = [] →
     (List.find (λ cell, negb (hasShot s (row cell) (col cell))) boardCells = Some shot ∧
      shot ∈ boardCells ∧ hasShot s (row shot) (col shot) = false)
     ∨ (shot = mkCoord 0 0 ∧ ∀ cell, cell ∈ boardCells → hasShot s (row cell) (col cell) = true)).
Proof.
  intros checkerboard everywhere shot.
  assert (Hpick : ∀ cells, cells ≠ [] →
    match cells with
    | [] => mkCoord 0 0
    | first :: _ =>
        match weightedPick (rand_den (rng 0%nat))
                (rand_num (rng 0%nat) * foldl (λ sum c, sum + c.2) 0 cells) cells with
        | Some c => c
        | None => (nth (Z.to_nat (rand_floor_mul (rng 1%nat) (len cells))) cells first).1
        end
    end ∈ cells.*1).
  { intros [|first rest] Hne; [done|].
    destruct (weightedPick _ _ _) eqn:Hw; [by eapply weightedPick_elem|].
    apply list_elem_of_fmap. eexists. split; [done|].
    apply list_elem_of_In.
    destruct (nth_in_or_default (Z.to_nat (rand_floor_mul (rng 1%nat) (len (first :: rest))))
                (first :: rest) first) as [Hin| ->]; [done|by left]. }
  subst shot. unfold getSmartHuntShot. cbv zeta. fold checkerboard. fold everywhere.
  split; [|split].
  - intros Hne. rewrite decide_False by (by rewrite <- len_pos in Hne; lia).
    specialize (Hpick checkerboard Hne). by destruct checkerboard.
  - intros Hcb Hne. rewrite decide_True by (by rewrite Hcb).
    specialize (Hpick everywhere Hne). by destruct everywhere.
  - intros Hcb Hall.
    destruct (decide (len checkerboard = 0)) as [_|Hc]; [|by rewrite Hcb in Hc].
    rewrite Hall.
    destruct (List.find (λ cell, negb (hasShot s (row cell) (col cell))) boardCells)
      as [cell|] eqn:Hf.
    + left. split; [done|]. apply find_some in Hf as [Hin Hs].
      apply list_elem_of_In in Hin. by apply negb_true_iff in Hs.
    + right. split; [done|]. intros cell Hin.
      apply list_elem_of_In in Hin. eapply find_none in Hf; [|done].
      by apply negb_false_iff in Hf.
Qed.


Lemma scoredCells_nonempty s cells :
  scoredCells s cells ≠ [] ↔
  ∃ cell, cell ∈ cells ∧ hasShot s (row cell) (col cell) = false ∧
          calculateCellScore s (row cell) (col cell) > 0.
Proof.
  split.
  - intros Hne. destruct (scoredCells s cells) as [|[c sc] rest] eqn:Heq; [done|].
    exists c. apply elem_of_scoredCells. rewrite Heq. left.
  - intros (cell & Hc) Heq. apply elem_of_scoredCells in Hc. rewrite Heq in Hc.
    by apply elem_of_nil in Hc.
Qed.



End Hunt.



(** ** The board *)

Section BoardShape.
Implicit Types (board : Board) (cell : Cell).

Lemma lookupZ_Some {A} (l : list A) i x :
  lookupZ l i = Some x ↔ 0 ≤ i ∧ l !! Z.to_nat i = Some x.
Proof. unfold lookupZ. case_decide; [tauto|]. split; [done|]. intros [? _]. lia. Qed.

Lemma lookupZ_is_Some {A} (l : list A) i :
  is_Some (lookupZ l i) ↔ 0 ≤ i < Z.of_nat (length l).
Proof.
  unfold lookupZ. case_decide.
  - rewrite lookup_lt_is_Some. lia.
  - split; [by intros [? ?]|lia].
Qed.

Lemma getCell_Some board r c cell :
  getCell board r c = Some cell ↔
  ∃ cells, 0 ≤ r ∧ 0 ≤ c ∧ board !! Z.to_nat r = Some cells ∧ cells !! Z.to_nat c = Some cell.
Proof.
  unfold getCell. split.
  - intros H. apply bind_Some in H as (cells & Hr & Hc).
    apply lookupZ_Some in Hr as [? ?]. apply lookupZ_Some in Hc as [? ?]. by exists cells.
  - intros (cells & ? & ? & Hr & Hc). apply bind_Some. exists cells.
    by rewrite !lookupZ_Some.
Qed.

Lemma wfBoard_getCell board r c :
  wfBoard board → is_Some (getCell board r c) ↔ onBoard r c.
Proof.
  intros [Hlen Hrows]. unfold onBoard, BOARD_SIZE in *. split.
  - intros [cell Hcell]. apply getCell_Some in Hcell as (cells & ? & ? & Hr & Hc).
    pose proof (lookup_lt_Some _ _ _ Hr). pose proof (lookup_lt_Some _ _ _ Hc).
    rewrite Forall_lookup in Hrows. specialize (Hrows _ _ Hr). lia.
  - intros [? ?].
    destruct (lookup_lt_is_Some_2 board (Z.to_nat r)) as [cells Hr]; [lia|].
    rewrite Forall_lookup in Hrows. pose proof (Hrows _ _ Hr).
    destruct (lookup_lt_is_Some_2 cells (Z.to_nat c)) as [cell Hc]; [lia|].
    exists cell. apply getCell_Some. exists cells. repeat split; (done || lia).
Qed.

Lemma createEmptyBoard_wf : wfBoard createEmptyBoard.
Proof. split; [done|]. by repeat constructor. Qed.

(** The loop of [canPlaceShip] over cells that exist. *)
Lemma allEmptyFrom_spec (cellAt : Z → option Cell) (i : Z) (fuel : nat) :
  (∀ k, i ≤ k < i + Z.of_nat fuel → is_Some (cellAt k)) →
  ∃ ok, allEmptyFrom cellAt i fuel = Some ok ∧
        (ok = true ↔ ∀ k, i ≤ k < i + Z.of_nat fuel →
                       ∃ cell, cellAt k = Some cell ∧ state cell = empty).
Proof.
  revert i. induction fuel as [|fuel IH]; intros i Hdef; simpl.
  - exists true. split; [done|]. split; [|done]. intros _ k ?. lia.
  - destruct (Hdef i) as [cell Hcell]; [lia|]. rewrite Hcell. simpl.
    case_decide as Hst.
    + exists false. split; [done|]. split; [done|]. intros Hall.
      destruct (Hall i) as (cell' & ? & ?); [lia|]. congruence.
    + destruct (IH (i + 1)) as (ok & -> & Hok); [intros k ?; apply Hdef; lia|].
      exists ok. split; [done|]. rewrite Hok. split.
      * intros Hall k ?. destruct (decide (k = i)) as [->|].
        -- exists cell. split; [done|]. by destruct (decide (state cell = empty)).
        -- apply Hall. lia.
      * intros Hall k ?. apply Hall. lia.
Qed.

Lemma scenarioA_board sid : ∃ board, scenarioA sid = Some board ∧ wfBoard board.
Proof. eexists. split; [by vm_compute|]. split; [done|]. by repeat constructor. Qed.

End BoardShape.

(** C8. On a 10x10 board, for an origin on the board and a length of at
    least 1, [canPlaceShip] returns (it does not fail) and its result is
    [true] exactly when all [length] cells from the origin, rightwards or
    downwards, lie on the board and are empty.  Scenario A: with a ship of
    length 3 at row 4, columns 2 to 4, a horizontal ship of length 3 is
    refused at (4,3) and accepted at (5,2). *)
Theorem canPlaceShip_spec :
  (∀ board r c length horizontal,
     wfBoard board → 0 ≤ r < 10 → 0 ≤ c < 10 → 1 ≤ length →
     ∃ ok, canPlaceShip board r c length horizontal = Some ok ∧
           (ok = true ↔ placementFits board r c length horizontal)) ∧
  (∀ sid, ∃ board, scenarioA sid = Some board ∧ wfBoard board ∧
     canPlaceShip board 4 3 3 true = Some false ∧
     canPlaceShip board 5 2 3 true = Some true).
Proof.
  split.
  - intros board r c length horizontal Hwf Hr Hc Hlen.
    unfold canPlaceShip, placementFits, shipCell.
    destruct horizontal; case_decide as Hover.
    + exists false. split; [done|]. split; [done|]. intros Hfit.
      destruct (Hfit (length - 1)) as [[_ Hcol] _]; [lia|]. unfold BOARD_SIZE in *. simpl in Hcol. lia.
    + destruct (allEmptyFrom_spec (λ i, getCell board r (c + i)) 0 (Z.to_nat length))
        as (ok & Hrun & Hok).
      { intros k Hk. apply wfBoard_getCell; [done|]. unfold onBoard, BOARD_SIZE in *. lia. }
      exists ok. split; [done|]. rewrite Hok. split.
      * intros Hall i Hi. simpl. split; [unfold onBoard, BOARD_SIZE in *; lia|]. apply Hall. lia.
      * intros Hall k Hk. destruct (Hall k) as [_ ?]; [lia|done].
    + exists false. split; [done|]. split; [done|]. intros Hfit.
      destruct (Hfit (length - 1)) as [[Hrow _] _]; [lia|]. unfold BOARD_SIZE in *. simpl in Hrow. lia.
    + destruct (allEmptyFrom_spec (λ i, getCell board (r + i) c) 0 (Z.to_nat length))
        as (ok & Hrun & Hok).
      { intros k Hk. apply wfBoard_getCell; [done|]. unfold onBoard, BOARD_SIZE in *. lia. }
      exists ok. split; [done|]. rewrite Hok. split.
      * intros Hall i Hi. simpl. split; [unfold onBoard, BOARD_SIZE in *; lia|]. apply Hall. lia.
      * intros Hall k Hk. destruct (Hall k) as [_ ?]; [lia|done].
  - intros sid. eexists. split; [by vm_compute|].
    split; [|split; by vm_compute].
    split; [done|]. by repeat constructor.
Qed.

Lemma canPlaceShip_spec_witness :
  wfBoard createEmptyBoard ∧ 0 ≤ 5 < 10 ∧ 0 ≤ 2 < 10 ∧ 1 ≤ 3 ∧
  ∃ ok, canPlaceShip createEmptyBoard 5 2 3 true = Some ok ∧
        (ok = true ↔ placementFits createEmptyBoard 5 2 3 true).
Proof.
  split; [apply createEmptyBoard_wf|]. split; [lia|]. split; [lia|]. split; [lia|].
  apply (proj1 canPlaceShip_spec createEmptyBoard 5 2 3 true);
    [apply createEmptyBoard_wf|lia|lia|lia].
Defined.

Section BoardUpdate.
Implicit Types (board : Board) (cell : Cell).

Lemma setCell_spec board r c cell0 cell :
  getCell board r c = Some cell0 →
  ∃ board', setCell board r c cell = Some board' ∧
            boardWith board board' r c cell ∧ (wfBoard board → wfBoard board').
Proof.
  intros Hget. unfold setCell. rewrite Hget. simpl. eexists. split; [done|].
  apply getCell_Some in Hget as (cells & Hr & Hc & Hrow & Hcol).
  split.
  - intros r' c'. case_decide as Heq.
    + destruct Heq as [-> ->]. apply getCell_Some.
      exists (<[Z.to_nat c := cell]> cells). repeat split; [done|done| |].
      * by rewrite list_lookup_alter_eq, Hrow.
      * apply list_lookup_insert_eq. by eapply lookup_lt_Some.
    + unfold getCell, lookupZ.
      destruct (decide (0 ≤ r')) as [Hr'|]; [|done].
      destruct (decide (r' = r)) as [->|Hne].
      * rewrite list_lookup_alter_eq, Hrow. simpl.
        destruct (decide (0 ≤ c')) as [Hc'|]; [|done].
        apply list_lookup_insert_ne. intros ?%Z2Nat.inj; [|done|done]. naive_solver.
      * rewrite list_lookup_alter_ne; [done|]. intros ?%Z2Nat.inj; done.
  - intros [Hlen Hrows]. split; [by rewrite length_alter|].
    apply Forall_alter; [done|]. intros cells' _ Hl. by rewrite length_insert.
Qed.

Lemma setCellState_spec board r c cell st :
  getCell board r c = Some cell →
  ∃ board', setCellState board r c st = Some board' ∧
            boardWith board board' r c (setState st cell) ∧ (wfBoard board → wfBoard board').
Proof.
  intros Hget. unfold setCellState. rewrite Hget. simpl. by eapply setCell_spec.
Qed.

(** A [for] loop that keeps an invariant runs to its end. *)
Lemma forUpTo_inv {St} (body : Z → St → option St) (P : Z → St → Prop) i fuel s :
  P i s →
  (∀ k t, i ≤ k < i + Z.of_nat fuel → P k t → ∃ t', body k t = Some t' ∧ P (k + 1) t') →
  ∃ s', forUpTo body i fuel s = Some s' ∧ P (i + Z.of_nat fuel) s'.
Proof.
  revert i s. induction fuel as [|fuel IH]; intros i s HP Hstep; simpl.
  - exists s. split; [done|]. by replace (i + Z.of_nat 0) with i by lia.
  - destruct (Hstep i s) as (t' & -> & HP'); [lia|done|]. simpl.
    destruct (IH (i + 1) t' HP') as (s' & Hrun & HPs).
    { intros k t ? ?. apply Hstep; [lia|done]. }
    exists s'. split; [done|]. by replace (i + Z.of_nat (S fuel)) with (i + 1 + Z.of_nat fuel) by lia.
Qed.

Lemma getCell_onBoard board r c cell :
  wfBoard board → getCell board r c = Some cell → 0 ≤ r < 10 ∧ 0 ≤ c < 10.
Proof. intros Hwf Hcell. apply (wfBoard_getCell board r c Hwf). by eexists. Qed.

Lemma markShipAsSunk_spec board sid :
  wfBoard board →
  ∃ board', markShipAsSunk board sid = Some board' ∧ wfBoard board' ∧ boardSunk board board' sid.
Proof.
  intros Hwf. unfold markShipAsSunk.
  (* the cells before [(r, c)] in the order of the loops are done *)
  set (done_to := λ (r c : Z) (b : Board),
         wfBoard b ∧
         ∀ r' c', getCell b r' c' =
                  (if decide (r' < r ∨ (r' = r ∧ c' < c)) then sinkCell sid else id)
                    <$> getCell board r' c').
  destruct (forUpTo_inv
    (λ r, forUpTo (λ c b, cell ← getCell b r c;
                          if decide (shipId cell = Some sid) then setCellState b r c sunk else Some b)
                  0 (Z.to_nat BOARD_SIZE))
    (λ r b, done_to r 0 b) 0 (Z.to_nat BOARD_SIZE) board) as (board' & Hrun & Hwf' & Hcells).
  - split; [done|]. intros r' c'. case_decide as Hd; [|by rewrite option_fmap_id].
    destruct (getCell board r' c') as [cell|] eqn:Hcell; [|done].
    apply getCell_onBoard in Hcell; [lia|done].
  - intros r b Hr Hb.
    destruct (forUpTo_inv
      (λ c b, cell ← getCell b r c;
              if decide (shipId cell = Some sid) then setCellState b r c sunk else Some b)
      (λ c b, done_to r c b) 0 (Z.to_nat BOARD_SIZE) b Hb) as (b' & Hrow & Hwfb & Hb').
    + intros c t Hc [Hwft Ht].
      destruct (proj2 (wfBoard_getCell t r c Hwft)) as [cell Hcell].
      { unfold onBoard, BOARD_SIZE in *. lia. }
      rewrite Hcell. simpl.
      assert (Horig : getCell board r c = Some cell).
      { specialize (Ht r c). rewrite decide_False in Ht by lia. rewrite Hcell in Ht.
        by destruct (getCell board r c); simplify_eq/=. }
      case_decide as Hid.
      * destruct (setCellState_spec t r c cell sunk Hcell) as (t' & -> & Hwith & Hwft').
        exists t'. split; [done|]. split; [by apply Hwft'|].
        intros r' c'. rewrite Hwith. case_decide as Heq.
        -- destruct Heq as [-> ->]. rewrite decide_True by lia. rewrite Horig. simpl.
           unfold sinkCell. by rewrite decide_True.
        -- rewrite Ht. repeat case_decide; (done || lia).
      * exists t. split; [done|]. split; [done|].
        intros r' c'. destruct (decide (r' = r ∧ c' = c)) as [[-> ->]|Hne].
        -- rewrite decide_True by lia. rewrite Hcell, Horig. simpl.
           unfold sinkCell. by rewrite decide_False.
        -- rewrite Ht. repeat case_decide; (done || lia).
    + exists b'. split; [done|]. split; [done|].
      intros r' c'. rewrite Hb'.
      destruct (getCell board r' c') as [cell|] eqn:Hcell; [|done].
      apply getCell_onBoard in Hcell; [|done]. unfold BOARD_SIZE.
      repeat case_decide; (done || lia).
  - exists board'. split; [done|]. split; [done|].
    intros r' c'. rewrite Hcells.
    destruct (getCell board r' c') as [cell|] eqn:Hcell; [|done].
    apply getCell_onBoard in Hcell; [|done]. unfold BOARD_SIZE.
    repeat case_decide; (done || lia).
Qed.

Lemma findShip_owningShip ships sid k i s :
  findShip (Some sid) ships k = Some (i, s) ↔
  (k ≤ i)%nat ∧ owningShip ships sid (i - k) s.
Proof.
  revert k. induction ships as [|s0 ships IH]; intros k; simpl.
  - split; [done|]. by intros [_ [? _]].
  - case_decide as Hid.
    + split.
      * intros [= <- <-]. split; [done|]. replace (k - k)%nat with 0%nat by lia.
        repeat split; [congruence|]. intros j s' ?. lia.
      * intros (Hk & Hi & Hs & Hfirst).
        destruct (i - k)%nat as [|n] eqn:Hn.
        -- simpl in Hi. f_equal. f_equal; [lia|congruence].
        -- exfalso. apply (Hfirst 0%nat s0); [lia|done|congruence].
    + rewrite IH. split.
      * intros (Hk & Hi & Hs & Hfirst). split; [lia|].
        replace (i - k)%nat with (S (i - S k)) by lia.
        repeat split; [done|done|]. intros [|j] s' ? Hj; simpl in Hj; [congruence|].
        apply (Hfirst j); [lia|done].
      * intros (Hk & Hi & Hs & Hfirst).
        destruct (i - k)%nat as [|n] eqn:Hn; [simpl in Hi; congruence|].
        split; [lia|]. replace (i - S k)%nat with n by lia.
        repeat split; [done|done|]. intros j s' ? Hj. apply (Hfirst (S j)); [lia|done].
Qed.

End BoardUpdate.

(** A shot at a cell of a ship that is in the roster. *)
Lemma processShot_ship (board : Board) (ships : list Ship) (r c : Z) (cell : Cell)
    (sid : Z) (i : nat) (s : Ship) :
  wfBoard board → getCell board r c = Some cell →
  state cell = ship → shipId cell = Some sid → owningShip ships sid i s →
  ∃ board', wfBoard board' ∧
    if decide (ship_hits s + 1 = ship_length s) then
      processShot board ships r c = Some (Sunk, board', <[i := shipSunk (shipHit s)]> ships) ∧
      boardSunk board board' sid
    else
      processShot board ships r c = Some (Hit, board', <[i := shipHit s]> ships) ∧
      boardWith board board' r c (setState hit cell).
Proof.
  intros Hwf Hcell Hst Hid Hown.
  assert (Hfind : findShip (Some sid) ships 0 = Some (i, s)).
  { apply findShip_owningShip. split; [lia|]. by replace (i - 0)%nat with i by lia. }
  unfold processShot. rewrite Hcell. simpl. rewrite decide_True by done.
  destruct (setCellState_spec board r c cell hit Hcell) as (board1 & -> & Hwith & Hwf1).
  simpl. rewrite Hid, Hfind. simpl.
  case_decide as Hsunk.
  - destruct (markShipAsSunk_spec board1 sid (Hwf1 Hwf)) as (board2 & -> & Hwf2 & Hsink).
    exists board2. split; [done|]. split; [done|].
    intros r' c'. rewrite Hsink, Hwith. case_decide as Heq; [|done].
    destruct Heq as [-> ->]. rewrite Hcell. simpl.
    unfold sinkCell. simpl. by rewrite !decide_True.
  - exists board1. by split; [apply Hwf1|].
Qed.

(** A shot at an empty cell. *)
Lemma processShot_empty (board : Board) (ships : list Ship) (r c : Z) (cell : Cell) :
  wfBoard board → getCell board r c = Some cell → state cell = empty →
  ∃ board', wfBoard board' ∧
    processShot board ships r c = Some (Miss, board', ships) ∧
    boardWith board board' r c (setState miss cell).
Proof.
  intros Hwf Hcell Hst. unfold processShot. rewrite Hcell. simpl.
  rewrite decide_False by congruence.
  destruct (setCellState_spec board r c cell miss Hcell) as (board1 & -> & Hwith & Hwf1).
  exists board1. by split; [apply Hwf1|].
Qed.

(** C4. On a 10x10 board, for a coordinate whose cell exists: if the
    cell is ['ship'] and its ship is in the roster, [processShot] marks
    the cell ['hit'] and adds one to that ship's hit count; if the count
    then equals the ship's length it sets the ship's sunk flag, recolours
    every cell of that ship to ['sunk'] and returns ['sunk'], otherwise it
    returns ['hit']; if the cell is ['empty'] it marks it ['miss'] and
    returns ['miss'].  Nothing else on the board or in the roster changes.
    The ship and the cells that the call leaves are written out field by
    field: the hit count is the old one plus one, the sunk flag is
    [true] after a ['sunk'] and the old flag after a ['hit']. *)
Theorem processShot_spec (board : Board) (ships : list Ship) (r c : Z) (cell : Cell) :
  wfBoard board → getCell board r c = Some cell →
  (state cell = ship →
   ∀ sid i s, shipId cell = Some sid → owningShip ships sid i s →
     ∃ board', wfBoard board' ∧
       if decide (ship_hits s + 1 = ship_length s) then
         processShot board ships r c
         = Some (Sunk, board',
                 <[i := mkShip (ship_id s) (ship_length s) (ship_hits s + 1) true (ship_placed s)]>
                   ships) ∧
         boardSunk board board' sid ∧
         (∀ r' c' cell', getCell board r' c' = Some cell' → shipId cell' = Some sid →
                         getCell board' r' c' = Some (mkCell sunk (Some sid))) ∧
         (∀ r' c' cell', getCell board r' c' = Some cell' → shipId cell' ≠ Some sid →
                         getCell board' r' c' = Some cell')
       else
         processShot board ships r c
         = Some (Hit, board',
                 <[i := mkShip (ship_id s) (ship_length s) (ship_hits s + 1) (ship_sunk s)
                               (ship_placed s)]> ships) ∧
         boardWith board board' r c (mkCell hit (Some sid))) ∧
  (state cell = empty →
     ∃ board', wfBoard board' ∧
       processShot board ships r c = Some (Miss, board', ships) ∧
       boardWith board board' r c (mkCell miss (shipId cell))).
Proof.
  intros Hwf Hcell. split.
  - intros Hst sid i s Hid Hown.
    destruct (processShot_ship board ships r c cell sid i s Hwf Hcell Hst Hid Hown)
      as (board' & Hwf' & Hout).
    exists board'. split; [exact Hwf'|].
    destruct (decide (ship_hits s + 1 = ship_length s)) as [Hsunk|Hafloat].
    + destruct Hout as [Hrun Hsink]. split; [exact Hrun|]. split; [exact Hsink|]. split.
      * intros r' c' cell' Hcell' Hid'. rewrite Hsink, Hcell'. simpl.
        unfold sinkCell. rewrite decide_True by done. unfold setState. by rewrite Hid'.
      * intros r' c' cell' Hcell' Hid'. rewrite Hsink, Hcell'. simpl.
        unfold sinkCell. by rewrite decide_False.
    + destruct Hout as [Hrun Hwith]. split; [exact Hrun|].
      unfold setState in Hwith. by rewrite Hid in Hwith.
  - intros Hst. by apply processShot_empty.
Qed.

Lemma processShot_spec_witness :
  ∃ board, scenarioA 2 = Some board ∧ wfBoard board ∧
    getCell board 4 2 = Some (mkCell ship (Some 2)) ∧
    owningShip createShips 2 2 (mkShip 2 3 0 false (Some false)) ∧
    owningShip [mkShip 2 3 2 false (Some true)] 2 0 (mkShip 2 3 2 false (Some true)) ∧
    (∃ board', wfBoard board' ∧
       processShot board createShips 4 2
       = Some (Hit, board', <[2%nat := mkShip 2 3 1 false (Some false)]> createShips) ∧
       boardWith board board' 4 2 (mkCell hit (Some 2))) ∧
    (∃ board', wfBoard board' ∧
       processShot board [mkShip 2 3 2 false (Some true)] 4 2
       = Some (Sunk, board', [mkShip 2 3 3 true (Some true)]) ∧
       boardSunk board board' 2 ∧
       (∀ r' c' cell', getCell board r' c' = Some cell' → shipId cell' = Some 2 →
                       getCell board' r' c' = Some (mkCell sunk (Some 2))) ∧
       (∀ r' c' cell', getCell board r' c' = Some cell' → shipId cell' ≠ Some 2 →
                       getCell board' r' c' = Some cell')).
Proof.
  destruct (scenarioA_board 2) as (board & HA & Hwf).
  exists board. split; [exact HA|]. split; [exact Hwf|].
  assert (Hcell : getCell board 4 2 = Some (mkCell ship (Some 2))).
  { revert HA. vm_compute. intros [= <-]. reflexivity. }
  assert (Hown : owningShip createShips 2 2 (mkShip 2 3 0 false (Some false))).
  { split; [reflexivity|]. split; [reflexivity|].
    intros [|[|j]] s' Hj Hs'; [| |lia]; vm_compute in Hs'; by simplify_eq. }
  assert (Hlast : owningShip [mkShip 2 3 2 false (Some true)] 2 0
                    (mkShip 2 3 2 false (Some true))).
  { split; [reflexivity|]. split; [reflexivity|]. intros j s' Hj. lia. }
  split; [exact Hcell|]. split; [exact Hown|]. split; [exact Hlast|]. split.
  - exact (proj1 (processShot_spec board createShips 4 2 (mkCell ship (Some 2)) Hwf Hcell)
             eq_refl 2 2%nat (mkShip 2 3 0 false (Some false)) eq_refl Hown).
  - exact (proj1 (processShot_spec board [mkShip 2 3 2 false (Some true)] 4 2
                    (mkCell ship (Some 2)) Hwf Hcell)
             eq_refl 2 0%nat (mkShip 2 3 2 false (Some true)) eq_refl Hlast).
Defined.

(** ** Sinking a ship cell by cell *)

Section Sinking.
Implicit Types (board : Board) (ships : list Ship) (cells shots : list (Z * Z)).

(** A shot at a cell that is not of ship [sid] leaves that ship, its
    cells and every [shipId] as they are. *)
Lemma processShot_elsewhere board ships r c cell sid :
  wfBoard board → getCell board r c = Some cell → shipId cell ≠ Some sid →
  ∃ res board' ships',
    processShot board ships r c = Some (res, board', ships') ∧
    wfBoard board' ∧
    (∀ r' c', shipId <$> getCell board' r' c' = shipId <$> getCell board r' c') ∧
    (∀ r' c' cell', getCell board r' c' = Some cell' → shipId cell' = Some sid →
                    getCell board' r' c' = Some cell') ∧
    (∀ i s, owningShip ships sid i s → owningShip ships' sid i s).
Proof.
  intros Hwf Hcell Hother.
  assert (Hpaint : ∀ st board1, boardWith board board1 r c (setState st cell) →
    (∀ r' c', shipId <$> getCell board1 r' c' = shipId <$> getCell board r' c') ∧
    (∀ r' c' cell', getCell board r' c' = Some cell' → shipId cell' = Some sid →
                    getCell board1 r' c' = Some cell')).
  { intros st board1 Hwith. split.
    - intros r' c'. rewrite Hwith. case_decide as Heq; [|done].
      destruct Heq as [-> ->]. by rewrite Hcell.
    - intros r' c' cell' Hcell' Hid. rewrite Hwith. case_decide as Heq; [|done].
      destruct Heq as [-> ->]. congruence. }
  unfold processShot. rewrite Hcell. simpl. case_decide as Hst.
  - destruct (setCellState_spec board r c cell hit Hcell) as (board1 & -> & Hwith & Hwf1).
    simpl. destruct (Hpaint hit board1 Hwith) as [Hids Hkeep].
    destruct (findShip (shipId cell) ships 0) as [[j s']|] eqn:Hfind;
      [destruct (shipId cell) as [sid'|] eqn:Hid|].
    + apply findShip_owningShip in Hfind as (_ & Hj & Hsid' & Hfirst).
      replace (j - 0)%nat with j in * by lia.
      assert (Hroster : ∀ s'', ship_id s'' = sid' →
                ∀ i s, owningShip ships sid i s → owningShip (<[j := s'']> ships) sid i s).
      { intros s'' Hid'' i s (Hi & Hs & Hbefore).
        assert (i ≠ j) by (intros ->; congruence).
        split; [by rewrite list_lookup_insert_ne|]. split; [done|].
        intros k t Hk Ht. destruct (decide (k = j)) as [->|Hne].
        - rewrite list_lookup_insert_eq in Ht by (by eapply lookup_lt_Some).
          simplify_eq. congruence.
        - rewrite list_lookup_insert_ne in Ht by done. by eapply Hbefore. }
      simpl. case_decide as Hsunk.
      * destruct (markShipAsSunk_spec board1 sid' (Hwf1 Hwf)) as (board2 & -> & Hwf2 & Hsink).
        simpl. eexists _, _, _. split; [done|]. split; [done|].
        split; [|split; [|by apply Hroster]].
        -- intros r' c'. rewrite Hsink, <- Hids.
           destruct (getCell board1 r' c') as [cell1|]; [simpl|done].
           unfold sinkCell. by case_decide.
        -- intros r' c' cell' Hcell' Hid'. rewrite Hsink, (Hkeep _ _ _ Hcell' Hid'). simpl.
           unfold sinkCell. rewrite decide_False; [done|congruence].
      * eexists _, _, _. split; [done|]. split; [by apply Hwf1|].
        split; [done|]. split; [done|]. by apply Hroster.
    + eexists _, _, _. split; [done|]. by split; [apply Hwf1|].
    + eexists _, _, _. split; [done|]. by split; [apply Hwf1|].
  - destruct (setCellState_spec board r c cell miss Hcell) as (board1 & -> & Hwith & Hwf1).
    simpl. destruct (Hpaint miss board1 Hwith) as [Hids Hkeep].
    eexists _, _, _. split; [done|]. by split; [apply Hwf1|].
Qed.

Lemma carries_ids board board' sid cells :
  (∀ r' c', shipId <$> getCell board' r' c' = shipId <$> getCell board r' c') →
  carries board sid cells → carries board' sid cells.
Proof.
  intros Hids Hc r c. rewrite (Hc r c). specialize (Hids r c). split.
  - intros (cell & Hcell & Hid). rewrite Hcell in Hids.
    destruct (getCell board' r c) as [cell'|]; [|done]. exists cell'.
    split; [done|]. simpl in Hids. congruence.
  - intros (cell & Hcell & Hid). rewrite Hcell in Hids.
    destruct (getCell board r c) as [cell'|]; [|done]. exists cell'.
    split; [done|]. simpl in Hids. congruence.
Qed.

Lemma resultsAt_cons_in cells shot shots res results :
  shot ∈ cells → resultsAt cells (shot :: shots) (res :: results) = res :: resultsAt cells shots results.
Proof. intros Hin. unfold resultsAt. simpl. by rewrite bool_decide_eq_true_2. Qed.

Lemma resultsAt_cons_out cells shot shots res results :
  shot ∉ cells → resultsAt cells (shot :: shots) (res :: results) = resultsAt cells shots results.
Proof. intros Hin. unfold resultsAt. simpl. by rewrite bool_decide_eq_false_2. Qed.

(** Once the ship is sunk, shots elsewhere leave its cells sunk. *)
Lemma fireAll_after_sunk cells sid shots :
  ∀ board ships,
    wfBoard board → carries board sid cells → cellsRead board sunk cells →
    shotsAt cells shots = [] →
    (∀ shot, shot ∈ shots → onBoard shot.1 shot.2) →
    ∃ results board' ships',
      fireAll board ships shots = Some (results, board', ships') ∧
      resultsAt cells shots results = [] ∧ cellsRead board' sunk cells.
Proof.
  induction shots as [|[r c] rest IH]; intros board ships Hwf Hcar Hsunk Hnone Hon.
  - by exists [], board, ships.
  - unfold shotsAt in Hnone. simpl in Hnone.
    destruct (bool_decide ((r, c) ∈ cells)) eqn:Hin; [done|].
    apply bool_decide_eq_false in Hin.
    destruct (proj2 (wfBoard_getCell board r c Hwf)) as [cell Hcell].
    { apply (Hon (r, c)). left. }
    assert (Hother : shipId cell ≠ Some sid).
    { intros Hid. apply Hin, Hcar. by exists cell. }
    destruct (processShot_elsewhere board ships r c cell sid Hwf Hcell Hother)
      as (res & board1 & ships1 & Hshot & Hwf1 & Hids & Hkeep & _).
    destruct (IH board1 ships1) as (results & board' & ships' & Hrun & Hres & Hfinal);
      [done|by eapply carries_ids| |done|by intros shot ?; apply Hon; right|].
    { intros r' c' Hc'. destruct (Hsunk r' c' Hc') as (cell' & Hcell' & Hst).
      exists cell'. split; [|done]. apply Hkeep; [done|].
      apply Hcar in Hc' as (cell'' & ? & ?). congruence. }
    exists (res :: results), board', ships'. simpl. rewrite Hshot. simpl. rewrite Hrun. simpl.
    split; [done|]. split; [|done].
    by rewrite resultsAt_cons_out.
Qed.

(** While the ship floats: its hit count and the shots still to come at
    its cells add up to its length. *)
Lemma fireAll_sinks cells sid i shots :
  ∀ board ships s,
    wfBoard board → carries board sid cells →
    owningShip ships sid i s →
    ship_hits s + len (shotsAt cells shots) = ship_length s →
    NoDup (shotsAt cells shots) → shotsAt cells shots ≠ [] →
    cellsRead board ship (shotsAt cells shots) →
    (∀ shot, shot ∈ shots → onBoard shot.1 shot.2) →
    ∃ results board' ships',
      fireAll board ships shots = Some (results, board', ships') ∧
      resultsAt cells shots results
      = replicate (length (shotsAt cells shots) - 1) Hit ++ [Sunk] ∧
      cellsRead board' sunk cells.
Proof.
  induction shots as [|[r c] rest IH];
    intros board ships s Hwf Hcar Hown Hcount Hnodup Hne Hship Hon; [done|].
  unfold shotsAt in *. simpl in *.
  destruct (bool_decide ((r, c) ∈ cells)) eqn:Hin.
  - apply bool_decide_eq_true in Hin.
    destruct (Hship r c) as (cell & Hcell & Hst); [left|].
    assert (Hid : shipId cell = Some sid).
    { apply Hcar in Hin as (cell' & ? & ?). congruence. }
    destruct (processShot_ship board ships r c cell sid i s Hwf Hcell Hst Hid Hown)
      as (board1 & Hwf1 & Hshot).
    apply NoDup_cons in Hnodup as [Hfresh Hnodup].
    unfold len in Hcount. simpl in Hcount.
    case_decide as Hlast.
    + (* the last cell *)
      destruct Hshot as [Hshot Hsink].
      assert (Hnone : List.filter (λ shot, bool_decide (shot ∈ cells)) rest = []).
      { apply length_zero_iff_nil. lia. }
      assert (Hcar1 : carries board1 sid cells).
      { apply (carries_ids board); [|done]. intros r' c'. rewrite Hsink.
        destruct (getCell board r' c') as [cell'|]; [simpl|done].
        unfold sinkCell. by case_decide. }
      destruct (fireAll_after_sunk cells sid rest board1 (<[i:=shipSunk (shipHit s)]> ships))
        as (results & board' & ships' & Hrun & Hres & Hfinal);
        [done|done| |done|by intros shot ?; apply Hon; right|].
      { intros r' c' Hc'. apply Hcar in Hc' as (cell' & Hcell' & Hid').
        exists (sinkCell sid cell'). rewrite Hsink, Hcell'. split; [done|].
        unfold sinkCell. by rewrite decide_True. }
      exists (Sunk :: results), board', ships'. rewrite Hshot. simpl. rewrite Hrun. simpl.
      split; [done|]. split; [|done].
      rewrite resultsAt_cons_in by done. rewrite Hres, Hnone. reflexivity.
    + destruct Hshot as [Hshot Hwith].
      assert (Hids : ∀ r' c', shipId <$> getCell board1 r' c' = shipId <$> getCell board r' c').
      { intros r' c'. rewrite Hwith. case_decide as Heq; [|done].
        destruct Heq as [-> ->]. by rewrite Hcell. }
      assert (Hown1 : owningShip (<[i:=shipHit s]> ships) sid i (shipHit s)).
      { destruct Hown as (Hi & Hs & Hbefore). split.
        - apply list_lookup_insert_eq. by eapply lookup_lt_Some.
        - split; [done|]. intros j s' Hj Hs'.
          rewrite list_lookup_insert_ne in Hs' by lia. by eapply Hbefore. }
      destruct (IH board1 (<[i:=shipHit s]> ships) (shipHit s))
        as (results & board' & ships' & Hrun & Hres & Hfinal);
        [done|by eapply carries_ids|done|unfold len; simpl; lia|done| | |
         by intros shot ?; apply Hon; right|].
      { intros Hnil. rewrite Hnil in Hcount. simpl in Hcount. lia. }
      { intros r' c' Hc'. destruct (Hship r' c') as (cell' & Hcell' & Hst'); [by right|].
        exists cell'. split; [|done]. rewrite Hwith, decide_False; [done|].
        intros [-> ->]. by apply Hfresh. }
      exists (Hit :: results), board', ships'. rewrite Hshot. simpl. rewrite Hrun. simpl.
      split; [done|]. split; [|done].
      rewrite resultsAt_cons_in by done. rewrite Hres.
      destruct (List.filter (λ shot, bool_decide (shot ∈ cells)) rest) as [|? more] eqn:Hrest.
      * simpl in Hcount. lia.
      * simpl. by rewrite Nat.sub_0_r.
  - apply bool_decide_eq_false in Hin.
    destruct (proj2 (wfBoard_getCell board r c Hwf)) as [cell Hcell].
    { apply (Hon (r, c)). left. }
    assert (Hother : shipId cell ≠ Some sid).
    { intros Hid. apply Hin, Hcar. by exists cell. }
    destruct (processShot_elsewhere board ships r c cell sid Hwf Hcell Hother)
      as (res & board1 & ships1 & Hshot & Hwf1 & Hids & Hkeep & Hroster).
    destruct (IH board1 ships1 s) as (results & board' & ships' & Hrun & Hres & Hfinal);
      [done|by eapply carries_ids|by apply Hroster|done|done|done| |
       by intros shot ?; apply Hon; right|].
    { intros r' c' Hc'. destruct (Hship r' c' Hc') as (cell' & Hcell' & Hst).
      exists cell'. split; [|done]. apply Hkeep; [done|].
      assert (Hc'' : (r', c') ∈ cells).
      { apply elem_of_List_filter in Hc' as [_ Hc']. by apply bool_decide_eq_true in Hc'. }
      apply Hcar in Hc'' as (cell'' & ? & ?). congruence. }
    exists (res :: results), board', ships'. rewrite Hshot. simpl. rewrite Hrun. simpl.
    split; [done|]. split; [|done].
    by rewrite resultsAt_cons_out.
Qed.

End Sinking.

Lemma isValid_onBoard r c : isValid r c = true ↔ onBoard r c.
Proof.
  unfold isValid, onBoard. rewrite !andb_true_iff, !bool_decide_eq_true. lia.
Qed.

Lemma carriesCheck_carries (board : Board) sid (cells : list (Z * Z)) :
  wfBoard board → carriesCheck board sid cells = true → carries board sid cells.
Proof.
  intros Hwf Hcheck r c. unfold carriesCheck in Hcheck.
  apply andb_true_iff in Hcheck as [Hgrid Hvalid].
  rewrite forallb_forall in Hgrid, Hvalid.
  assert (Hon : (r, c) ∈ cells ∨ is_Some (getCell board r c) → onBoard r c).
  { intros [Hin|Hsome]; [|by apply (wfBoard_getCell board)].
    apply list_elem_of_In, Hvalid in Hin. by apply isValid_onBoard in Hin. }
  assert (Hrc : onBoard r c →
    bool_decide ((r, c) ∈ cells)
    = match getCell board r c with
      | Some cell => bool_decide (shipId cell = Some sid)
      | None => false
      end).
  { intros [? ?]. specialize (Hgrid r). rewrite forallb_forall in Hgrid.
    eapply bool_decide_eq_true, Hgrid; apply list_elem_of_In, elem_of_seqZ; lia. }
  split.
  - intros Hin. specialize (Hrc (Hon (or_introl Hin))).
    rewrite bool_decide_eq_true_2 in Hrc by done.
    destruct (getCell board r c) as [cell|]; [|done].
    exists cell. split; [done|]. symmetry in Hrc. by apply bool_decide_eq_true in Hrc.
  - intros (cell & Hcell & Hid).
    assert (Hsome : is_Some (getCell board r c)) by (by eexists).
    specialize (Hrc (Hon (or_intror Hsome))). rewrite Hcell in Hrc.
    rewrite (bool_decide_eq_true_2 _ Hid) in Hrc. by apply bool_decide_eq_true in Hrc.
Qed.

(** C5. Take a ship of the roster that has not been hit, whose length is
    the number of its cells [cells] on a 10x10 board, all of them reading
    ['ship'].  Fire a sequence of shots, all on the board, in which the
    shots at [cells] are the cells of [cells] once each in any order
    (shots at other cells may come in between).  Then every shot
    returns; of the shots at [cells] the last one returns ['sunk'] and all
    the ones before it return ['hit']; and afterwards every cell of
    [cells] reads ['sunk']. *)
Theorem sink_round_trip (board : Board) (ships : list Ship) (sid : Z) (i : nat) (s : Ship)
    (cells shots : list (Z * Z)) :
  wfBoard board → shipCells board sid cells → cells ≠ [] → cellsRead board ship cells →
  owningShip ships sid i s → ship_hits s = 0 → ship_length s = len cells →
  shotsAt cells shots ≡ₚ cells →
  (∀ shot, shot ∈ shots → onBoard shot.1 shot.2) →
  ∃ results board' ships',
    fireAll board ships shots = Some (results, board', ships') ∧
    resultsAt cells shots results = replicate (length cells - 1) Hit ++ [Sunk] ∧
    cellsRead board' sunk cells.
Proof.
  intros Hwf [Hnodup Hcar] Hne Hship Hown Hhits Hlen Hperm Hon.
  rewrite <- (Permutation_length Hperm).
  apply (fireAll_sinks cells sid i shots board ships s); try done.
  - unfold len in *. rewrite (Permutation_length Hperm). lia.
  - by rewrite Hperm.
  - intros Hnil. rewrite Hnil in Hperm. by apply Permutation_nil_l in Hperm.
  - intros r c Hin. apply Hship. by rewrite <- Hperm.
Qed.

Lemma sink_round_trip_witness :
  ∃ board, scenarioA 2 = Some board ∧
    let cells := [(4, 2); (4, 3); (4, 4)] in
    let shots := [(4, 4); (0, 0); (4, 2); (9, 9); (4, 3)] in
    ∃ results board' ships',
      fireAll board createShips shots = Some (results, board', ships') ∧
      resultsAt cells shots results = [Hit; Hit; Sunk] ∧
      cellsRead board' sunk cells.
Proof.
  destruct (scenarioA_board 2) as (board & HA & Hwf).
  exists board. split; [exact HA|]. intros cells shots.
  assert (Hb : board = default [] (scenarioA 2)) by (by rewrite HA).
  apply (sink_round_trip board createShips 2 2 (mkShip 2 3 0 false (Some false)) cells shots).
  - exact Hwf.
  - split; [refine (bool_decide_unpack _ _); by vm_compute|].
    apply carriesCheck_carries; [exact Hwf|]. rewrite Hb. by vm_compute.
  - discriminate.
  - intros r c Hin. rewrite Hb.
    apply list_elem_of_In in Hin. simpl in Hin.
    destruct Hin as [[= <- <-]|[[= <- <-]|[[= <- <-]|[]]]]; by eexists.
  - split; [reflexivity|]. split; [reflexivity|].
    intros [|[|j]] s' Hj Hs'; [| |lia]; vm_compute in Hs'; by simplify_eq.
  - reflexivity.
  - reflexivity.
  - assert (Hat : shotsAt cells shots = [(4, 4); (4, 2); (4, 3)]) by (by vm_compute).
    rewrite Hat. apply (Permutation_cons_append [(4, 2); (4, 3)] (4, 4)).
  - intros shot Hin. apply isValid_onBoard.
    apply list_elem_of_In in Hin. simpl in Hin.
    destruct Hin as [<-|[<-|[<-|[<-|[<-|[]]]]]]; reflexivity.
Defined.

(** ** Random placement *)

Section RandomPlacement.

Lemma placeLoop_attempts rng shp fuel :
  ∀ st st', placeLoop rng shp fuel st = Some st' →
            p_attempts st ≤ 100 → p_attempts st' ≤ 100.
Proof.
  induction fuel as [|fuel IH]; intros st st' Hrun Hle; simpl in Hrun; [by simplify_eq|].
  destruct (negb (p_placed st) && bool_decide (p_attempts st < 100)) eqn:Hcond;
    [|by simplify_eq].
  apply andb_true_iff in Hcond as [_ Hlt]. apply bool_decide_eq_true in Hlt.
  destruct (canPlaceShip _ _ _ _ _) as [[|]|]; simpl in Hrun; [|by apply IH in Hrun; simpl in *; lia|done].
  destruct (placeShip _ _ _ _ _ _); simpl in Hrun; [|done].
  apply IH in Hrun; simpl in *; lia.
Qed.

End RandomPlacement.

(** C3, evaluated on the code. [placeShipsRandomly] never makes more than
    100 attempts for a ship, not 1000; and when the attempts run out it
    goes on to the next ship and returns as after a success.  With draws
    that are all 0.9, on the empty board and the full fleet, each of the
    five ships uses its 100 attempts (1500 draws in all) and the call
    returns the board still empty: no ship is placed and nothing tells. *)
Theorem placeShipsRandomly_gives_up :
  (∀ rng shp board draws st,
     placeOneShip rng shp board draws = Some st → p_attempts st ≤ 100) ∧
  (∀ shp, shp ∈ createShips →
     placeOneShip stubbornDraws shp createEmptyBoard 0
     = Some (mkPlacing createEmptyBoard false 100 300)) ∧
  placeShipsRandomly stubbornDraws createEmptyBoard createShips 0
  = Some (createEmptyBoard, 1500%nat).
Proof.
  split; [|split].
  - intros rng shp board draws st Hrun. by apply placeLoop_attempts in Hrun.
  - intros shp Hin. apply list_elem_of_In in Hin. simpl in Hin.
    destruct Hin as [<-|[<-|[<-|[<-|[<-|[]]]]]]; by vm_compute.
  - by vm_compute.
Qed.

Lemma placeShipsRandomly_gives_up_witness :
  placeOneShip stubbornDraws (mkShip 0 5 0 false (Some false)) createEmptyBoard 0
  = Some (mkPlacing createEmptyBoard false 100 300) ∧
  p_attempts (mkPlacing createEmptyBoard false 100 300) ≤ 100.
Proof.
  assert (Hrun : placeOneShip stubbornDraws (mkShip 0 5 0 false (Some false)) createEmptyBoard 0
                 = Some (mkPlacing createEmptyBoard false 100 300)) by (by vm_compute).
  split; [exact Hrun|].
  exact (proj1 placeShipsRandomly_gives_up stubbornDraws (mkShip 0 5 0 false (Some false))
           createEmptyBoard 0%nat _ Hrun).
Defined.

(** ** Sorting *)

Section Sorting.
Context {A : Type}.
Implicit Types (cmp : A → A → Z) (l : list A).

Lemma insertBy_perm cmp x l : insertBy cmp x l ≡ₚ x :: l.
Proof.
  induction l as [|y l IH]; simpl; [done|].
  case_decide; [done|]. rewrite IH. apply Permutation_swap.
Qed.

Lemma sortBy_perm cmp l : sortBy cmp l ≡ₚ l.
Proof.
  induction l as [|x l IH]; simpl; [done|].
  by rewrite insertBy_perm, IH.
Qed.

Lemma sortBy_fmap_perm {B} (f : A → B) cmp l : f <$> sortBy cmp l ≡ₚ f <$> l.
Proof. by rewrite sortBy_perm. Qed.

End Sorting.

Section SortingNumbers.
Implicit Types (l : list Z).

Lemma insertBy_sorted x l :
  StronglySorted Z.le l → StronglySorted Z.le (insertBy (λ a b, a - b) x l).
Proof.
  induction 1 as [|y l Hs IH Hy]; simpl; [by repeat constructor|].
  case_decide.
  - constructor; [by constructor|]. constructor; [lia|].
    eapply Forall_impl; [done|]. intros z ?; simpl in *. lia.
  - constructor; [done|]. rewrite insertBy_perm. constructor; [lia|done].
Qed.

Lemma sortBy_sorted l : StronglySorted Z.le (sortBy (λ a b, a - b) l).
Proof. induction l; simpl; [constructor|by apply insertBy_sorted]. Qed.

Lemma sorted_hd_le_last l : StronglySorted Z.le l → l ≠ [] → hd 0 l ≤ List.last l 0.
Proof.
  intros Hs Hne. destruct l as [|x l]; [done|]. simpl hd.
  apply StronglySorted_inv in Hs as [_ Hx].
  destruct (exists_last Hne) as (l' & y & Heq).
  rewrite Heq, last_last.
  destruct l' as [|x' l']; simpl in Heq; simplify_eq; [done|].
  rewrite Forall_forall in Hx. apply Hx. apply elem_of_app. right. left.
Qed.

Lemma minKey_le_maxKey (key : Coord → Z) (line : list Coord) :
  line ≠ [] → minKey key line ≤ maxKey key line.
Proof.
  intros Hne. unfold minKey, maxKey, sortedKeys.
  apply sorted_hd_le_last; [apply sortBy_sorted|].
  intros Hnil. assert (Hlen := Permutation_length (sortBy_perm (λ a b, a - b) (map key line))).
  rewrite Hnil, length_map in Hlen. by destruct line.
Qed.

End SortingNumbers.

(** ** Queues of open cells *)

Section Queue.
Implicit Types (s : BattleshipAI) (q : list Coord) (F : gset (Z * Z)) (c : Coord).

Lemma keyOf_inj c c' : keyOf c = keyOf c' → c = c'.
Proof. destruct c, c'. unfold keyOf, coordToKey. simpl. congruence. Qed.

Lemma isOpen_spec s r k :
  isOpen s r k = true ↔ isValid r k = true ∧ keyOf (mkCoord r k) ∉ shotsFired s.
Proof.
  unfold isOpen, hasShot, keyOf. simpl.
  rewrite andb_true_iff, negb_true_iff, bool_decide_eq_false. done.
Qed.

Lemma openQueue_nil F : openQueue F [].
Proof. split; constructor. Qed.

Lemma openQueue_perm F q q' : q ≡ₚ q' → openQueue F q → openQueue F q'.
Proof. intros Hp [Hn Ha]. split; by rewrite <- Hp. Qed.

Lemma openQueue_cons F q c :
  openQueue F q → c ∉ q → isValid (row c) (col c) = true → keyOf c ∉ F →
  openQueue F (c :: q).
Proof. intros [Hn Ha] Hin Hv Hf. split; [by constructor|by constructor]. Qed.

Lemma openQueue_snoc F q c :
  openQueue F q → c ∉ q → isValid (row c) (col c) = true → keyOf c ∉ F →
  openQueue F (q ++ [c]).
Proof.
  intros Hq Hin Hv Hf. apply (openQueue_perm F (c :: q)); [apply Permutation_cons_append|].
  by apply openQueue_cons.
Qed.

Lemma openQueue_tail F q c : openQueue F (c :: q) → openQueue F q ∧ c ∉ q.
Proof.
  intros [Hn Ha]. apply NoDup_cons in Hn as [? ?]. apply Forall_cons in Ha as [? ?].
  by repeat split.
Qed.

Lemma openQueue_fired F q c : openQueue F q → c ∉ q → openQueue ({[keyOf c]} ∪ F) q.
Proof.
  intros [Hn Ha] Hin. split; [done|].
  rewrite Forall_forall in Ha. apply Forall_forall. intros c' Hc'.
  destruct (Ha c' Hc') as [Hv Hf]. split; [done|].
  rewrite not_elem_of_union, not_elem_of_singleton. split; [|done].
  intros Heq%keyOf_inj. congruence.
Qed.

Lemma openQueue_filter F q (f : Coord → bool) : openQueue F q → openQueue F (List.filter f q).
Proof.
  intros [Hn Ha]. split; [by apply NoDup_List_filter|].
  rewrite Forall_forall in Ha. apply Forall_forall.
  intros c [Hin _]%elem_of_List_filter. by apply Ha.
Qed.

Lemma filter_partition_perm {A} (f : A → bool) (l : list A) :
  List.filter f l ++ List.filter (λ x, negb (f x)) l ≡ₚ l.
Proof.
  induction l as [|x l IH]; simpl; [done|].
  destruct (f x); simpl; [by rewrite IH|].
  by rewrite <- Permutation_middle, IH.
Qed.

Lemma elem_of_pushIfOpen s r k q x :
  x ∈ pushIfOpen s r k q → x ∈ q ∨ x = mkCoord r k.
Proof.
  unfold pushIfOpen. destruct (isOpen s r k); [|by left].
  rewrite elem_of_app, list_elem_of_singleton. done.
Qed.

Lemma pushIfOpen_open s r k q :
  openQueue (shotsFired s) q → mkCoord r k ∉ q → openQueue (shotsFired s) (pushIfOpen s r k q).
Proof.
  intros Hq Hin. unfold pushIfOpen. destruct (isOpen s r k) eqn:Hopen; [|done].
  apply isOpen_spec in Hopen as [Hv Hf]. by apply openQueue_snoc.
Qed.

Lemma lineExtensions_open s ty line h0 :
  line ≠ [] → openQueue (shotsFired s) (lineExtensions s ty line h0 []).
Proof.
  intros Hne. unfold lineExtensions.
  destruct ty; (apply pushIfOpen_open;
    [apply pushIfOpen_open; [apply openQueue_nil|apply not_elem_of_nil]|]);
    intros [Hin|Heq]%elem_of_pushIfOpen; try (by apply elem_of_nil in Hin).
  - pose proof (minKey_le_maxKey col line Hne). simplify_eq. lia.
  - pose proof (minKey_le_maxKey row line Hne). simplify_eq. lia.
Qed.

Lemma unshiftIfNew_open s r k q :
  openQueue (shotsFired s) q → openQueue (shotsFired s) (unshiftIfNew s r k q).
Proof.
  intros Hq. unfold unshiftIfNew. destruct (isOpen s r k) eqn:Hopen; [|done].
  destruct (existsb _ q) eqn:Hex; [done|].
  apply isOpen_spec in Hopen as [Hv Hf]. apply openQueue_cons; [done| |done|done].
  intros Hin. apply not_true_iff_false in Hex. apply Hex, existsb_exists.
  exists (mkCoord r k). split; [by apply list_elem_of_In|]. simpl.
  by rewrite !bool_decide_eq_true_2.
Qed.

Lemma unshiftExtensions_open s q line :
  openQueue (shotsFired s) q → openQueue (shotsFired s) (unshiftExtensions s q line).
Proof.
  intros Hq. unfold unshiftExtensions. destruct line as [|h0 rest]; [done|].
  destruct (isHorizontalLine _); by do 2 apply unshiftIfNew_open.
Qed.

Lemma foldl_unshiftExtensions_open s q lines :
  openQueue (shotsFired s) q → openQueue (shotsFired s) (foldl (unshiftExtensions s) q lines).
Proof.
  revert q. induction lines as [|line lines IH]; intros q Hq; simpl; [done|].
  by apply IH, unshiftExtensions_open.
Qed.

End Queue.

(** ** Rebuilding the queue *)

Section Rebuild.
Implicit Types (s : BattleshipAI) (q line : list Coord) (acc : list (Coord * Z)).

(** The cell one step from [h] in a direction. *)
Local Abbreviation stepFrom d h :=
  (mkCoord (stepDirection d (row h) (col h) 1).1 (stepDirection d (row h) (col h) 1).2).

Lemma scoredPush_fst s h d acc :
  (scoredPush s h d acc).*1
  = pushIfOpen s (stepDirection d (row h) (col h) 1).1 (stepDirection d (row h) (col h) 1).2 acc.*1.
Proof.
  unfold scoredPush, pushIfOpen. destruct (isOpen s _ _); [|done].
  by rewrite fmap_app.
Qed.

Lemma perpendicular_step ty h :
  let d1 := match ty with Horizontal => Up | Vertical => Left end in
  let d2 := match ty with Horizontal => Down | Vertical => Right end in
  along ty (stepFrom d1 h) = along ty h ∧ along ty (stepFrom d2 h) = along ty h ∧
  stepFrom d1 h ≠ stepFrom d2 h.
Proof. destruct ty; simpl; repeat split; try done; intros [=]; lia. Qed.

Lemma perpendicularTargets_open s ty line :
  NoDup (along ty <$> line) → openQueue (shotsFired s) (perpendicularTargets s ty line).*1.
Proof.
  unfold perpendicularTargets.
  assert (Hgen : ∀ acc,
    NoDup (along ty <$> line) →
    openQueue (shotsFired s) acc.*1 →
    (∀ c h, c ∈ acc.*1 → h ∈ line → along ty c ≠ along ty h) →
    openQueue (shotsFired s)
      (foldl (λ acc h,
         match ty with
         | Horizontal => scoredPush s h Down (scoredPush s h Up acc)
         | Vertical => scoredPush s h Right (scoredPush s h Left acc)
         end) acc line).*1).
  { induction line as [|h rest IH]; intros acc Hnd Hacc Hsep; simpl; [done|].
    rewrite fmap_cons in Hnd. apply NoDup_cons in Hnd as [Hh Hnd].
    destruct (perpendicular_step ty h) as (Ha1 & Ha2 & Hne).
    set (d1 := match ty with Horizontal => Up | Vertical => Left end) in *.
    set (d2 := match ty with Horizontal => Down | Vertical => Right end) in *.
    assert (Hsame : match ty with
                    | Horizontal => scoredPush s h Down (scoredPush s h Up acc)
                    | Vertical => scoredPush s h Right (scoredPush s h Left acc)
                    end = scoredPush s h d2 (scoredPush s h d1 acc)) by (by destruct ty).
    rewrite Hsame. clear Hsame.
    assert (Hin1 : ∀ c, c ∈ (scoredPush s h d1 acc).*1 → c ∈ acc.*1 ∨ c = stepFrom d1 h).
    { intros c. rewrite scoredPush_fst. apply elem_of_pushIfOpen. }
    assert (Hin2 : ∀ c, c ∈ (scoredPush s h d2 (scoredPush s h d1 acc)).*1 →
                        c ∈ acc.*1 ∨ c = stepFrom d1 h ∨ c = stepFrom d2 h).
    { intros c. rewrite scoredPush_fst. intros [Hc|Hc]%elem_of_pushIfOpen; [|by auto].
      apply Hin1 in Hc. tauto. }
    apply IH; [done| |].
    - rewrite !scoredPush_fst. apply pushIfOpen_open; [apply pushIfOpen_open; [done|]|].
      + intros Hc. apply (Hsep _ h Hc); [left|done].
      + rewrite <- scoredPush_fst. intros [Hc| Hc]%Hin1; [|done].
        apply (Hsep _ h Hc); [left|done].
    - intros c h' Hc Hh'. apply Hin2 in Hc as [Hc|[->| ->]].
      + apply Hsep; [done|by right].
      + rewrite Ha1. intros Heq. apply Hh. rewrite Heq. by apply list_elem_of_fmap_2.
      + rewrite Ha2. intros Heq. apply Hh. rewrite Heq. by apply list_elem_of_fmap_2. }
  intros Hnd. apply Hgen; [done|apply openQueue_nil|].
  intros c h Hc. by apply elem_of_nil in Hc.
Qed.

Lemma neighborPush_open s h acc d :
  openQueue (shotsFired s) acc.*1 → openQueue (shotsFired s) (neighborPush s h acc d).*1.
Proof.
  intros Hacc. unfold neighborPush.
  destruct (isOpen s _ _) eqn:Hopen; [|done].
  destruct (existsb _ acc) eqn:Hex; [done|].
  apply isOpen_spec in Hopen as [Hv Hf]. rewrite fmap_app. simpl.
  apply openQueue_snoc; [done| |done|done].
  intros Hin. apply not_true_iff_false in Hex. apply Hex, existsb_exists.
  apply list_elem_of_fmap in Hin as ([c sc] & Hc & Hin). simpl in Hc. subst c.
  exists (stepFrom d h, sc). split; [by apply list_elem_of_In|].
  unfold sameCoord. simpl. by rewrite !bool_decide_eq_true_2.
Qed.

Lemma allNeighbors_open s : openQueue (shotsFired s) (allNeighbors s).*1.
Proof.
  unfold allNeighbors.
  assert (Hgen : ∀ hs acc, openQueue (shotsFired s) acc.*1 →
    openQueue (shotsFired s)
      (foldl (λ acc h, foldl (neighborPush s h) acc [Up; Down; Left; Right]) acc hs).*1).
  { induction hs as [|h hs IH]; intros acc Hacc; [done|].
    apply IH. simpl. by do 4 apply neighborPush_open. }
  apply Hgen, openQueue_nil.
Qed.

Lemma continueRun_along ty rest :
  ∀ prev, Forall (λ c, along ty prev < along ty c) (continueRun ty prev rest) ∧
          NoDup (along ty <$> continueRun ty prev rest).
Proof.
  induction rest as [|curr rest IH]; intros prev; simpl; [by split; constructor|].
  destruct (match ty with
            | Horizontal => bool_decide (col curr = col prev + 1)
            | Vertical => bool_decide (row curr = row prev + 1)
            end) eqn:Hnext; [|by split; constructor].
  assert (Hstep : along ty curr = along ty prev + 1).
  { destruct ty; by apply bool_decide_eq_true in Hnext. }
  destruct (IH curr) as [Hlt Hnd]. split.
  - constructor; [lia|]. eapply Forall_impl; [done|]. intros c ?; simpl in *. lia.
  - rewrite fmap_cons. apply NoDup_cons. split; [|done].
    intros (c & Heq & Hc)%list_elem_of_fmap. rewrite Forall_forall in Hlt.
    specialize (Hlt c Hc). lia.
Qed.

Lemma findContinuousHits_along sortedHits ty :
  NoDup (along ty <$> findContinuousHits sortedHits ty).
Proof.
  unfold findContinuousHits. destruct sortedHits as [|h0 rest]; [constructor|].
  destruct (continueRun_along ty rest h0) as [Hlt Hnd].
  rewrite fmap_cons. apply NoDup_cons. split; [|done].
  intros (c & Heq & Hc)%list_elem_of_fmap. rewrite Forall_forall in Hlt.
  specialize (Hlt c Hc). lia.
Qed.

Lemma longerLine_run direction groups :
  ∀ best, (∀ ty line, best.1 = Some (ty, line) → NoDup (along ty <$> line)) →
          ∀ ty line, (foldl (longerLine direction) best groups).1 = Some (ty, line) →
                     NoDup (along ty <$> line).
Proof.
  induction groups as [|g groups IH]; intros best Hbest; simpl; [done|].
  apply IH. unfold longerLine, groupRun.
  case_decide; [|done]. case_decide; [|done].
  intros ty line [= <- <-]. apply findContinuousHits_along.
Qed.

Lemma rebuildTargetQueue_open s :
  targetQueue s = [] → openQueue (shotsFired s) (targetQueue (rebuildTargetQueue s)).
Proof.
  intros Hq. unfold rebuildTargetQueue.
  set (longest := foldl (longerLine Vertical)
                    (foldl (longerLine Horizontal) (None, 0) (groupBy row (hits s)))
                    (groupBy col (hits s))).
  assert (Hrun : ∀ ty line, longest.1 = Some (ty, line) → NoDup (along ty <$> line)).
  { apply longerLine_run, longerLine_run. by intros ty line. }
  assert (Hfinal : ∀ s1, shotsFired s1 = shotsFired s →
            openQueue (shotsFired s) (targetQueue s1) →
            openQueue (shotsFired s)
              (targetQueue (if decide (len (targetQueue s1) = 0)
                            then set_targetQueue
                                   (targetQueue s1 ++ (sortBy byScoreDesc (allNeighbors s1)).*1) s1
                            else s1))).
  { intros s1 Hf Hs1. case_decide as Hlen; [|done].
    apply len_nil_inv in Hlen. rewrite Hlen. simpl.
    apply (openQueue_perm _ (allNeighbors s1).*1); [by rewrite sortBy_perm|].
    rewrite <- Hf. apply allNeighbors_open. }
  destruct longest.1 as [[ty [|h0 rest]]|] eqn:Hbest.
  - apply Hfinal; [done|]. rewrite Hq. apply openQueue_nil.
  - specialize (Hrun ty (h0 :: rest) eq_refl). rewrite Hq.
    assert (Hext : openQueue (shotsFired s) (lineExtensions s ty (h0 :: rest) h0 []))
      by (by apply lineExtensions_open).
    apply Hfinal; [by case_decide|].
    case_decide as Hlen; [|done].
    simpl in *. apply len_nil_inv in Hlen. rewrite Hlen. simpl.
    apply (openQueue_perm _ (perpendicularTargets
             (set_targetQueue [] s) ty (h0 :: rest)).*1);
      [by rewrite sortBy_perm|].
    by apply (perpendicularTargets_open (set_targetQueue [] s)).
  - apply Hfinal; [done|]. rewrite Hq. apply openQueue_nil.
Qed.

End Rebuild.

(** ** Reporting a result *)

Section Report.
Implicit Types (s : BattleshipAI) (q : list Coord) (coord : Coord).

Lemma firstHitQueue_open s coord : openQueue (shotsFired s) (firstHitQueue s coord).
Proof.
  unfold firstHitQueue.
  set (open := List.filter
         (λ d, let rc := stepDirection d (row coord) (col coord) 1 in isOpen s rc.1 rc.2)
         [Up; Down; Left; Right]).
  set (cell := λ d, mkCoord (stepDirection d (row coord) (col coord) 1).1
                            (stepDirection d (row coord) (col coord) 1).2).
  apply (openQueue_perm _ (cell <$> open)).
  { rewrite sortBy_perm. by rewrite <- list_fmap_compose. }
  split.
  - apply NoDup_fmap_2_strong.
    + intros d1 d2 _ _. unfold cell. destruct d1, d2; simpl; intros [=]; (done || lia).
    + apply NoDup_List_filter. refine (bool_decide_unpack _ _). by vm_compute.
  - apply Forall_forall. intros c (d & -> & Hd)%list_elem_of_fmap.
    apply elem_of_List_filter in Hd as [_ Hd]. by apply isOpen_spec in Hd.
Qed.

Lemma secondHit_open s (a b : Z) (horiz : bool) (fixed : Z) :
  let keys := sortBy (λ x y, x - y) [a; b] in
  openQueue (shotsFired s)
    (if horiz then
       pushIfOpen s fixed (hd 0 keys - 1) (pushIfOpen s fixed (nth 1 keys 0 + 1) [])
     else
       pushIfOpen s (hd 0 keys - 1) fixed (pushIfOpen s (nth 1 keys 0 + 1) fixed [])).
Proof.
  intros keys.
  assert (Hkeys : hd 0 keys - 1 ≠ nth 1 keys 0 + 1).
  { subst keys. simpl. case_decide; simpl; lia. }
  destruct horiz; (apply pushIfOpen_open;
    [apply pushIfOpen_open; [apply openQueue_nil|apply not_elem_of_nil]|]);
    intros [Hin|Heq]%elem_of_pushIfOpen; try (by apply elem_of_nil in Hin);
    by simplify_eq.
Qed.

Lemma reportHit_inv s coord :
  openQueue (shotsFired s) (targetQueue s) →
  openQueue (shotsFired s) (targetQueue (engine (reportHit s coord))) ∧
  shotsFired (engine (reportHit s coord)) = shotsFired s ∧
  hits (engine (reportHit s coord)) ≠ [].
Proof.
  intros Hq. unfold reportHit. cbv zeta.
  remember (set_hits (hits s ++ [coord]) (set_lastHit (Some coord) (set_mode Target s)))
    as s1 eqn:Hs1.
  assert (Hfired : shotsFired s1 = shotsFired s) by (by subst).
  assert (Hhits : hits s1 ≠ []) by (subst; simpl; by destruct (hits s)).
  assert (Hq1 : openQueue (shotsFired s1) (targetQueue s1)) by (by subst).
  clear Hs1 Hq. rewrite <- Hfired. clear Hfired s.
  assert (Hset : ∀ q', openQueue (shotsFired s1) q' →
    openQueue (shotsFired s1) (targetQueue (set_targetQueue q' s1)) ∧
    shotsFired (set_targetQueue q' s1) = shotsFired s1 ∧
    hits (set_targetQueue q' s1) ≠ []) by done.
  assert (Hsame : openQueue (shotsFired s1) (targetQueue s1) ∧
                  shotsFired s1 = shotsFired s1 ∧ hits s1 ≠ []) by done.
  case_decide as Hone; [|case_decide as Htwo].
  - simpl. apply Hset. apply (firstHitQueue_open (set_targetQueue [] s1)).
  - destruct (hits s1) as [|first ?] eqn:Hfirst; [done|].
    case_decide as Hrow; [|case_decide as Hcol]; simpl.
    + apply Hset.
      apply (secondHit_open (set_targetQueue [] s1) (col first) (col coord) true (row first)).
    + apply Hset.
      apply (secondHit_open (set_targetQueue [] s1) (row first) (row coord) false (col first)).
    + split; [done|]. split; [done|]. by rewrite Hfirst.
  - destruct (findAllLines s1) as [|line0 lines] eqn:Hlines; [done|].
    set (newLines := List.filter _ (line0 :: lines)).
    set (extends := λ tgt, existsb (λ line, wouldExtendLine tgt line) newLines).
    assert (Hpart : openQueue (shotsFired s1)
              (List.filter extends (targetQueue s1)
               ++ List.filter (λ tgt, negb (extends tgt)) (targetQueue s1))).
    { eapply openQueue_perm; [|done]. symmetry. apply filter_partition_perm. }
    destruct (existsb _ (longestOf line0 lines) && _ && _) eqn:Hext.
    + destruct (longestOf line0 lines) as [|h0 ?] eqn:Hbest; simpl.
      * apply Hset, openQueue_nil.
      * apply Hset.
        by apply (lineExtensions_open (set_targetQueue [] s1)).
    + destruct (bool_decide _ && bool_decide (len newLines > 0)); simpl.
      * apply Hset.
        by apply (foldl_unshiftExtensions_open
                    (set_targetQueue
                       (List.filter extends (targetQueue s1)
                        ++ List.filter (λ tgt, negb (extends tgt)) (targetQueue s1)) s1)).
      * by apply Hset.
Qed.

Lemma reportMiss_inv s coord :
  engineInv s →
  engineInv (reportMiss s coord) ∧ shotsFired (reportMiss s coord) = shotsFired s.
Proof.
  intros [Hq Hempty]. unfold reportMiss. cbv zeta.
  set (s1 := set_misses _ s).
  destruct (_ && _) eqn:Hcond; [|done].
  apply andb_true_iff in Hcond as [Hh _]. apply bool_decide_eq_true in Hh.
  case_decide; [|done]. destruct (existsb _ _); [done|].
  split; [|by rewrite rebuildTargetQueue_shotsFired].
  split.
  - rewrite rebuildTargetQueue_shotsFired.
    by apply (rebuildTargetQueue_open (set_targetQueue [] s1)).
  - rewrite rebuildTargetQueue_hits. intros Hnil.
    change (hits s1 = []) in Hnil. by rewrite Hnil in Hh.
Qed.

Lemma reportSunk_inv s coord sunkCoords :
  engineInv (reportSunk s coord sunkCoords) ∧
  shotsFired (reportSunk s coord sunkCoords) = shotsFired s.
Proof.
  unfold reportSunk. cbv zeta.
  set (hitsToRemove := match match sunkCoords with Some (c :: cs) => _ | _ => _ end with
                       | Some sunkCells => _ | None => _ end).
  set (s2 := set_hits _ (set_remainingShipSizes _ s)).
  case_decide as Hleft.
  - split; [|by rewrite rebuildTargetQueue_shotsFired].
    split.
    + rewrite rebuildTargetQueue_shotsFired.
      by apply (rebuildTargetQueue_open (set_targetQueue [] (set_mode Target s2))).
    + rewrite rebuildTargetQueue_hits. intros Hnil.
      change (hits s2 = []) in Hnil. by rewrite Hnil in Hleft.
  - split; [|done]. split; [apply openQueue_nil|done].
Qed.

Lemma reportResult_inv s coord result sunkCoords :
  engineInv s → coord ∉ targetQueue s →
  engineInv (engine (reportResult s coord result sunkCoords)) ∧
  shotsFired (engine (reportResult s coord result sunkCoords))
  = {[keyOf coord]} ∪ shotsFired s.
Proof.
  intros [Hq Hempty] Hin. unfold reportResult. cbv zeta.
  set (s1 := set_shotsFired _ s).
  assert (Hq1 : openQueue (shotsFired s1) (targetQueue s1)) by (by apply openQueue_fired).
  destruct result; simpl.
  - destruct (reportHit_inv s1 coord Hq1) as (Hq' & Hf & Hh).
    rewrite Hf. split; [|done]. split; [by rewrite <- Hf in Hq'|done].
  - destruct (reportMiss_inv s1 coord) as [Hinv Hf]; [by split|]. by rewrite Hf.
  - destruct (reportSunk_inv s1 coord sunkCoords) as [Hinv Hf]. by rewrite Hf.
Qed.

End Report.

(** ** Asking for a shot *)

Section NextShot.
Implicit Types (s : BattleshipAI) (cell : Coord).

Lemma hasShot_keyOf s cell : hasShot s (row cell) (col cell) = false ↔ keyOf cell ∉ shotsFired s.
Proof. unfold hasShot, keyOf. apply bool_decide_eq_false. Qed.

Lemma boardCells_valid cell : cell ∈ boardCells → isValid (row cell) (col cell) = true.
Proof.
  intros Hin. apply list_elem_of_In in Hin. revert cell Hin. apply forallb_forall.
  by vm_compute.
Qed.

Lemma boardCells_keys : NoDup (keyOf <$> boardCells) ∧ length boardCells = 100%nat.
Proof. split; [|done]. refine (bool_decide_unpack _ _). by vm_compute. Qed.

(** With every cell of the board fired at, a hundred coordinates are. *)
Lemma all_fired_size s :
  (∀ cell, cell ∈ boardCells → hasShot s (row cell) (col cell) = true) →
  (100 ≤ size (shotsFired s))%nat.
Proof.
  intros Hall. destruct boardCells_keys as [Hnd Hlen].
  rewrite <- Hlen, <- (length_fmap keyOf), <- (size_list_to_set (C := gset (Z * Z))) by done.
  apply subseteq_size. intros k Hk. apply elem_of_list_to_set in Hk.
  apply list_elem_of_fmap in Hk as (cell & -> & Hcell).
  specialize (Hall cell Hcell). unfold hasShot in Hall. by apply bool_decide_eq_true in Hall.
Qed.

Lemma getSmartHuntShot_open s rng :
  isValid (row (getSmartHuntShot s rng)) (col (getSmartHuntShot s rng)) = true ∧
  ((size (shotsFired s) < 100)%nat → keyOf (getSmartHuntShot s rng) ∉ shotsFired s).
Proof.
  destruct (getSmartHuntShot_tiers s rng) as (T1 & T2 & T3).
  set (shot := getSmartHuntShot s rng) in *.
  assert (Hscored : ∀ cells, (∀ c, c ∈ cells → c ∈ boardCells) →
            shot ∈ (scoredCells s cells).*1 →
            isValid (row shot) (col shot) = true ∧
            ((size (shotsFired s) < 100)%nat → keyOf shot ∉ shotsFired s)).
  { intros cells Hsub (Hin & Hs & _)%elem_of_scoredCells.
    split; [by apply boardCells_valid, Hsub|by intros _; apply hasShot_keyOf]. }
  destruct (decide (scoredCells s (List.filter onCheckerboard boardCells) = [])) as [Hcb|Hcb].
  - destruct (decide (scoredCells s boardCells = [])) as [Hall|Hall].
    + destruct (T3 Hcb Hall) as [(_ & Hin & Hs)|[-> Hfired]].
      * split; [by apply boardCells_valid|by intros _; apply hasShot_keyOf].
      * split; [done|]. intros Hsize. apply all_fired_size in Hfired. lia.
    + by apply (Hscored boardCells), T2.
  - apply (Hscored (List.filter onCheckerboard boardCells)), T1; [|done].
    by intros c [? _]%elem_of_List_filter.
Qed.

(** [getNextShot] keeps the invariant and returns a cell of the board
    that is no longer in the queue; the cell has not been fired at as long
    as some cell of the board has not. *)
Lemma getNextShot_inv s rng :
  engineInv s →
  engineInv (getNextShot s rng).2 ∧
  shotsFired (getNextShot s rng).2 = shotsFired s ∧
  ((getNextShot s rng).1 ∉ targetQueue (getNextShot s rng).2) ∧
  isValid (row (getNextShot s rng).1) (col (getNextShot s rng).1) = true ∧
  ((size (shotsFired s) < 100)%nat → keyOf (getNextShot s rng).1 ∉ shotsFired s).
Proof.
  intros [Hq Hempty]. unfold getNextShot. cbv zeta.
  case_decide as Hh.
  - set (s2 := if decide (len (targetQueue (set_mode Target s)) = 0)
               then rebuildTargetQueue (set_mode Target s) else set_mode Target s).
    assert (Hf2 : shotsFired s2 = shotsFired s).
    { subst s2. case_decide; [by rewrite rebuildTargetQueue_shotsFired|done]. }
    assert (Hh2 : hits s2 = hits s).
    { subst s2. case_decide; [by rewrite rebuildTargetQueue_hits|done]. }
    assert (Hq2 : openQueue (shotsFired s) (targetQueue s2)).
    { subst s2. case_decide as Hlen; [|done].
      apply (rebuildTargetQueue_open (set_mode Target s)). simpl in *.
      by apply len_nil_inv. }
    clearbody s2.
    destruct (targetQueue s2) as [|shot rest] eqn:Hqueue.
    + assert (Hhunt : ∀ s', shotsFired s' = shotsFired s → targetQueue s' = [] →
        engineInv s' ∧ shotsFired s' = shotsFired s ∧
        (getSmartHuntShot s' rng ∉ targetQueue s') ∧
        isValid (row (getSmartHuntShot s' rng)) (col (getSmartHuntShot s' rng)) = true ∧
        ((size (shotsFired s) < 100)%nat → keyOf (getSmartHuntShot s' rng) ∉ shotsFired s)).
      { intros s' Hf' Hq'. rewrite Hq'.
        split; [split; [rewrite Hq'; apply openQueue_nil|done]|].
        split; [done|]. split; [apply not_elem_of_nil|].
        rewrite <- Hf'. apply getSmartHuntShot_open. }
      repeat case_decide; cbn [fst snd];
        (match goal with |- engineInv ?x ∧ _ => apply (Hhunt x) end); simpl; congruence.
    + simpl. pose proof Hq2 as Hq2'.
      apply openQueue_tail in Hq2 as [Hrest Hfresh].
      split; [split; [simpl; by rewrite Hf2|]|].
      { simpl. rewrite Hh2. intros Hnil. by rewrite Hnil in Hh. }
      split; [done|]. split; [done|].
      destruct Hq2' as [_ Hall]. by apply Forall_cons in Hall as [[? ?] _].
  - assert (Hnil : targetQueue s = []).
    { apply Hempty. apply dec_stable. intros Hne%len_pos. done. }
    cbn [fst snd]. split; [split; [simpl; rewrite Hnil; apply openQueue_nil|done]|].
    split; [done|]. split; [simpl; rewrite Hnil; apply not_elem_of_nil|].
    apply (getSmartHuntShot_open (set_mode Hunt s)).
Qed.

End NextShot.

Section Session.
Implicit Types (s : BattleshipAI) (turns : list Turn).

Lemma play_step s t :
  engineInv s →
  let shot := getNextShot s (t_rng t) in
  let s' := engine (reportResult shot.2 shot.1 (t_result t) (t_sunkCoords t)) in
  engineInv s' ∧ shotsFired s' = {[keyOf shot.1]} ∪ shotsFired s ∧
  isValid (row shot.1) (col shot.1) = true ∧
  ((size (shotsFired s) < 100)%nat → keyOf shot.1 ∉ shotsFired s).
Proof.
  intros Hinv shot s'.
  destruct (getNextShot_inv s (t_rng t) Hinv) as (Hinv1 & Hf1 & Hout & Hvalid & Hfresh).
  destruct (reportResult_inv shot.2 shot.1 (t_result t) (t_sunkCoords t) Hinv1 Hout)
    as [Hinv2 Hf2].
  split; [done|]. split; [|done]. subst s' shot. by rewrite Hf2, Hf1.
Qed.

Lemma play_fresh turns :
  ∀ s, engineInv s → (size (shotsFired s) + length turns ≤ 100)%nat →
       NoDup (play s turns) ∧ Forall (λ c, keyOf c ∉ shotsFired s) (play s turns).
Proof.
  induction turns as [|t turns IH]; intros s Hinv Hsize; simpl; [by split; constructor|].
  simpl in Hsize.
  destruct (play_step s t Hinv) as (Hinv' & Hf' & _ & Hfresh).
  specialize (Hfresh ltac:(lia)).
  set (shot := getNextShot s (t_rng t)) in *.
  set (s' := engine (reportResult shot.2 shot.1 (t_result t) (t_sunkCoords t))) in *.
  destruct (IH s' Hinv') as [Hnd Hall].
  { rewrite Hf', size_union, size_singleton by (by apply disjoint_singleton_l). lia. }
  rewrite Forall_forall in Hall. split.
  - apply NoDup_cons. split; [|done]. intros Hin. apply (Hall _ Hin). rewrite Hf'.
    by apply elem_of_union_l, elem_of_singleton.
  - constructor; [done|]. apply Forall_forall. intros c Hc Hfired.
    apply (Hall _ Hc). rewrite Hf'. by apply elem_of_union_r.
Qed.

(** Every shot of a session is a cell of the board. *)
Lemma play_valid turns :
  ∀ s, engineInv s → Forall (λ c, isValid (row c) (col c) = true) (play s turns).
Proof.
  induction turns as [|t turns IH]; intros s Hinv; simpl; [constructor|].
  destruct (play_step s t Hinv) as (Hinv' & _ & Hvalid & _).
  constructor; [done|]. by apply IH.
Qed.

Lemma isValid_boardCells c : isValid (row c) (col c) = true → c ∈ boardCells.
Proof.
  intros Hv. apply isValid_onBoard in Hv as [Hr Hc]. unfold BOARD_SIZE in *.
  unfold boardCells. apply list_elem_of_bind. exists (row c).
  split; [|apply elem_of_seqZ; unfold BOARD_SIZE; lia].
  apply list_elem_of_bind. exists (col c).
  split; [|apply elem_of_seqZ; unfold BOARD_SIZE; lia].
  destruct c. simpl. left.
Qed.

(** A board of 100 cells: no session has 101 different shots, whatever
    the draws and the outcomes. *)
Lemma length_play turns : ∀ s, length (play s turns) = length turns.
Proof. induction turns as [|t turns IH]; intros s; simpl; [done|]. by rewrite IH. Qed.

Lemma play_pigeonhole turns :
  (100 < length turns)%nat → ¬ NoDup (play newBattleshipAI turns).
Proof.
  intros Hlen Hnd.
  assert (Hplay := length_play turns newBattleshipAI).
  assert (Hsub : play newBattleshipAI turns ⊆ boardCells).
  { intros c Hc. apply isValid_boardCells.
    pose proof (play_valid turns newBattleshipAI) as Hvalid.
    rewrite Forall_forall in Hvalid. apply Hvalid; [|done].
    split; [apply openQueue_nil|done]. }
  apply NoDup_submseteq in Hsub; [|done]. apply submseteq_length in Hsub.
  rewrite Hplay in Hsub. destruct boardCells_keys as [_ Hcells]. lia.
Qed.

Lemma newBattleshipAI_inv : engineInv newBattleshipAI.
Proof. split; [apply openQueue_nil|done]. Qed.

End Session.

(** C1, as the code has it. In a session that starts from a fresh
    engine, or from [reset()], and in which every shot the engine returns
    is reported (with any outcome) before the next one is asked for, the
    first 100 calls of [getNextShot] return 100 different coordinates:
    while a cell of the board has not been fired at, the engine never
    returns a coordinate it returned before. *)
Theorem no_repeated_shot (s0 : BattleshipAI) (turns : list Turn) :
  (length turns ≤ 100)%nat →
  NoDup (play newBattleshipAI turns) ∧ NoDup (play (reset s0) turns).
Proof.
  intros Hlen.
  assert (Hfresh : NoDup (play newBattleshipAI turns)).
  { apply play_fresh; [apply newBattleshipAI_inv|].
    change (shotsFired newBattleshipAI) with (∅ : gset (Z * Z)). by rewrite size_empty. }
  split; [done|]. by destruct (reset_fresh s0).
Qed.

Lemma no_repeated_shot_witness :
  (length (take 100 allMisses) ≤ 100)%nat ∧
  NoDup (play newBattleshipAI (take 100 allMisses)) ∧
  NoDup (play (reset newBattleshipAI) (take 100 allMisses)).
Proof.
  split; [by vm_compute|].
  apply (no_repeated_shot newBattleshipAI (take 100 allMisses)). by vm_compute.
Defined.

(** C1 as stated fails at the 101st call: with all 100 cells fired at,
    [getSmartHuntShot] finds no unfired cell and returns (0,0), which in
    this session the 50th call had returned. *)
Lemma repeated_shot_at_101 :
  length allMisses = 101%nat ∧
  play newBattleshipAI allMisses !! 49%nat = Some (mkCoord 0 0) ∧
  play newBattleshipAI allMisses !! 100%nat = Some (mkCoord 0 0) ∧
  ¬ NoDup (play newBattleshipAI allMisses).
Proof.
  split; [done|]. split; [by vm_compute|]. split; [by vm_compute|].
  apply play_pigeonhole. unfold allMisses. rewrite length_replicate. lia.
Qed.

(** The shots of a session are those of its calls run one by one. *)
Lemma play_run (turns : list Turn) :
  ∀ s, run s (sessionCalls turns (play s turns)) = play s turns.
Proof.
  induction turns as [|t turns IH]; intros s; [done|].
  simpl. f_equal. apply IH.
Qed.

(** Why a session is the alternation that [play] describes: a report of
    a coordinate the engine did not return, made between a shot and its
    report, can leave that shot in the queue.  Here (3,3) is returned,
    (3,4) is reported a hit, then (3,3) a miss; after (4,4) the queue
    yields (3,3) again. *)
Lemma stray_report_repeats :
  let draw := λ _ : nat, mkRand 3 9 in
  run newBattleshipAI
    [Ask draw; Report (mkCoord 3 4) Hit None; Report (mkCoord 3 3) Miss None;
     Ask draw; Report (mkCoord 4 4) Miss None;
     Ask draw]
  = [mkCoord 3 3; mkCoord 4 4; mkCoord 3 3].
Proof. by vm_compute. Qed.

(** * Further properties of the board *)

Section Placing.
Implicit Types (board : Board) (cell : Cell).

(** Two 10x10 boards with the same cells are the same board. *)
Lemma board_ext board1 board2 :
  wfBoard board1 → wfBoard board2 →
  (∀ r c, getCell board1 r c = getCell board2 r c) → board1 = board2.
Proof.
  intros [Hl1 Hr1] [Hl2 Hr2] Hcells. apply list_eq. intros i.
  destruct (decide (i < length board1)%nat) as [Hi|Hi].
  - destruct (lookup_lt_is_Some_2 board1 i Hi) as [cells1 H1].
    destruct (lookup_lt_is_Some_2 board2 i) as [cells2 H2]; [lia|].
    rewrite H1, H2. f_equal. apply list_eq. intros j.
    rewrite Forall_lookup in Hr1, Hr2.
    pose proof (Hr1 _ _ H1) as Hc1. pose proof (Hr2 _ _ H2) as Hc2.
    specialize (Hcells (Z.of_nat i) (Z.of_nat j)).
    unfold getCell, lookupZ in Hcells.
    destruct (decide (0 ≤ Z.of_nat i)); [|lia]. destruct (decide (0 ≤ Z.of_nat j)); [|lia].
    by rewrite !Nat2Z.id, H1, H2 in Hcells.
  - rewrite !lookup_ge_None_2; [done|lia|lia].
Qed.

Lemma allEmptyFrom_true (cellAt : Z → option Cell) (i : Z) (fuel : nat) :
  allEmptyFrom cellAt i fuel = Some true →
  ∀ k, i ≤ k < i + Z.of_nat fuel → ∃ cell, cellAt k = Some cell ∧ state cell = empty.
Proof.
  revert i. induction fuel as [|fuel IH]; intros i Hrun k Hk; [lia|].
  simpl in Hrun. destruct (cellAt i) as [cell|] eqn:Hcell; [|done]. simpl in Hrun.
  case_decide as Hst; [done|].
  destruct (decide (k = i)) as [->|Hne].
  - exists cell. split; [done|]. by destruct (decide (state cell = empty)).
  - apply (IH (i + 1)); [done|lia].
Qed.

(** What [canPlaceShip] has checked when it answers [true]. *)
Lemma canPlaceShip_true board r c length horizontal :
  canPlaceShip board r c length horizontal = Some true →
  ∀ r' c', covers r c length horizontal r' c' →
           ∃ cell, getCell board r' c' = Some cell ∧ state cell = empty.
Proof.
  unfold canPlaceShip, covers. intros Hcan r' c' Hcov.
  destruct horizontal; case_decide; try done.
  - destruct Hcov as [-> Hc].
    destruct (allEmptyFrom_true _ _ _ Hcan (c' - c)) as (cell & Hcell & Hst); [lia|].
    exists cell. split; [|done]. by replace (c + (c' - c)) with c' in Hcell by lia.
  - destruct Hcov as [-> Hr].
    destruct (allEmptyFrom_true _ _ _ Hcan (r' - r)) as (cell & Hcell & Hst); [lia|].
    exists cell. split; [|done]. by replace (r + (r' - r)) with r' in Hcell by lia.
Qed.

(** On a 10x10 board and for an origin on it, [canPlaceShip] answers. *)
Lemma canPlaceShip_total board r c length horizontal :
  wfBoard board → onBoard r c →
  ∃ ok, canPlaceShip board r c length horizontal = Some ok.
Proof.
  intros Hwf [Hr Hc]. unfold canPlaceShip, BOARD_SIZE in *.
  destruct horizontal; case_decide; eauto.
  - destruct (allEmptyFrom_spec (λ i, getCell board r (c + i)) 0 (Z.to_nat length))
      as (ok & Hrun & _); [|by eauto].
    intros k Hk. apply wfBoard_getCell; [done|]. unfold onBoard, BOARD_SIZE. lia.
  - destruct (allEmptyFrom_spec (λ i, getCell board (r + i) c) 0 (Z.to_nat length))
      as (ok & Hrun & _); [|by eauto].
    intros k Hk. apply wfBoard_getCell; [done|]. unfold onBoard, BOARD_SIZE. lia.
Qed.

(** Over a range of indices a decidable property holds somewhere or
    nowhere. *)
Lemma range_search (P : Z → Prop) `{!∀ k, Decision (P k)} (i : Z) (fuel : nat) :
  (∃ k, i ≤ k < i + Z.of_nat fuel ∧ P k) ∨ (∀ k, i ≤ k < i + Z.of_nat fuel → ¬ P k).
Proof.
  revert i. induction fuel as [|fuel IH]; intros i.
  - right. intros k ?. lia.
  - destruct (decide (P i)) as [Hi|Hi].
    + left. exists i. split; [lia|done].
    + destruct (IH (i + 1)) as [(k & Hk & HP)|Hno].
      * left. exists k. split; [lia|done].
      * right. intros k Hk. destruct (decide (k = i)) as [->|?]; [done|]. apply Hno. lia.
Qed.

(** The loop of [placeShip] over cells that exist. *)
Lemma placeFrom_spec (target : Z → Z * Z) sid fuel :
  ∀ i board,
    (∀ k, i ≤ k < i + Z.of_nat fuel → is_Some (getCell board (target k).1 (target k).2)) →
    ∃ board', placeFrom target sid i fuel board = Some board' ∧
      (wfBoard board → wfBoard board') ∧
      ∀ r' c',
        ((∃ k, i ≤ k < i + Z.of_nat fuel ∧ target k = (r', c')) →
         getCell board' r' c' = Some (mkCell ship (Some sid))) ∧
        ((∀ k, i ≤ k < i + Z.of_nat fuel → target k ≠ (r', c')) →
         getCell board' r' c' = getCell board r' c').
Proof.
  induction fuel as [|fuel IH]; intros i board Hdef; simpl.
  - exists board. split; [done|]. split; [done|]. intros r' c'.
    split; [|done]. intros (k & ? & _). lia.
  - destruct (Hdef i) as [cell0 Hcell0]; [lia|].
    destruct (setCell_spec board _ _ cell0 (mkCell ship (Some sid)) Hcell0)
      as (board1 & -> & Hwith & Hwf1). simpl.
    destruct (IH (i + 1) board1) as (board' & Hrun & Hwf' & Hcells).
    { intros k Hk. rewrite Hwith. case_decide; [done|]. apply Hdef. lia. }
    exists board'. split; [done|]. split; [by auto|].
    intros r' c'. destruct (Hcells r' c') as [Hin Hout]. split.
    + intros (k & Hk & Hkt). destruct (decide (k = i)) as [->|Hne].
      * destruct (range_search (λ k', target k' = (r', c')) (i + 1) fuel)
          as [Hlater|Hlater]; [by apply Hin|].
        rewrite Hout, Hwith; [|done].
        rewrite decide_True; [done|]. by rewrite Hkt.
      * apply Hin. exists k. split; [lia|done].
    + intros Hno. rewrite Hout, Hwith.
      * rewrite decide_False; [done|]. intros [Hr Hc]. apply (Hno i); [lia|].
        destruct (target i); simpl in *. by subst.
      * intros k Hk. apply Hno. lia.
Qed.

Lemma placeShip_placed board r c length horizontal sid :
  (∀ r' c', covers r c length horizontal r' c' → is_Some (getCell board r' c')) →
  ∃ board', placeShip board r c length horizontal sid = Some board' ∧
            (wfBoard board → wfBoard board') ∧
            boardPlaced board board' r c length horizontal sid.
Proof.
  intros Hdef. unfold placeShip, boardPlaced, covers in *.
  destruct horizontal.
  - destruct (placeFrom_spec (λ i, (r, c + i)) sid (Z.to_nat length) 0 board)
      as (board' & Hrun & Hwf & Hcells).
    { intros k Hk. simpl. apply Hdef. lia. }
    exists board'. split; [done|]. split; [done|]. intros r' c'.
    destruct (Hcells r' c') as [Hin Hout].
    destruct (decide (r' = r ∧ c ≤ c' < c + length)) as [[-> Hc]|Hno].
    + apply Hin. exists (c' - c). split; [lia|]. f_equal. lia.
    + apply Hout. intros k Hk [= <- <-]. apply Hno. lia.
  - destruct (placeFrom_spec (λ i, (r + i, c)) sid (Z.to_nat length) 0 board)
      as (board' & Hrun & Hwf & Hcells).
    { intros k Hk. simpl. apply Hdef. lia. }
    exists board'. split; [done|]. split; [done|]. intros r' c'.
    destruct (Hcells r' c') as [Hin Hout].
    destruct (decide (c' = c ∧ r ≤ r' < r + length)) as [[-> Hr]|Hno].
    + apply Hin. exists (r' - r). split; [lia|]. f_equal. lia.
    + apply Hout. intros k Hk [= <- <-]. apply Hno. lia.
Qed.

End Placing.

Section Removing.
Implicit Types (board : Board) (cell : Cell).

(** Two nested [for] loops over the 10x10 cells that update each cell on
    its own: the outcome is the board with every cell updated. *)
Lemma sweep_spec (update : Cell → Cell) (act : Board → Z → Z → Cell → option Board) board :
  (∀ b r c cell, getCell b r c = Some cell →
     ∃ b', act b r c cell = Some b' ∧ boardWith b b' r c (update cell) ∧ (wfBoard b → wfBoard b')) →
  wfBoard board →
  ∃ board',
    forUpTo (λ r, forUpTo (λ c b, cell ← getCell b r c; act b r c cell)
                          0 (Z.to_nat BOARD_SIZE)) 0 (Z.to_nat BOARD_SIZE) board = Some board' ∧
    wfBoard board' ∧
    ∀ r' c', getCell board' r' c' = update <$> getCell board r' c'.
Proof.
  intros Hact Hwf.
  set (done_to := λ (r c : Z) (b : Board),
         wfBoard b ∧
         ∀ r' c', getCell b r' c' =
                  (if decide (r' < r ∨ (r' = r ∧ c' < c)) then update else id)
                    <$> getCell board r' c').
  destruct (forUpTo_inv
    (λ r, forUpTo (λ c b, cell ← getCell b r c; act b r c cell) 0 (Z.to_nat BOARD_SIZE))
    (λ r b, done_to r 0 b) 0 (Z.to_nat BOARD_SIZE) board) as (board' & Hrun & Hwf' & Hcells).
  - split; [done|]. intros r' c'. case_decide as Hd; [|by rewrite option_fmap_id].
    destruct (getCell board r' c') as [cell|] eqn:Hcell; [|done].
    apply getCell_onBoard in Hcell; [lia|done].
  - intros r b Hr Hb.
    destruct (forUpTo_inv (λ c b, cell ← getCell b r c; act b r c cell)
      (λ c b, done_to r c b) 0 (Z.to_nat BOARD_SIZE) b Hb) as (b' & Hrow & Hwfb & Hb').
    + intros c t Hc [Hwft Ht].
      destruct (proj2 (wfBoard_getCell t r c Hwft)) as [cell Hcell].
      { unfold onBoard, BOARD_SIZE in *. lia. }
      rewrite Hcell. simpl.
      assert (Horig : getCell board r c = Some cell).
      { specialize (Ht r c). rewrite decide_False in Ht by lia. rewrite Hcell in Ht.
        by destruct (getCell board r c); simplify_eq/=. }
      destruct (Hact t r c cell Hcell) as (t' & -> & Hwith & Hwft').
      exists t'. split; [done|]. split; [by apply Hwft'|].
      intros r' c'. rewrite Hwith. case_decide as Heq.
      * destruct Heq as [-> ->]. rewrite decide_True by lia. by rewrite Horig.
      * rewrite Ht. repeat case_decide; (done || lia).
    + exists b'. split; [done|]. split; [done|].
      intros r' c'. rewrite Hb'.
      destruct (getCell board r' c') as [cell|] eqn:Hcell; [|done].
      apply getCell_onBoard in Hcell; [|done]. unfold BOARD_SIZE.
      repeat case_decide; (done || lia).
  - exists board'. split; [done|]. split; [done|].
    intros r' c'. rewrite Hcells.
    destruct (getCell board r' c') as [cell|] eqn:Hcell; [|done].
    apply getCell_onBoard in Hcell; [|done]. unfold BOARD_SIZE.
    repeat case_decide; (done || lia).
Qed.

Lemma removeShip_spec board sid :
  wfBoard board →
  ∃ board', removeShip board sid = Some board' ∧ wfBoard board' ∧ boardCleared board board' sid.
Proof.
  intros Hwf. unfold removeShip, boardCleared.
  apply (sweep_spec (clearCell sid)
           (λ b r c cell, if decide (shipId cell = Some sid)
                          then setCell b r c (mkCell empty None) else Some b)); [|done].
  intros b r c cell Hcell. unfold clearCell. case_decide.
  - by apply (setCell_spec b r c cell).
  - exists b. split; [done|]. split; [|done].
    intros r' c'. case_decide as Heq; [|done]. by destruct Heq as [-> ->].
Qed.

Lemma createEmptyBoard_cell r c cell :
  getCell createEmptyBoard r c = Some cell → cell = mkCell empty None.
Proof.
  intros Hcell. apply getCell_Some in Hcell as (cells & Hr & Hc & Hrow & Hcol).
  unfold createEmptyBoard in Hrow. apply lookup_replicate in Hrow as [-> _].
  by apply lookup_replicate in Hcol as [-> _].
Qed.

End Removing.

(** X1. On a 10x10 board, once [canPlaceShip] has answered [true] for a
    placement, [placeShip] with the same arguments completes, the board
    stays 10x10, exactly the [length] cells of the ship read
    [{ state: 'ship', shipId }] and every other cell is as it was. *)
Theorem placeShip_after_canPlaceShip (board : Board) (r c length : Z) (horizontal : bool) (sid : Z) :
  wfBoard board →
  canPlaceShip board r c length horizontal = Some true →
  ∃ board', placeShip board r c length horizontal sid = Some board' ∧
            wfBoard board' ∧ boardPlaced board board' r c length horizontal sid.
Proof.
  intros Hwf Hcan.
  destruct (placeShip_placed board r c length horizontal sid) as (board' & Hrun & Hwf' & Hcells).
  - intros r' c' Hcov.
    destruct (canPlaceShip_true _ _ _ _ _ Hcan r' c' Hcov) as (cell & -> & _). by eexists.
  - exists board'. by split; [|split; [apply Hwf'|]].
Qed.

Lemma placeShip_after_canPlaceShip_witness :
  wfBoard createEmptyBoard ∧ canPlaceShip createEmptyBoard 2 7 4 false = Some true ∧
  ∃ board', placeShip createEmptyBoard 2 7 4 false 1 = Some board' ∧
            wfBoard board' ∧ boardPlaced createEmptyBoard board' 2 7 4 false 1.
Proof.
  split; [apply createEmptyBoard_wf|]. split; [reflexivity|].
  apply (placeShip_after_canPlaceShip createEmptyBoard 2 7 4 false 1);
    [apply createEmptyBoard_wf|reflexivity].
Defined.

(** X2. Ships placed through [canPlaceShip] never overlap: after a
    placement that [canPlaceShip] accepted, every further placement it
    accepts on the resulting board shares no cell with that ship. *)
Theorem accepted_placements_disjoint (board board' : Board) (r c length : Z) (horizontal : bool)
    (sid r2 c2 length2 : Z) (horizontal2 : bool) :
  canPlaceShip board r c length horizontal = Some true →
  placeShip board r c length horizontal sid = Some board' →
  canPlaceShip board' r2 c2 length2 horizontal2 = Some true →
  ∀ r' c', covers r c length horizontal r' c' → ¬ covers r2 c2 length2 horizontal2 r' c'.
Proof.
  intros Hcan Hplace Hcan2 r' c' Hcov Hcov2.
  destruct (placeShip_placed board r c length horizontal sid) as (board'' & Hrun & _ & Hcells).
  { intros r1 c1 Hcov1.
    destruct (canPlaceShip_true _ _ _ _ _ Hcan r1 c1 Hcov1) as (cell & -> & _). by eexists. }
  rewrite Hplace in Hrun. injection Hrun as <-.
  destruct (canPlaceShip_true _ _ _ _ _ Hcan2 r' c' Hcov2) as (cell & Hcell & Hst).
  rewrite Hcells, decide_True in Hcell by done. by simplify_eq.
Qed.

Lemma accepted_placements_disjoint_witness :
  canPlaceShip createEmptyBoard 4 2 3 true = Some true ∧
  placeShip createEmptyBoard 4 2 3 true 2 = scenarioA 2 ∧
  canPlaceShip (default [] (scenarioA 2)) 0 5 5 false = Some true ∧
  ∀ r' c', covers 4 2 3 true r' c' → ¬ covers 0 5 5 false r' c'.
Proof.
  split; [reflexivity|]. split; [reflexivity|]. split; [reflexivity|].
  apply (accepted_placements_disjoint createEmptyBoard (default [] (scenarioA 2)) 4 2 3 true 2);
    reflexivity.
Defined.

(** X3. On a 10x10 board [removeShip] completes and keeps the board
    10x10; every cell that carried the identifier, whatever its state
    (also ['hit'] or ['sunk']), is a bare empty cell afterwards, every
    other cell is as it was, and no cell carries the identifier any more. *)
Theorem removeShip_clears (board : Board) (sid : Z) :
  wfBoard board →
  ∃ board', removeShip board sid = Some board' ∧ wfBoard board' ∧
            boardCleared board board' sid ∧ freshId board' sid.
Proof.
  intros Hwf. destruct (removeShip_spec board sid Hwf) as (board' & Hrun & Hwf' & Hcells).
  exists board'. split; [done|]. split; [done|]. split; [done|].
  intros r c cell Hcell. rewrite Hcells in Hcell.
  destruct (getCell board r c) as [cell0|]; [|done]. simpl in Hcell.
  injection Hcell as <-. unfold clearCell. by case_decide.
Qed.

Lemma removeShip_clears_witness :
  wfBoard (default [] (scenarioA 2)) ∧
  ∃ board', removeShip (default [] (scenarioA 2)) 2 = Some board' ∧ wfBoard board' ∧
            boardCleared (default [] (scenarioA 2)) board' 2 ∧ freshId board' 2.
Proof.
  assert (Hwf : wfBoard (default [] (scenarioA 2))).
  { destruct (scenarioA_board 2) as (board & -> & Hwf). exact Hwf. }
  split; [exact Hwf|]. apply (removeShip_clears _ 2 Hwf).
Defined.

(** X4. Placing and removing is a round trip: on a 10x10 board whose
    empty cells are bare and on which the identifier is not in use,
    [removeShip] after a [placeShip] that [canPlaceShip] accepted gives
    back the board as it was before the placement. *)
Theorem placeShip_removeShip (board board' : Board) (r c length : Z) (horizontal : bool) (sid : Z) :
  wfBoard board → plainEmpty board → freshId board sid →
  canPlaceShip board r c length horizontal = Some true →
  placeShip board r c length horizontal sid = Some board' →
  removeShip board' sid = Some board.
Proof.
  intros Hwf Hplain Hfresh Hcan Hplace.
  destruct (placeShip_placed board r c length horizontal sid) as (board1 & Hrun & Hwf1 & Hcells).
  { intros r1 c1 Hcov1.
    destruct (canPlaceShip_true _ _ _ _ _ Hcan r1 c1 Hcov1) as (cell & -> & _). by eexists. }
  rewrite Hplace in Hrun. injection Hrun as <-.
  destruct (removeShip_spec board' sid (Hwf1 Hwf)) as (board2 & -> & Hwf2 & Hcleared).
  f_equal. apply board_ext; [done|done|]. intros r' c'.
  rewrite Hcleared, Hcells. case_decide as Hcov.
  - destruct (canPlaceShip_true _ _ _ _ _ Hcan r' c' Hcov) as (cell & Hcell & Hst).
    rewrite Hcell. simpl. unfold clearCell. rewrite decide_True by done.
    f_equal. destruct cell as [st oid]. simpl in *. subst st.
    pose proof (Hplain r' c' _ Hcell eq_refl) as Hbare. simpl in Hbare. by subst oid.
  - destruct (getCell board r' c') as [cell|] eqn:Hcell; [|done]. simpl.
    unfold clearCell. rewrite decide_False; [done|]. by eapply Hfresh.
Qed.

Lemma placeShip_removeShip_witness :
  wfBoard createEmptyBoard ∧ plainEmpty createEmptyBoard ∧ freshId createEmptyBoard 2 ∧
  canPlaceShip createEmptyBoard 4 2 3 true = Some true ∧
  placeShip createEmptyBoard 4 2 3 true 2 = scenarioA 2 ∧
  removeShip (default [] (scenarioA 2)) 2 = Some createEmptyBoard.
Proof.
  assert (Hplain : plainEmpty createEmptyBoard).
  { intros r c cell Hcell _. by rewrite (createEmptyBoard_cell r c cell Hcell). }
  assert (Hfresh : freshId createEmptyBoard 2).
  { intros r c cell Hcell. by rewrite (createEmptyBoard_cell r c cell Hcell). }
  split; [apply createEmptyBoard_wf|]. split; [exact Hplain|]. split; [exact Hfresh|].
  split; [reflexivity|]. split; [reflexivity|].
  apply (placeShip_removeShip createEmptyBoard (default [] (scenarioA 2)) 4 2 3 true 2);
    [apply createEmptyBoard_wf|exact Hplain|exact Hfresh|reflexivity|reflexivity].
Defined.

(** * Further properties of [processShot] *)

Section Shooting.
Implicit Types (board : Board) (cell : Cell) (ships : list Ship).

Lemma processShot_not_ship board ships r c cell :
  wfBoard board → getCell board r c = Some cell → state cell ≠ ship →
  ∃ board', wfBoard board' ∧
    processShot board ships r c = Some (Miss, board', ships) ∧
    boardWith board board' r c (setState miss cell).
Proof.
  intros Hwf Hcell Hst. unfold processShot. rewrite Hcell. simpl.
  rewrite decide_False by done.
  destruct (setCellState_spec board r c cell miss Hcell) as (board1 & -> & Hwith & Hwf1).
  exists board1. by split; [apply Hwf1|].
Qed.

Lemma findShip_None ships oid k :
  (∀ s, s ∈ ships → Some (ship_id s) ≠ oid) → findShip oid ships k = None.
Proof.
  revert k. induction ships as [|s ships IH]; intros k Hno; simpl; [done|].
  rewrite decide_False by (apply Hno; left).
  apply IH. intros s' Hin. apply Hno. by right.
Qed.

Lemma findShip_lookup ships oid k i s :
  findShip oid ships k = Some (i, s) →
  (k ≤ i)%nat ∧ ships !! (i - k)%nat = Some s ∧ Some (ship_id s) = oid.
Proof.
  revert k. induction ships as [|s0 ships IH]; intros k; simpl; [done|].
  case_decide as Hid.
  - intros [= <- <-]. split; [lia|]. by replace (k - k)%nat with 0%nat by lia.
  - intros Hfind. apply IH in Hfind as (Hle & Hlook & Hsid). split; [lia|]. split; [|done].
    by replace (i - k)%nat with (S (i - S k)) by lia.
Qed.

Lemma rosterStep_refl s : rosterStep s s.
Proof. unfold rosterStep. repeat split; (done || lia). Qed.

Lemma rosterStep_insert ships i s s' :
  ships !! i = Some s → rosterStep s s' → Forall2 rosterStep ships (<[i := s']> ships).
Proof.
  intros Hlook Hstep. apply Forall2_same_length_lookup. split; [by rewrite length_insert|].
  intros j x y Hx Hy. destruct (decide (j = i)) as [->|Hne].
  - rewrite list_lookup_insert_eq in Hy by (by eapply lookup_lt_Some). by simplify_eq.
  - rewrite list_lookup_insert_ne in Hy by done. simplify_eq. apply rosterStep_refl.
Qed.

Lemma processShot_board_step board ships r c cell :
  wfBoard board → getCell board r c = Some cell →
  ∃ res board' ships',
    processShot board ships r c = Some (res, board', ships') ∧
    wfBoard board' ∧
    (∀ r' c', shipId <$> getCell board' r' c' = shipId <$> getCell board r' c') ∧
    getCell board' r c = Some (setState (resultState res) cell) ∧
    (∀ r' c' cell', getCell board' r' c' = Some cell' → state cell' ≠ sunk →
                    (r', c') ≠ (r, c) → getCell board r' c' = Some cell').
Proof.
  intros Hwf Hcell.
  assert (Hpaint : ∀ st board1, wfBoard board1 → boardWith board board1 r c (setState st cell) →
    wfBoard board1 ∧
    (∀ r' c', shipId <$> getCell board1 r' c' = shipId <$> getCell board r' c') ∧
    getCell board1 r c = Some (setState st cell) ∧
    (∀ r' c' cell', getCell board1 r' c' = Some cell' → state cell' ≠ sunk →
                    (r', c') ≠ (r, c) → getCell board r' c' = Some cell')).
  { intros st board1 Hwf1 Hwith. split; [done|]. split; [|split].
    - intros r' c'. rewrite Hwith. case_decide as Heq; [|done].
      destruct Heq as [-> ->]. by rewrite Hcell.
    - rewrite Hwith. by rewrite decide_True.
    - intros r' c' cell' Hcell' _ Hne. rewrite Hwith in Hcell'.
      rewrite decide_False in Hcell'; [done|]. intros [-> ->]. by apply Hne. }
  destruct (decide (state cell = ship)) as [Hst|Hst].
  - unfold processShot. rewrite Hcell. simpl. rewrite decide_True by done.
    destruct (setCellState_spec board r c cell hit Hcell) as (board1 & -> & Hwith & Hwf1).
    simpl. specialize (Hpaint hit board1 (Hwf1 Hwf) Hwith).
    destruct (findShip (shipId cell) ships 0) as [[i s]|] eqn:Hfind;
      [|by exists Hit, board1, ships].
    destruct (shipId cell) as [sid|] eqn:Hid; [|by exists Hit, board1, ships].
    case_decide as Hsunk; [|by eexists Hit, board1, _].
    destruct (markShipAsSunk_spec board1 sid (Hwf1 Hwf)) as (board2 & -> & Hwf2 & Hsink).
    simpl. eexists Sunk, board2, _. split; [done|]. split; [done|].
    destruct Hpaint as (_ & Hids & Hshot & Hrest). split; [|split].
    + intros r' c'. rewrite Hsink, <- Hids.
      destruct (getCell board1 r' c') as [cell1|]; [|done]. simpl. f_equal.
      unfold sinkCell. by case_decide.
    + rewrite Hsink, Hshot. simpl. unfold sinkCell. simpl. by rewrite decide_True.
    + intros r' c' cell' Hcell' Hstate Hne. apply Hrest; [|done|done].
      rewrite Hsink in Hcell'. destruct (getCell board1 r' c') as [cell1|]; [|done].
      simpl in Hcell'. injection Hcell' as <-. unfold sinkCell in *.
      case_decide; [by simpl in Hstate|done].
  - destruct (processShot_not_ship board ships r c cell Hwf Hcell Hst)
      as (board1 & Hwf1 & Hrun & Hwith).
    exists Miss, board1, ships. split; [done|]. by apply Hpaint.
Qed.

End Shooting.

(** X5. A shot at a cell that is not ['ship'] -- an empty one, but also
    one already ['hit'], ['miss'] or ['sunk'] -- returns ['miss'] and
    repaints that cell ['miss'], keeping its [shipId]; no other cell and
    no ship of the roster changes. *)
Theorem processShot_resolved_cell (board : Board) (ships : list Ship) (r c : Z) (cell : Cell) :
  wfBoard board → getCell board r c = Some cell → state cell ≠ ship →
  ∃ board', wfBoard board' ∧
    processShot board ships r c = Some (Miss, board', ships) ∧
    boardWith board board' r c (mkCell miss (shipId cell)).
Proof. apply processShot_not_ship. Qed.

Lemma processShot_resolved_cell_witness :
  ∃ board, (scenarioA 2 ≫= λ b, setCellState b 4 2 hit) = Some board ∧
    wfBoard board ∧ getCell board 4 2 = Some (mkCell hit (Some 2)) ∧ hit ≠ ship ∧
    ∃ board', wfBoard board' ∧
      processShot board createShips 4 2 = Some (Miss, board', createShips) ∧
      boardWith board board' 4 2 (mkCell miss (Some 2)).
Proof.
  eexists. split; [by vm_compute|].
  assert (Hwf : wfBoard (default [] (scenarioA 2 ≫= λ b, setCellState b 4 2 hit))).
  { split; [done|]. by repeat constructor. }
  split; [exact Hwf|]. split; [reflexivity|]. split; [discriminate|].
  apply (processShot_resolved_cell _ createShips 4 2 (mkCell hit (Some 2)) Hwf);
    [reflexivity|discriminate].
Defined.

(** X6. On a 10x10 board [processShot] returns exactly for the
    coordinates of the board: for a row or column outside 0..9 it
    dereferences [undefined] and throws, and for every cell of the board
    it returns a result. *)
Theorem processShot_defined (board : Board) (ships : list Ship) (r c : Z) :
  wfBoard board → is_Some (processShot board ships r c) ↔ onBoard r c.
Proof.
  intros Hwf. rewrite <- (wfBoard_getCell board r c Hwf). split.
  - intros [out Hrun]. unfold processShot in Hrun.
    destruct (getCell board r c); [by eexists|done].
  - intros [cell Hcell].
    destruct (processShot_board_step board ships r c cell Hwf Hcell)
      as (res & board' & ships' & -> & _). by eexists.
Qed.

Lemma processShot_defined_witness :
  wfBoard createEmptyBoard ∧
  (is_Some (processShot createEmptyBoard createShips 3 10) ↔ onBoard 3 10).
Proof.
  split; [apply createEmptyBoard_wf|].
  apply (processShot_defined createEmptyBoard createShips 3 10), createEmptyBoard_wf.
Defined.

(** X7. A shot at a ['ship'] cell whose identifier no ship of the roster
    has (or that has none) returns ['hit'] and marks the cell ['hit'];
    the roster is untouched, so such a cell can never lead to ['sunk']. *)
Theorem processShot_unlisted_ship (board : Board) (ships : list Ship) (r c : Z) (cell : Cell) :
  wfBoard board → getCell board r c = Some cell → state cell = ship →
  (∀ s, s ∈ ships → Some (ship_id s) ≠ shipId cell) →
  ∃ board', wfBoard board' ∧
    processShot board ships r c = Some (Hit, board', ships) ∧
    boardWith board board' r c (setState hit cell).
Proof.
  intros Hwf Hcell Hst Hno. unfold processShot. rewrite Hcell. simpl.
  rewrite decide_True by done.
  destruct (setCellState_spec board r c cell hit Hcell) as (board1 & -> & Hwith & Hwf1).
  simpl. rewrite (findShip_None ships (shipId cell) 0 Hno).
  exists board1. by split; [apply Hwf1|].
Qed.

Lemma processShot_unlisted_ship_witness :
  ∃ board, scenarioA 7 = Some board ∧ wfBoard board ∧
    getCell board 4 3 = Some (mkCell ship (Some 7)) ∧
    ∃ board', wfBoard board' ∧
      processShot board createShips 4 3 = Some (Hit, board', createShips) ∧
      boardWith board board' 4 3 (mkCell hit (Some 7)).
Proof.
  destruct (scenarioA_board 7) as (board & HA & Hwf).
  exists board. split; [exact HA|]. split; [exact Hwf|].
  assert (Hb : board = default [] (scenarioA 7)) by (by rewrite HA).
  split; [by rewrite Hb|].
  apply (processShot_unlisted_ship board createShips 4 3 (mkCell ship (Some 7)) Hwf).
  - by rewrite Hb.
  - reflexivity.
  - intros s Hin. apply list_elem_of_In in Hin. simpl in Hin.
    destruct Hin as [<-|[<-|[<-|[<-|[<-|[]]]]]]; discriminate.
Defined.

(** X8. Whatever [processShot] returns, the roster keeps its ships in
    place: every ship keeps its identifier, length and [placed] flag, its
    hit count grows by at most one, a ship that was sunk stays sunk; and
    when the result is ['miss'] the roster is unchanged. *)
Theorem processShot_roster (board : Board) (ships : list Ship) (r c : Z)
    (res : ShotResult) (board' : Board) (ships' : list Ship) :
  processShot board ships r c = Some (res, board', ships') →
  Forall2 rosterStep ships ships' ∧ (res = Miss → ships' = ships).
Proof.
  assert (Hsame : Forall2 rosterStep ships ships).
  { apply Forall_Forall2_diag, Forall_forall. intros s _. apply rosterStep_refl. }
  unfold processShot. destruct (getCell board r c) as [cell|]; [|done]. simpl.
  case_decide as Hst.
  - destruct (setCellState board r c hit) as [board1|]; [|done]. simpl.
    destruct (findShip (shipId cell) ships 0) as [[i s]|] eqn:Hfind;
      [|intros [= <- <- <-]; by split].
    destruct (shipId cell) as [sid|]; [|intros [= <- <- <-]; by split].
    apply findShip_lookup in Hfind as (_ & Hlook & _).
    replace (i - 0)%nat with i in Hlook by lia.
    case_decide as Hsunk.
    + destruct (markShipAsSunk board1 sid) as [board2|]; [|done]. simpl.
      intros [= <- <- <-]. split; [|done]. apply (rosterStep_insert ships i s); [done|].
      unfold rosterStep. simpl. repeat split; (done || lia).
    + intros [= <- <- <-]. split; [|done]. apply (rosterStep_insert ships i s); [done|].
      unfold rosterStep. simpl. repeat split; (done || lia).
  - destruct (setCellState board r c miss) as [board1|]; [|done]. simpl.
    intros [= <- <- <-]. by split.
Qed.

Lemma processShot_roster_witness :
  ∃ board board',
    scenarioA 2 = Some board ∧
    processShot board createShips 4 2
    = Some (Hit, board', <[2%nat := mkShip 2 3 1 false (Some false)]> createShips) ∧
    Forall2 rosterStep createShips (<[2%nat := mkShip 2 3 1 false (Some false)]> createShips) ∧
    (Hit = Miss → <[2%nat := mkShip 2 3 1 false (Some false)]> createShips = createShips).
Proof.
  exists (default [] (scenarioA 2)), (default [] (scenarioA 2 ≫= λ b, setCellState b 4 2 hit)).
  split; [reflexivity|]. split; [reflexivity|].
  apply (processShot_roster (default [] (scenarioA 2)) createShips 4 2 Hit
           (default [] (scenarioA 2 ≫= λ b, setCellState b 4 2 hit))).
  reflexivity.
Defined.

(** X9. On a 10x10 board a shot at a cell of the board leaves the board
    10x10 and changes no cell's [shipId]; the shot cell reads the colour
    of the result returned (['hit'], ['miss'] or ['sunk']); and every
    other cell that does not read ['sunk'] afterwards is as it was, so a
    shot never turns a cell back to ['ship'] or ['empty']. *)
Theorem processShot_board (board : Board) (ships : list Ship) (r c : Z) (cell : Cell)
    (res : ShotResult) (board' : Board) (ships' : list Ship) :
  wfBoard board → getCell board r c = Some cell →
  processShot board ships r c = Some (res, board', ships') →
  wfBoard board' ∧
  (∀ r' c', shipId <$> getCell board' r' c' = shipId <$> getCell board r' c') ∧
  getCell board' r c = Some (mkCell (resultState res) (shipId cell)) ∧
  (∀ r' c' cell', getCell board' r' c' = Some cell' → state cell' ≠ sunk →
                  (r', c') ≠ (r, c) → getCell board r' c' = Some cell').
Proof.
  intros Hwf Hcell Hrun.
  destruct (processShot_board_step board ships r c cell Hwf Hcell)
    as (res1 & board1 & ships1 & Hrun1 & Hout).
  rewrite Hrun in Hrun1. by simplify_eq.
Qed.

Lemma processShot_board_witness :
  ∃ board board' ships',
    scenarioA 2 = Some board ∧ wfBoard board ∧
    getCell board 4 2 = Some (mkCell ship (Some 2)) ∧
    processShot board createShips 4 2 = Some (Hit, board', ships') ∧
    wfBoard board' ∧
    (∀ r' c', shipId <$> getCell board' r' c' = shipId <$> getCell board r' c') ∧
    getCell board' 4 2 = Some (mkCell hit (Some 2)) ∧
    (∀ r' c' cell', getCell board' r' c' = Some cell' → state cell' ≠ sunk →
                    (r', c') ≠ (4, 2) → getCell board r' c' = Some cell').
Proof.
  assert (Hwf : wfBoard (default [] (scenarioA 2))).
  { destruct (scenarioA_board 2) as (board & -> & Hwf). exact Hwf. }
  exists (default [] (scenarioA 2)), (default [] (scenarioA 2 ≫= λ b, setCellState b 4 2 hit)),
    (<[2%nat := mkShip 2 3 1 false (Some false)]> createShips).
  split; [reflexivity|]. split; [exact Hwf|]. split; [reflexivity|]. split; [reflexivity|].
  apply (processShot_board (default [] (scenarioA 2)) createShips 4 2 (mkCell ship (Some 2)) Hit
           _ (<[2%nat := mkShip 2 3 1 false (Some false)]> createShips) Hwf);
    reflexivity.
Defined.

(** * Further properties of [placeShipsRandomly] *)

Section RandomFleet.
Implicit Types (board : Board) (cell : Cell).

(** [Math.floor(Math.random() * n)] is one of [0 .. n-1]. *)
Lemma rand_floor_mul_range (x : Rand) (n : Z) : 0 < n → 0 ≤ rand_floor_mul x n < n.
Proof.
  intros Hn. unfold rand_floor_mul, rand_num, rand_den.
  assert (Hlt : (rnum x `mod` S (rden x) < S (rden x))%nat) by (apply Nat.mod_upper_bound; lia).
  set (a := Z.of_nat (rnum x `mod` S (rden x))) in *.
  set (d := Z.of_nat (S (rden x))) in *.
  assert (0 ≤ a < d) by lia. split.
  - apply Z.div_pos; nia.
  - apply Z.div_lt_upper_bound; nia.
Qed.

Lemma grownBy_refl ids board : grownBy ids board board.
Proof. intros r c. by left. Qed.

Lemma grownBy_trans ids board1 board2 board3 :
  grownBy ids board1 board2 → grownBy ids board2 board3 → grownBy ids board1 board3.
Proof.
  intros H12 H23 r c. destruct (H23 r c) as [Heq|(cell & sid & Hcell & Hst & Hin & Hnew)].
  - rewrite Heq. apply H12.
  - destruct (H12 r c) as [Heq|(cell1 & sid1 & _ & _ & _ & Hnew1)].
    + right. exists cell, sid. by rewrite <- Heq.
    + rewrite Hnew1 in Hcell. by simplify_eq.
Qed.

Lemma grownBy_placed ids board board' r c length horizontal sid :
  canPlaceShip board r c length horizontal = Some true →
  boardPlaced board board' r c length horizontal sid → sid ∈ ids →
  grownBy ids board board'.
Proof.
  intros Hcan Hcells Hin r' c'. pose proof (Hcells r' c') as Hnew.
  destruct (decide (covers r c length horizontal r' c')) as [Hcov|Hcov]; [|by left].
  destruct (canPlaceShip_true _ _ _ _ _ Hcan r' c' Hcov) as (cell & Hcell & Hst).
  right. by exists cell, sid.
Qed.

(** The [while] loop for one ship, from any state it can be in. *)
Lemma placeLoop_outcome rng shp fuel :
  ∀ st, wfBoard (p_board st) → p_attempts st + Z.of_nat fuel = 100 → p_placed st = false →
    ∃ st', placeLoop rng shp fuel st = Some st' ∧ wfBoard (p_board st') ∧
      if p_placed st' then
        ∃ r c horizontal, onBoard r c ∧
          canPlaceShip (p_board st) r c (ship_length shp) horizontal = Some true ∧
          boardPlaced (p_board st) (p_board st') r c (ship_length shp) horizontal (ship_id shp)
      else p_board st' = p_board st ∧ p_attempts st' = 100.
Proof.
  induction fuel as [|fuel IH]; intros st Hwf Hleft Hnot; simpl.
  - exists st. split; [done|]. split; [done|]. rewrite Hnot. split; [done|lia].
  - rewrite Hnot. simpl. rewrite bool_decide_eq_true_2 by lia.
    set (horizontal := rand_lt_half (rng (p_draws st))).
    set (r := rand_floor_mul (rng (S (p_draws st))) BOARD_SIZE).
    set (c := rand_floor_mul (rng (S (S (p_draws st)))) BOARD_SIZE).
    assert (Hon : onBoard r c).
    { split; apply rand_floor_mul_range; by unfold BOARD_SIZE. }
    destruct (canPlaceShip_total (p_board st) r c (ship_length shp) horizontal Hwf Hon)
      as ([|] & Hcan); rewrite Hcan; simpl.
    + destruct (placeShip_placed (p_board st) r c (ship_length shp) horizontal (ship_id shp))
        as (board' & -> & Hwf' & Hcells).
      { intros r' c' Hcov.
        destruct (canPlaceShip_true _ _ _ _ _ Hcan r' c' Hcov) as (cell & -> & _). by eexists. }
      simpl. destruct fuel as [|fuel]; simpl.
      * eexists. split; [done|]. simpl. split; [by apply Hwf'|]. by exists r, c, horizontal.
      * eexists. split; [done|]. simpl. split; [by apply Hwf'|]. by exists r, c, horizontal.
    + destruct (IH (mkPlacing (p_board st) (p_placed st) (p_attempts st + 1) (3 + p_draws st)))
        as (st' & Hrun & Hwf' & Hout); simpl; [done|lia|done|].
      exists st'. by split; [|split].
Qed.

Lemma placeOneShip_spec rng shp board draws :
  wfBoard board →
  ∃ st, placeOneShip rng shp board draws = Some st ∧ wfBoard (p_board st) ∧
    if p_placed st then
      ∃ r c horizontal, onBoard r c ∧
        canPlaceShip board r c (ship_length shp) horizontal = Some true ∧
        boardPlaced board (p_board st) r c (ship_length shp) horizontal (ship_id shp)
    else p_board st = board ∧ p_attempts st = 100.
Proof.
  intros Hwf. unfold placeOneShip.
  by apply (placeLoop_outcome rng shp 100 (mkPlacing board false 0 draws)).
Qed.

Lemma placeShipsRandomly_spec rng ships :
  ∀ board draws ids, wfBoard board → ship_id <$> ships ⊆ ids →
    ∃ board' draws', placeShipsRandomly rng board ships draws = Some (board', draws') ∧
                     wfBoard board' ∧ grownBy ids board board'.
Proof.
  induction ships as [|shp ships IH]; intros board draws ids Hwf Hids; simpl.
  - exists board, draws. split; [done|]. split; [done|]. apply grownBy_refl.
  - destruct (placeOneShip_spec rng shp board draws Hwf) as (st & -> & Hwf1 & Hout). simpl.
    destruct (IH (p_board st) (p_draws st) ids Hwf1) as (board' & draws' & -> & Hwf' & Hgrow).
    { intros sid Hin. apply Hids. simpl. by right. }
    exists board', draws'. split; [done|]. split; [done|].
    apply (grownBy_trans ids board (p_board st)); [|done].
    destruct (p_placed st).
    + destruct Hout as (r & c & horizontal & _ & Hcan & Hcells).
      apply (grownBy_placed ids board _ r c (ship_length shp) horizontal (ship_id shp));
        [done|done|]. apply Hids. simpl. left.
    + destruct Hout as [-> _]. apply grownBy_refl.
Qed.

End RandomFleet.

(** X10. On a 10x10 board the loop of [placeShipsRandomly] for one ship
    always ends, whatever the random draws.  Either the ship was placed:
    then [canPlaceShip] accepted an origin on the board and exactly the
    cells of that placement were turned into cells of the ship; or it was
    not: then the board is untouched and all 100 attempts were used. *)
Theorem placeOneShip_outcome (rng : nat → Rand) (shp : Ship) (board : Board) (draws : nat) :
  wfBoard board →
  ∃ st, placeOneShip rng shp board draws = Some st ∧ wfBoard (p_board st) ∧
    if p_placed st then
      ∃ r c horizontal, onBoard r c ∧
        canPlaceShip board r c (ship_length shp) horizontal = Some true ∧
        boardPlaced board (p_board st) r c (ship_length shp) horizontal (ship_id shp)
    else p_board st = board ∧ p_attempts st = 100.
Proof. apply placeOneShip_spec. Qed.

Lemma placeOneShip_outcome_witness :
  wfBoard createEmptyBoard ∧
  ∃ st, placeOneShip (λ n, mkRand n 9) (mkShip 0 5 0 false (Some false)) createEmptyBoard 0
        = Some st ∧ wfBoard (p_board st) ∧
    if p_placed st then
      ∃ r c horizontal, onBoard r c ∧
        canPlaceShip createEmptyBoard r c 5 horizontal = Some true ∧
        boardPlaced createEmptyBoard (p_board st) r c 5 horizontal 0
    else p_board st = createEmptyBoard ∧ p_attempts st = 100.
Proof.
  split; [apply createEmptyBoard_wf|].
  apply (placeOneShip_outcome (λ n, mkRand n 9) (mkShip 0 5 0 false (Some false))
           createEmptyBoard 0), createEmptyBoard_wf.
Defined.

(** X11. On a 10x10 board [placeShipsRandomly] returns for every roster
    and every sequence of random draws, and leaves a 10x10 board on which
    each cell is either as it was or was empty and is now a ['ship'] cell
    carrying the identifier of a ship of the roster: it never overwrites
    a cell that is not empty and never writes outside the board. *)
Theorem placeShipsRandomly_grows (rng : nat → Rand) (board : Board) (ships : list Ship) (draws : nat) :
  wfBoard board →
  ∃ board' draws', placeShipsRandomly rng board ships draws = Some (board', draws') ∧
                   wfBoard board' ∧ grownBy (ship_id <$> ships) board board'.
Proof. intros Hwf. by apply placeShipsRandomly_spec. Qed.

Lemma placeShipsRandomly_grows_witness :
  wfBoard createEmptyBoard ∧
  ∃ board' draws',
    placeShipsRandomly (λ n, mkRand n 9) createEmptyBoard createShips 0 = Some (board', draws') ∧
    wfBoard board' ∧ grownBy (ship_id <$> createShips) createEmptyBoard board'.
Proof.
  split; [apply createEmptyBoard_wf|].
  apply (placeShipsRandomly_grows (λ n, mkRand n 9) createEmptyBoard createShips 0),
    createEmptyBoard_wf.
Defined.

(** * Further properties of the engine *)

Section Books.
Implicit Types (s : BattleshipAI) (coord : Coord).

(** A report of a hit records the hit and, beyond that, touches the
    queue only; this holds as well when the call throws. *)
Lemma reportHit_fields s coord :
  ∃ queue, engine (reportHit s coord)
           = mkAI (shotsFired s) Target queue (Some coord) (hits s ++ [coord]) (firstHit s)
                  (lastProbeDirection s) (remainingShipSizes s) (misses s).
Proof.
  unfold reportHit. cbv zeta.
  set (s1 := set_hits (hits s ++ [coord]) (set_lastHit (Some coord) (set_mode Target s))).
  assert (Hset : ∀ q s', besidesQueue s' = besidesQueue s1 →
    ∃ queue, set_targetQueue q s'
             = mkAI (shotsFired s) Target queue (Some coord) (hits s ++ [coord]) (firstHit s)
                    (lastProbeDirection s) (remainingShipSizes s) (misses s)).
  { intros q s' Hs'. exists q. unfold besidesQueue in Hs'. destruct s'. simpl in *.
    unfold set_targetQueue. simpl. congruence. }
  assert (Hsame : ∃ queue, s1
             = mkAI (shotsFired s) Target queue (Some coord) (hits s ++ [coord]) (firstHit s)
                    (lastProbeDirection s) (remainingShipSizes s) (misses s)).
  { by exists (targetQueue s). }
  case_decide as Hone; [|case_decide as Htwo].
  - simpl. by apply Hset.
  - destruct (hits s1) as [|first ?]; [done|].
    case_decide as Hrow; [|case_decide as Hcol]; simpl; [by apply Hset|by apply Hset|done].
  - destruct (findAllLines s1) as [|line0 lines]; [done|].
    destruct (existsb _ (longestOf line0 lines) && _ && _).
    + destruct (longestOf line0 lines) as [|h0 ?]; simpl; by apply Hset.
    + destruct (bool_decide _ && bool_decide (len _ > 0)); simpl; by apply Hset.
Qed.

Lemma reportMiss_fields s coord :
  ∃ queue, reportMiss s coord
           = mkAI (shotsFired s) (mode s) queue (lastHit s) (hits s) (firstHit s)
                  (lastProbeDirection s) (remainingShipSizes s) ({[keyOf coord]} ∪ misses s).
Proof.
  unfold reportMiss. cbv zeta. set (s1 := set_misses _ s).
  assert (Hsame : ∃ queue, s1
           = mkAI (shotsFired s) (mode s) queue (lastHit s) (hits s) (firstHit s)
                  (lastProbeDirection s) (remainingShipSizes s) ({[keyOf coord]} ∪ misses s)).
  { by exists (targetQueue s). }
  destruct (_ && _); [|done]. case_decide; [|done]. destruct (existsb _ _); [done|].
  rewrite rebuildTargetQueue_eq. by eexists.
Qed.

Lemma removeFirst_sublist x l : sublist (removeFirst x l) l.
Proof.
  induction l as [|y l IH]; simpl; [done|].
  case_decide; [by apply sublist_cons|by apply sublist_skip].
Qed.

Lemma reportSunk_fields s coord sunkCoords :
  let s' := reportSunk s coord sunkCoords in
  shotsFired s' = shotsFired s ∧ misses s' = misses s ∧
  sublist (hits s') (hits s) ∧
  sublist (remainingShipSizes s') (remainingShipSizes s) ∧
  (mode s' = Target ↔ hits s' ≠ []) ∧
  (firstHit s = None → firstHit s' = None) ∧
  (lastProbeDirection s = None → lastProbeDirection s' = None).
Proof.
  unfold reportSunk. cbv zeta.
  set (hitsToRemove := match match sunkCoords with Some (c :: cs) => _ | _ => _ end with
                       | Some sunkCells => _ | None => _ end).
  set (s2 := set_hits _ (set_remainingShipSizes _ s)).
  assert (Hhits : sublist (hits s2) (hits s)) by apply sublist_List_filter.
  assert (Hfleet : sublist (remainingShipSizes s2) (remainingShipSizes s))
    by apply removeFirst_sublist.
  case_decide as Hleft.
  - set (s3 := set_targetQueue [] (set_mode Target s2)).
    pose proof (rebuildTargetQueue_frame s3) as Hf. unfold besidesQueue in Hf.
    injection Hf as Hfired Hmode Hlast Hh Hfirst Hprobe Hsizes Hmiss.
    rewrite Hfired, Hmode, Hh, Hfirst, Hprobe, Hsizes, Hmiss. simpl.
    repeat split; try done. intros _ Hnil. change (hits s2 = []) in Hnil.
    rewrite Hnil in Hleft. by simpl in Hleft.
  - simpl. repeat split; try done. intros Hne. destruct Hleft. by apply len_pos.
Qed.

Lemma getNextShot_fields s rng :
  let s' := (getNextShot s rng).2 in
  shotsFired s' = shotsFired s ∧ misses s' = misses s ∧
  sublist (hits s') (hits s) ∧
  remainingShipSizes s' = remainingShipSizes s ∧
  (mode s' = Target ↔ hits s' ≠ []) ∧
  firstHit s' = firstHit s ∧ lastProbeDirection s' = lastProbeDirection s.
Proof.
  unfold getNextShot. cbv zeta.
  destruct (decide (len (hits s) > 0)) as [Hh|Hh].
  - set (s2 := if decide (len (targetQueue (set_mode Target s)) = 0)
               then rebuildTargetQueue (set_mode Target s) else set_mode Target s).
    assert (Hf : besidesQueue s2 = besidesQueue (set_mode Target s)).
    { subst s2. case_decide; [apply rebuildTargetQueue_frame|done]. }
    clearbody s2. unfold besidesQueue in Hf. simpl in Hf.
    injection Hf as Hfired Hmode Hlast Hhits Hfirst Hprobe Hfleet Hmiss.
    assert (Hne : hits s ≠ []) by (by apply len_pos).
    destruct (targetQueue s2) as [|shot rest]; [|simpl; rewrite Hhits; by repeat split].
    set (validHits := List.filter _ (hits s2)).
    assert (Hsub : sublist validHits (hits s)).
    { rewrite <- Hhits. apply sublist_List_filter. }
    destruct (decide (len validHits < len (hits s2))) as [Hless|Hless]; cbn [fst snd].
    + case_decide as Hnone; simpl in *.
      * apply len_nil_inv in Hnone. rewrite Hnone.
        repeat split; try done. apply sublist_nil_l.
      * repeat split; try done. intros _ Hnil. by rewrite Hnil in Hnone.
    + rewrite Hhits. case_decide as Hnone; simpl in *.
      * apply len_nil_inv in Hnone. by rewrite Hnone in Hne.
      * rewrite Hhits. by repeat split.
  - simpl. repeat split; try done. intros Hne. destruct Hh. by apply len_pos.
Qed.

Lemma call_bookkept s c : bookkept s → bookkept (call s c).
Proof.
  intros (Hhits & Hmiss & Hfleet & Hfirst & Hprobe). destruct c as [rng|coord result sunkCoords].
  - destruct (getNextShot_fields s rng) as (Hf & Hm & Hh & Hr & _ & H1 & H2). simpl.
    unfold bookkept. rewrite Hf, Hm, Hr, H1, H2. repeat split; try done.
    intros h Hin. apply Hhits. by eapply elem_of_sublist.
  - simpl. unfold reportResult. cbv zeta.
    set (s1 := set_shotsFired ({[coordToKey (row coord) (col coord)]} ∪ shotsFired s) s).
    assert (Hb1 : ∀ h, h ∈ hits s1 → keyOf h ∈ shotsFired s1).
    { intros h Hin. apply elem_of_union_r. by apply Hhits. }
    assert (Hm1 : misses s1 ⊆ shotsFired s1).
    { intros k Hk. apply elem_of_union_r. by apply Hmiss. }
    assert (Hcoord : keyOf coord ∈ shotsFired s1).
    { apply elem_of_union_l. by apply elem_of_singleton. }
    destruct result.
    + destruct (reportHit_fields s1 coord) as [queue ->]. unfold bookkept. simpl.
      repeat split; try done.
      intros h Hin. apply elem_of_app in Hin as [Hin|Hin]; [by apply Hb1|].
      apply list_elem_of_singleton in Hin as ->. exact Hcoord.
    + simpl. destruct (reportMiss_fields s1 coord) as [queue ->]. unfold bookkept. simpl.
      repeat split; try done.
      intros k Hk. apply elem_of_union in Hk as [Hk|Hk]; [|by apply Hm1].
      apply elem_of_singleton in Hk as ->. exact Hcoord.
    + simpl. destruct (reportSunk_fields s1 coord sunkCoords) as (Hf & Hm & Hh & Hr & _ & H1 & H2).
      unfold bookkept. rewrite Hf, Hm. repeat split.
      * intros h Hin. apply Hb1. by eapply elem_of_sublist.
      * done.
      * by etrans.
      * by apply H1.
      * by apply H2.
Qed.

Lemma call_mode s c :
  (mode s = Target ↔ hits s ≠ []) → (mode (call s c) = Target ↔ hits (call s c) ≠ []).
Proof.
  intros Hmode. destruct c as [rng|coord result sunkCoords].
  - by destruct (getNextShot_fields s rng) as (_ & _ & _ & _ & Hm & _).
  - simpl. unfold reportResult. cbv zeta.
    set (s1 := set_shotsFired ({[coordToKey (row coord) (col coord)]} ∪ shotsFired s) s).
    destruct result.
    + destruct (reportHit_fields s1 coord) as [queue ->]. simpl.
      split; [|done]. intros _. by destruct (hits s).
    + simpl. by destruct (reportMiss_fields s1 coord) as [queue ->].
    + simpl. by destruct (reportSunk_fields s1 coord sunkCoords) as (_ & _ & _ & _ & Hm & _).
Qed.

Lemma after_snoc s calls c : after s (calls ++ [c]) = call (after s calls) c.
Proof. unfold after. by rewrite foldl_app. Qed.

End Books.

(** X12. The mode follows the open hits.  After any sequence of calls
    of [getNextShot] and [reportResult], in any order and with any
    arguments, on a new engine or after [reset()], the mode is ['target']
    exactly when at least one hit is open, and ['hunt'] otherwise. *)
Theorem mode_tracks_hits (s0 : BattleshipAI) (calls : list Call) :
  (mode (after newBattleshipAI calls) = Target ↔ hits (after newBattleshipAI calls) ≠ []) ∧
  (mode (after (reset s0) calls) = Target ↔ hits (after (reset s0) calls) ≠ []).
Proof.
  assert (Hgen : ∀ s, (mode s = Target ↔ hits s ≠ []) →
            mode (after s calls) = Target ↔ hits (after s calls) ≠ []).
  { intros s Hs. induction calls as [|c calls IH] using rev_ind; [done|].
    rewrite after_snoc. by apply call_mode. }
  split; by apply Hgen.
Qed.

(** X13. The books of the engine agree after any sequence of calls, in
    any order and with any arguments, on a new engine or after
    [reset()]: every open hit and every recorded miss is among the
    coordinates fired at, the remaining fleet is a sublist of
    [5,4,3,3,2] (lengths are only ever removed), and [firstHit] and
    [lastProbeDirection] are [null], as no method writes them. *)
Theorem engine_books (s0 : BattleshipAI) (calls : list Call) :
  bookkept (after newBattleshipAI calls) ∧ bookkept (after (reset s0) calls).
Proof.
  assert (Hgen : ∀ s, bookkept s → bookkept (after s calls)).
  { intros s Hs. induction calls as [|c calls IH] using rev_ind; [done|].
    rewrite after_snoc. by apply call_bookkept. }
  assert (Hfresh : ∀ s, hits s = [] → misses s = ∅ → remainingShipSizes s = [5; 4; 3; 3; 2] →
            firstHit s = None → lastProbeDirection s = None → bookkept s).
  { intros s Hh Hm Hr H1 H2. unfold bookkept. rewrite Hh, Hm, Hr.
    repeat split; try done. intros h Hin. by apply elem_of_nil in Hin. }
  split; apply Hgen; by apply Hfresh.
Qed.

Section OnTheBoard.
Implicit Types (s : BattleshipAI) (q line : list Coord) (acc : list (Coord * Z)) (coord : Coord).

Lemma validQueue_perm q q' : q ≡ₚ q' → validQueue q → validQueue q'.
Proof. intros Hp Hq. unfold validQueue. by rewrite <- Hp. Qed.

Lemma isOpen_valid s r k : isOpen s r k = true → isValid r k = true.
Proof. by intros [? _]%isOpen_spec. Qed.

Lemma pushIfOpen_valid s r k q : validQueue q → validQueue (pushIfOpen s r k q).
Proof.
  intros Hq. unfold pushIfOpen. destruct (isOpen s r k) eqn:Hopen; [|done].
  apply Forall_app. split; [done|]. constructor; [|constructor]. by eapply isOpen_valid.
Qed.

Lemma lineExtensions_valid s ty line h0 q :
  validQueue q → validQueue (lineExtensions s ty line h0 q).
Proof. intros Hq. unfold lineExtensions. destruct ty; by do 2 apply pushIfOpen_valid. Qed.

Lemma unshiftIfNew_valid s r k q : validQueue q → validQueue (unshiftIfNew s r k q).
Proof.
  intros Hq. unfold unshiftIfNew. destruct (isOpen s r k) eqn:Hopen; [|done].
  destruct (existsb _ q); [done|]. constructor; [|done]. by eapply isOpen_valid.
Qed.

Lemma foldl_unshiftExtensions_valid s lines :
  ∀ q, validQueue q → validQueue (foldl (unshiftExtensions s) q lines).
Proof.
  induction lines as [|line lines IH]; intros q Hq; simpl; [done|].
  apply IH. unfold unshiftExtensions. destruct line as [|h0 rest]; [done|].
  destruct (isHorizontalLine _); by do 2 apply unshiftIfNew_valid.
Qed.

Lemma scoredPush_valid s h d acc : validQueue acc.*1 → validQueue (scoredPush s h d acc).*1.
Proof. intros Hacc. rewrite scoredPush_fst. by apply pushIfOpen_valid. Qed.

Lemma perpendicularTargets_valid s ty line : validQueue (perpendicularTargets s ty line).*1.
Proof.
  unfold perpendicularTargets.
  assert (Hgen : ∀ acc, validQueue acc.*1 →
    validQueue (foldl (λ acc h,
         match ty with
         | Horizontal => scoredPush s h Down (scoredPush s h Up acc)
         | Vertical => scoredPush s h Right (scoredPush s h Left acc)
         end) acc line).*1).
  { induction line as [|h rest IH]; intros acc Hacc; simpl; [done|].
    apply IH. destruct ty; by do 2 apply scoredPush_valid. }
  apply Hgen. constructor.
Qed.

Lemma neighborPush_valid s h acc d : validQueue acc.*1 → validQueue (neighborPush s h acc d).*1.
Proof.
  intros Hacc. unfold neighborPush. destruct (isOpen s _ _) eqn:Hopen; [|done].
  destruct (existsb _ acc); [done|]. rewrite fmap_app. apply Forall_app. split; [done|].
  constructor; [|constructor]. by eapply isOpen_valid.
Qed.

Lemma allNeighbors_valid s : validQueue (allNeighbors s).*1.
Proof.
  unfold allNeighbors.
  assert (Hgen : ∀ hs acc, validQueue acc.*1 →
    validQueue (foldl (λ acc h, foldl (neighborPush s h) acc [Up; Down; Left; Right]) acc hs).*1).
  { induction hs as [|h hs IH]; intros acc Hacc; [done|].
    apply IH. simpl. by do 4 apply neighborPush_valid. }
  apply Hgen. constructor.
Qed.

Lemma rebuildTargetQueue_valid s :
  validQueue (targetQueue s) → validQueue (targetQueue (rebuildTargetQueue s)).
Proof.
  intros Hq. unfold rebuildTargetQueue.
  set (longest := foldl (longerLine Vertical)
                    (foldl (longerLine Horizontal) (None, 0) (groupBy row (hits s)))
                    (groupBy col (hits s))).
  assert (Hfinal : ∀ s1, validQueue (targetQueue s1) →
            validQueue
              (targetQueue (if decide (len (targetQueue s1) = 0)
                            then set_targetQueue
                                   (targetQueue s1 ++ (sortBy byScoreDesc (allNeighbors s1)).*1) s1
                            else s1))).
  { intros s1 Hs1. case_decide as Hlen; [|done]. simpl.
    apply Forall_app. split; [done|].
    apply (validQueue_perm (allNeighbors s1).*1); [by rewrite sortBy_perm|].
    apply allNeighbors_valid. }
  destruct longest.1 as [[ty [|h0 rest]]|]; [by apply Hfinal| |by apply Hfinal].
  apply Hfinal.
  assert (Hext : validQueue (lineExtensions s ty (h0 :: rest) h0 (targetQueue s)))
    by (by apply lineExtensions_valid).
  case_decide as Hlen; [|done]. simpl in *.
  apply Forall_app. split; [done|].
  eapply validQueue_perm; [by rewrite sortBy_perm|]. apply perpendicularTargets_valid.
Qed.

Lemma firstHitQueue_valid s coord : validQueue (firstHitQueue s coord).
Proof. by destruct (firstHitQueue_open s coord) as [_ Hq]; eapply Forall_impl; [done|intros ? [? _]]. Qed.

Lemma reportHit_valid s coord :
  validQueue (targetQueue s) → validQueue (targetQueue (engine (reportHit s coord))).
Proof.
  intros Hq. unfold reportHit. cbv zeta.
  set (s1 := set_hits (hits s ++ [coord]) (set_lastHit (Some coord) (set_mode Target s))).
  assert (Hq1 : validQueue (targetQueue s1)) by done.
  assert (Hnil : validQueue []) by constructor.
  case_decide as Hone; [|case_decide as Htwo].
  - simpl. apply firstHitQueue_valid.
  - destruct (hits s1) as [|first ?]; [done|].
    case_decide as Hrow; [|case_decide as Hcol]; simpl; [| |done];
      by do 2 apply pushIfOpen_valid.
  - destruct (findAllLines s1) as [|line0 lines]; [done|].
    assert (Hpart : validQueue
              (List.filter (λ tgt, existsb (λ line, wouldExtendLine tgt line)
                                     (List.filter (λ line, existsb (λ h, sameCoord h coord) line)
                                                  (line0 :: lines))) (targetQueue s1)
               ++ List.filter (λ tgt, negb (existsb (λ line, wouldExtendLine tgt line)
                                     (List.filter (λ line, existsb (λ h, sameCoord h coord) line)
                                                  (line0 :: lines)))) (targetQueue s1))).
    { eapply validQueue_perm; [|exact Hq1]. symmetry. apply filter_partition_perm. }
    destruct (existsb _ (longestOf line0 lines) && _ && _).
    + destruct (longestOf line0 lines) as [|h0 ?]; simpl; [done|].
      by apply lineExtensions_valid.
    + destruct (bool_decide _ && bool_decide (len _ > 0)); simpl; [|done].
      by apply foldl_unshiftExtensions_valid.
Qed.

Lemma reportMiss_valid s coord :
  validQueue (targetQueue s) → validQueue (targetQueue (reportMiss s coord)).
Proof.
  intros Hq. unfold reportMiss. cbv zeta. set (s1 := set_misses _ s).
  destruct (_ && _); [|done]. case_decide; [|done]. destruct (existsb _ _); [done|].
  apply rebuildTargetQueue_valid. constructor.
Qed.

Lemma reportSunk_valid s coord sunkCoords : validQueue (targetQueue (reportSunk s coord sunkCoords)).
Proof.
  unfold reportSunk. cbv zeta.
  set (hitsToRemove := match match sunkCoords with Some (c :: cs) => _ | _ => _ end with
                       | Some sunkCells => _ | None => _ end).
  set (s2 := set_hits _ (set_remainingShipSizes _ s)).
  case_decide; [|constructor]. apply rebuildTargetQueue_valid. constructor.
Qed.

Lemma call_valid s c :
  validQueue (targetQueue s) → validQueue (targetQueue (call s c)) ∧
  match c with
  | Ask rng => isValid (row (getNextShot s rng).1) (col (getNextShot s rng).1) = true
  | Report _ _ _ => True
  end.
Proof.
  intros Hq. destruct c as [rng|coord result sunkCoords]; simpl.
  - unfold getNextShot. cbv zeta.
    pose proof (λ s', proj1 (getSmartHuntShot_open s' rng)) as Hhunt.
    destruct (decide (len (hits s) > 0)) as [Hh|Hh];
      [|cbn [fst snd]; split; [done|apply Hhunt]].
    set (s2 := if decide (len (targetQueue (set_mode Target s)) = 0)
               then rebuildTargetQueue (set_mode Target s) else set_mode Target s).
    assert (Hq2 : validQueue (targetQueue s2)).
    { subst s2. case_decide; [by apply rebuildTargetQueue_valid|done]. }
    clearbody s2. destruct (targetQueue s2) as [|shot rest] eqn:Hqueue.
    + repeat case_decide; cbn [fst snd]; (split; [|apply Hhunt]); simpl;
        rewrite ?Hqueue; constructor.
    + apply Forall_cons in Hq2 as [? ?]. by split.
  - split; [|done]. unfold reportResult. cbv zeta. destruct result; simpl.
    + by apply reportHit_valid.
    + by apply reportMiss_valid.
    + apply reportSunk_valid.
Qed.

Lemma run_valid calls :
  ∀ s, validQueue (targetQueue s) → validQueue (run s calls).
Proof.
  induction calls as [|c calls IH]; intros s Hq; simpl; [constructor|].
  destruct (call_valid s c Hq) as [Hq' Hshot]. destruct c as [rng|coord result sunkCoords].
  - constructor; [done|]. by apply IH.
  - by apply IH.
Qed.

End OnTheBoard.

(** X14. The engine never aims off the board.  Whatever calls are made
    on a new engine or after [reset()], in any order and with any
    arguments -- reports of coordinates it never returned, of
    coordinates off the board, repeated reports, no report at all --
    every coordinate that [getNextShot] returns has its row and its
    column in 0..9. *)
Theorem shots_on_board (s0 : BattleshipAI) (calls : list Call) :
  Forall (λ c, onBoard (row c) (col c)) (run newBattleshipAI calls) ∧
  Forall (λ c, onBoard (row c) (col c)) (run (reset s0) calls).
Proof.
  split; (eapply Forall_impl; [apply run_valid; constructor|]);
    intros c Hc; by apply isValid_onBoard.
Qed.

Section Lines.
Implicit Types (s : BattleshipAI) (q line : list Coord) (coord : Coord).

Lemma sorted_bounds (l : list Z) (z : Z) :
  StronglySorted Z.le l → z ∈ l → hd 0 l ≤ z ≤ List.last l 0.
Proof.
  intros Hs Hz. assert (Hne : l ≠ []) by (intros ->; by apply elem_of_nil in Hz).
  pose proof (sorted_hd_le_last l Hs Hne) as Hends.
  induction Hs as [|x l Hs IH Hx]; [done|]. simpl hd in *.
  apply elem_of_cons in Hz as [->|Hz]; [lia|].
  assert (Hne' : l ≠ []) by (intros ->; by apply elem_of_nil in Hz).
  rewrite Forall_forall in Hx. split; [by apply Hx|].
  replace (List.last (x :: l) 0) with (List.last l 0) by (by destruct l).
  apply IH; [done|done|]. by apply sorted_hd_le_last.
Qed.

(** The key of a member of a line lies between the ends of the line. *)
Lemma member_between (key : Coord → Z) line h :
  h ∈ line → minKey key line ≤ key h ≤ maxKey key line.
Proof.
  intros Hin. unfold minKey, maxKey, sortedKeys. apply sorted_bounds; [apply sortBy_sorted|].
  rewrite sortBy_perm. by apply (list_elem_of_fmap_2 key).
Qed.

Lemma existsb_sameCoord line coord :
  existsb (λ h, sameCoord h coord) line = true → coord ∈ line.
Proof.
  intros (h & Hin & Hsame)%existsb_exists. apply list_elem_of_In in Hin.
  unfold sameCoord in Hsame. apply andb_true_iff in Hsame as [Hr Hc].
  apply bool_decide_eq_true in Hr, Hc. destruct h, coord. simpl in *. by subst.
Qed.

Lemma isHitExtendingLine_inside coord line :
  len line >= 2 → coord ∈ line → isHitExtendingLine coord line = false.
Proof.
  intros Hlen Hin. unfold isHitExtendingLine. rewrite decide_False by lia.
  destruct line as [|h0 rest] eqn:Hline; [by apply elem_of_nil in Hin|]. rewrite <- Hline in *.
  pose proof (member_between col line coord Hin) as Hcol.
  pose proof (member_between row line coord Hin) as Hrow.
  destruct (isHorizontalLine line); case_decide; try done.
  - apply orb_false_iff. split; apply bool_decide_eq_false; lia.
  - apply orb_false_iff. split; apply bool_decide_eq_false; lia.
Qed.

Lemma unshiftIfNew_front s r k q : ∃ front, unshiftIfNew s r k q = front ++ q.
Proof.
  unfold unshiftIfNew. destruct (isOpen s r k); [|by exists []].
  destruct (existsb _ q); [by exists []|by exists [mkCoord r k]].
Qed.

Lemma foldl_unshiftExtensions_front s lines :
  ∀ q, ∃ front, foldl (unshiftExtensions s) q lines = front ++ q.
Proof.
  induction lines as [|line lines IH]; intros q; simpl; [by exists []|].
  assert (Hone : ∃ front, unshiftExtensions s q line = front ++ q).
  { unfold unshiftExtensions. destruct line as [|h0 rest]; [by exists []|].
    destruct (isHorizontalLine _).
    - destruct (unshiftIfNew_front s (row h0) (maxKey col (h0 :: rest) + 1) q) as [f1 ->].
      destruct (unshiftIfNew_front s (row h0) (minKey col (h0 :: rest) - 1) (f1 ++ q)) as [f2 ->].
      exists (f2 ++ f1). by rewrite app_assoc.
    - destruct (unshiftIfNew_front s (maxKey row (h0 :: rest) + 1) (col h0) q) as [f1 ->].
      destruct (unshiftIfNew_front s (minKey row (h0 :: rest) - 1) (col h0) (f1 ++ q)) as [f2 ->].
      exists (f2 ++ f1). by rewrite app_assoc. }
  destruct Hone as [f1 ->]. destruct (IH (f1 ++ q)) as [f2 ->].
  exists (f2 ++ f1). by rewrite app_assoc.
Qed.

Lemma reportHit_later s coord :
  len (hits s) >= 2 →
  ∃ front, targetQueue (engine (reportHit s coord)) ≡ₚ front ++ targetQueue s.
Proof.
  intros Hlen. unfold reportHit. cbv zeta.
  set (s1 := set_hits (hits s ++ [coord]) (set_lastHit (Some coord) (set_mode Target s))).
  assert (Hlen1 : len (hits s1) = len (hits s) + 1).
  { subst s1. unfold len. simpl. rewrite length_app. simpl. lia. }
  rewrite !decide_False by lia.
  destruct (findAllLines s1) as [|line0 lines]; [by exists []|].
  set (bestLine := longestOf line0 lines).
  destruct (existsb (λ h, sameCoord h coord) bestLine
            && isHitExtendingLine coord bestLine && bool_decide (len bestLine >= 2)) eqn:Hext.
  { apply andb_true_iff in Hext as [Hext Hlong]. apply andb_true_iff in Hext as [Hpart Hends].
    apply bool_decide_eq_true in Hlong. apply existsb_sameCoord in Hpart.
    by rewrite (isHitExtendingLine_inside coord bestLine Hlong Hpart) in Hends. }
  set (newLines := List.filter _ (line0 :: lines)).
  set (extends := λ tgt, existsb (λ line, wouldExtendLine tgt line) newLines).
  assert (Hpart : List.filter extends (targetQueue s1)
                  ++ List.filter (λ tgt, negb (extends tgt)) (targetQueue s1)
                  ≡ₚ targetQueue s) by apply filter_partition_perm.
  destruct (bool_decide _ && bool_decide (len newLines > 0)); cbn [engine].
  - match goal with
    | |- context [foldl (unshiftExtensions ?s') ?q ?ls] =>
        destruct (foldl_unshiftExtensions_front s' ls q) as [front Hfront];
        exists front;
        change (foldl (unshiftExtensions s') q ls ≡ₚ front ++ targetQueue s);
        rewrite Hfront
    end.
    apply Permutation_app_head. exact Hpart.
  - by exists [].
Qed.

End Lines.

(** X15. A hit that is part of a line never counts as extending it: for
    a line of two or more coordinates and a coordinate that is one of
    them, [isHitExtendingLine] is false, since the coordinate cannot lie
    one step beyond either end. *)
Theorem isHitExtendingLine_member (coord : Coord) (line : list Coord) :
  len line >= 2 → existsb (λ h, sameCoord h coord) line = true →
  isHitExtendingLine coord line = false.
Proof. intros Hlen Hin. apply isHitExtendingLine_inside; [done|]. by apply existsb_sameCoord. Qed.

Lemma isHitExtendingLine_member_witness :
  len [c33; c34] >= 2 ∧ existsb (λ h, sameCoord h c34) [c33; c34] = true ∧
  isHitExtendingLine c34 [c33; c34] = false.
Proof.
  split; [by vm_compute|]. split; [reflexivity|].
  apply (isHitExtendingLine_member c34 [c33; c34]); [by vm_compute|reflexivity].
Defined.

(** X16. From the third open hit on, a report of a hit never drops a
    queued target.  With two or more hits open before the call, the
    queue after [reportResult(coord, 'hit')] holds every coordinate it
    held before, as often as before, possibly behind new coordinates put
    in front; this holds too when the call throws.  The branch that
    would replace the queue by the two ends of the best line cannot be
    reached. *)
Theorem reportHit_keeps_targets (s : BattleshipAI) (coord : Coord) (sunkCoords : option (list Coord)) :
  len (hits s) >= 2 →
  ∃ front, targetQueue (engine (reportResult s coord Hit sunkCoords)) ≡ₚ front ++ targetQueue s.
Proof.
  intros Hlen. unfold reportResult. cbv zeta.
  by apply (reportHit_later
              (set_shotsFired ({[coordToKey (row coord) (col coord)]} ∪ shotsFired s) s)).
Qed.

Lemma reportHit_keeps_targets_witness :
  len (hits afterTwoHits) >= 2 ∧
  ∃ front, targetQueue (engine (reportResult afterTwoHits c35 Hit None))
           ≡ₚ front ++ targetQueue afterTwoHits.
Proof.
  split; [by vm_compute|].
  apply (reportHit_keeps_targets afterTwoHits c35 None). by vm_compute.
Defined.

Section Stranded.
Implicit Types (s : BattleshipAI) (acc : list (Coord * Z)).

Lemma neighborPush_nil s h acc d :
  neighborPush s h acc d = [] →
  acc = [] ∧ isOpen s (stepDirection d (row h) (col h) 1).1 (stepDirection d (row h) (col h) 1).2
             = false.
Proof.
  unfold neighborPush. destruct (isOpen s _ _); [|done].
  destruct acc as [|a acc]; [done|]. simpl. by destruct (_ || _).
Qed.

Lemma allNeighbors_nil s :
  allNeighbors s = [] →
  ∀ h d, h ∈ hits s →
    isOpen s (stepDirection d (row h) (col h) 1).1 (stepDirection d (row h) (col h) 1).2 = false.
Proof.
  unfold allNeighbors.
  assert (Hgen : ∀ hs acc,
    foldl (λ acc h, foldl (neighborPush s h) acc [Up; Down; Left; Right]) acc hs = [] →
    acc = [] ∧ ∀ h d, h ∈ hs →
      isOpen s (stepDirection d (row h) (col h) 1).1 (stepDirection d (row h) (col h) 1).2 = false).
  { induction hs as [|h hs IH]; intros acc Hnil; simpl in Hnil.
    - split; [done|]. intros h d Hin. by apply elem_of_nil in Hin.
    - apply IH in Hnil as [Hacc Hrest].
      apply neighborPush_nil in Hacc as [Hacc HR]. apply neighborPush_nil in Hacc as [Hacc HL].
      apply neighborPush_nil in Hacc as [Hacc HD]. apply neighborPush_nil in Hacc as [Hacc HU].
      split; [done|]. intros h' d [->|Hin]%elem_of_cons; [by destruct d|by apply Hrest]. }
  intros Hnil. by apply Hgen in Hnil as [_ Hall].
Qed.

Lemma getOrthogonalNeighbors_nil s s' r k :
  shotsFired s' = shotsFired s →
  (∀ d, isOpen s (stepDirection d r k 1).1 (stepDirection d r k 1).2 = false) →
  getOrthogonalNeighbors s' r k = [].
Proof.
  intros Hf Hclosed. unfold getOrthogonalNeighbors.
  assert (Hsame : ∀ r' k', isOpen s' r' k' = isOpen s r' k').
  { intros r' k'. unfold isOpen, hasShot. by rewrite Hf. }
  pose proof (Hclosed Up) as HU. pose proof (Hclosed Down) as HD.
  pose proof (Hclosed Left) as HL. pose proof (Hclosed Right) as HR. simpl in *.
  rewrite !Hsame.
  replace (r + -1) with (r - 1) by lia. replace (k + -1) with (k - 1) by lia.
  replace (r + 0) with r by lia. replace (k + 0) with k by lia.
  by rewrite HU, HD, HL, HR.
Qed.

Lemma List_filter_none {A} (f : A → bool) (l : list A) :
  (∀ x, x ∈ l → f x = false) → List.filter f l = [].
Proof.
  induction l as [|x l IH]; intros Hall; simpl; [done|].
  rewrite (Hall x) by left. apply IH. intros y Hy. apply Hall. by right.
Qed.

(** When rebuilding leaves the queue empty, no open hit has a neighbour
    left to fire at. *)
Lemma rebuildTargetQueue_nil s :
  targetQueue (rebuildTargetQueue s) = [] →
  ∀ h, h ∈ hits s → getOrthogonalNeighbors (rebuildTargetQueue s) (row h) (col h) = [].
Proof.
  intros Hnil h Hin.
  apply (getOrthogonalNeighbors_nil s); [apply rebuildTargetQueue_shotsFired|].
  intros d. revert Hnil. unfold rebuildTargetQueue.
  set (longest := foldl (longerLine Vertical)
                    (foldl (longerLine Horizontal) (None, 0) (groupBy row (hits s)))
                    (groupBy col (hits s))).
  assert (Hfinal : ∀ s1, shotsFired s1 = shotsFired s → hits s1 = hits s →
            targetQueue (if decide (len (targetQueue s1) = 0)
                         then set_targetQueue
                                (targetQueue s1 ++ (sortBy byScoreDesc (allNeighbors s1)).*1) s1
                         else s1) = [] →
            isOpen s (stepDirection d (row h) (col h) 1).1 (stepDirection d (row h) (col h) 1).2
            = false).
  { intros s1 Hf Hh. case_decide as Hlen; [|intros Hq; rewrite Hq in Hlen; by destruct Hlen].
    simpl. intros [_ Hsorted]%app_eq_nil.
    assert (Hnone : allNeighbors s1 = []).
    { apply fmap_nil_inv in Hsorted. apply Permutation_nil_r. by rewrite <- Hsorted, sortBy_perm. }
    rewrite <- Hh in Hin. pose proof (allNeighbors_nil s1 Hnone h d Hin) as Hclosed.
    unfold isOpen, hasShot in *. by rewrite <- Hf. }
  destruct longest.1 as [[ty [|h0 rest]]|]; [by apply Hfinal| |by apply Hfinal].
  apply Hfinal; by case_decide.
Qed.

Lemma getNextShot_source s rng :
  let shot := (getNextShot s rng).1 in
  let s' := (getNextShot s rng).2 in
  (hits s' = hits s ∧ hits s ≠ [] ∧
   shot :: targetQueue s'
   = targetQueue (if decide (len (targetQueue s) = 0)
                  then rebuildTargetQueue (set_mode Target s) else s)) ∨
  (hits s' = [] ∧ mode s' = Hunt ∧ shot = getSmartHuntShot s' rng).
Proof.
  unfold getNextShot. cbv zeta.
  destruct (decide (len (hits s) > 0)) as [Hh|Hh]; cbn [fst snd].
  2: { right. simpl. split; [|done]. apply len_nil_inv. pose proof (len_nonneg (hits s)). lia. }
  assert (Hne : hits s ≠ []) by (by apply len_pos).
  change (targetQueue (set_mode Target s)) with (targetQueue s).
  destruct (decide (len (targetQueue s) = 0)) as [Hq|Hq].
  - pose proof (rebuildTargetQueue_hits (set_mode Target s)) as Hhits.
    change (hits (set_mode Target s)) with (hits s) in Hhits.
    destruct (targetQueue (rebuildTargetQueue (set_mode Target s))) as [|shot rest] eqn:Hqueue.
    + right.
      assert (Hvalid : List.filter
                (λ h, bool_decide
                        (len (getOrthogonalNeighbors (rebuildTargetQueue (set_mode Target s))
                                                     (row h) (col h)) > 0))
                (hits (rebuildTargetQueue (set_mode Target s))) = []).
      { apply List_filter_none. intros h Hin. rewrite Hhits in Hin.
        rewrite (rebuildTargetQueue_nil (set_mode Target s) Hqueue h Hin). by vm_compute. }
      rewrite Hvalid. change (len []) with 0. rewrite Hhits.
      destruct (decide (0 < len (hits s))) as [_|Hno]; [|lia].
      by rewrite decide_True.
    + left. cbn [fst snd]. simpl. by rewrite Hhits.
  - change (targetQueue (set_mode Target s)) with (targetQueue s).
    destruct (targetQueue s) as [|shot rest] eqn:Hqueue; [by destruct Hq|].
    left. by cbn [fst snd].
Qed.

End Stranded.

(** X17. While a hit is open, the engine fires from its queue.  A call
    of [getNextShot] ends in one of two ways: the open hits are as
    before (and there are some) and the shot is the head of the target
    queue -- rebuilt first if it was empty -- whose tail is the new
    queue; or no hit is open afterwards, the mode is ['hunt'] and the
    shot is the hunt shot.  So the hunt scorer is never used while an
    open hit remains: when rebuilding yields nothing, every open hit is
    dropped. *)
Theorem getNextShot_queue_or_hunt (s : BattleshipAI) (rng : nat → Rand) :
  let shot := (getNextShot s rng).1 in
  let s' := (getNextShot s rng).2 in
  (hits s' = hits s ∧ hits s ≠ [] ∧
   shot :: targetQueue s'
   = targetQueue (if decide (len (targetQueue s) = 0)
                  then rebuildTargetQueue (set_mode Target s) else s)) ∨
  (hits s' = [] ∧ mode s' = Hunt ∧ shot = getSmartHuntShot s' rng).
Proof. apply getNextShot_source. Qed.

Section WeightedDraw.
Implicit Types (s : BattleshipAI) (cells pre post : list (Coord * Z)).

Lemma rand_range (u : Rand) : 0 ≤ rand_num u < rand_den u.
Proof.
  unfold rand_num, rand_den.
  assert ((rnum u `mod` S (rden u) < S (rden u))%nat) by (apply Nat.mod_upper_bound; lia).
  lia.
Qed.

Lemma foldl_scores cells : ∀ a, foldl (λ sum cell, sum + cell.2) a cells = a + scoreSum cells.
Proof.
  unfold scoreSum. induction cells as [|x cells IH]; intros a; simpl; [lia|].
  rewrite (IH (a + x.2)), (IH (0 + x.2)). lia.
Qed.

Lemma scoreSum_cons x cells : scoreSum (x :: cells) = x.2 + scoreSum cells.
Proof. unfold scoreSum. simpl. by rewrite foldl_scores. Qed.

Lemma scoreSum_nonneg cells : Forall (λ x, x.2 > 0) cells → 0 ≤ scoreSum cells.
Proof.
  induction 1 as [|x cells Hx _ IH]; [done|]. rewrite scoreSum_cons. lia.
Qed.

Lemma scoredCells_positive s l : Forall (λ x, x.2 > 0) (scoredCells s l).
Proof.
  apply Forall_forall. intros [c sc] Hin. unfold scoredCells in Hin.
  apply list_elem_of_omap in Hin as (c' & _ & Heq).
  destruct (hasShot s (row c') (col c')); [done|]. case_decide; [|done]. by simplify_eq/=.
Qed.

Lemma huntTier_positive s : Forall (λ x, x.2 > 0) (huntTier s).
Proof. unfold huntTier. cbv zeta. case_decide; apply scoredCells_positive. Qed.

(** The loop ends inside the list when the number drawn does not exceed
    the sum of the scores. *)
Lemma weightedPick_total den cells :
  0 < den → cells ≠ [] → Forall (λ x, x.2 > 0) cells →
  ∀ random, random ≤ scoreSum cells * den → is_Some (weightedPick den random cells).
Proof.
  intros Hden Hne Hpos. induction Hpos as [|x cells Hx Hpos IH]; [done|].
  intros random Hle. simpl. case_decide as Hstop; [by eexists|].
  rewrite scoreSum_cons in Hle. destruct cells as [|y cells].
  - unfold scoreSum in Hle. simpl in Hle. lia.
  - apply IH; [done|]. lia.
Qed.


Lemma getSmartHuntShot_pick s rng :
  huntTier s ≠ [] →
  weightedPick (rand_den (rng 0%nat)) (rand_num (rng 0%nat) * scoreSum (huntTier s)) (huntTier s)
  = Some (getSmartHuntShot s rng).
Proof.
  intros Hne. pose proof (rand_range (rng 0%nat)) as Hu.
  pose proof (huntTier_positive s) as Hpos.
  destruct (weightedPick_total (rand_den (rng 0%nat)) (huntTier s)) with
    (random := rand_num (rng 0%nat) * scoreSum (huntTier s)) as [c Hc]; [lia|done|done| |].
  { pose proof (scoreSum_nonneg _ Hpos). nia. }
  rewrite Hc. f_equal. unfold getSmartHuntShot. cbv zeta.
  change (if decide (len (scoredCells s (List.filter onCheckerboard boardCells)) = 0)
          then scoredCells s boardCells
          else scoredCells s (List.filter onCheckerboard boardCells)) with (huntTier s).
  destruct (huntTier s) as [|first rest] eqn:Htier; [done|].
  change (foldl (λ sum cell, sum + cell.2) 0 (first :: rest)) with (scoreSum (first :: rest)).
  by rewrite Hc.
Qed.

End WeightedDraw.

(** X18. A hunt shot uses one random number at most.  The weighted
    loop of [getSmartHuntShot] always stops at a scored cell, so the
    fallback that would draw a second number is never reached: two
    sequences of draws with the same first draw give the same shot. *)
Theorem getSmartHuntShot_one_draw (s : BattleshipAI) (rng rng' : nat → Rand) :
  rng 0%nat = rng' 0%nat → getSmartHuntShot s rng = getSmartHuntShot s rng'.
Proof.
  intros Hsame. destruct (huntTier s) as [|first rest] eqn:Htier.
  - unfold getSmartHuntShot. cbv zeta.
    change (if decide (len (scoredCells s (List.filter onCheckerboard boardCells)) = 0)
            then scoredCells s boardCells
            else scoredCells s (List.filter onCheckerboard boardCells)) with (huntTier s).
    by rewrite Htier.
  - assert (Hne : huntTier s ≠ []) by (by rewrite Htier).
    pose proof (getSmartHuntShot_pick s rng Hne) as H1.
    pose proof (getSmartHuntShot_pick s rng' Hne) as H2.
    rewrite Hsame in H1. rewrite H1 in H2. by injection H2.
Qed.

Lemma getSmartHuntShot_one_draw_witness :
  getSmartHuntShot newBattleshipAI (λ n, mkRand (3 + n) 9)
  = getSmartHuntShot newBattleshipAI (λ n, mkRand (3 + 7 * n) 9).
Proof.
  apply (getSmartHuntShot_one_draw newBattleshipAI (λ n, mkRand (3 + n) 9)
           (λ n, mkRand (3 + 7 * n) 9)).
  reflexivity.
Defined.



Section FullBoard.
Implicit Types (s : BattleshipAI) (turns : list Turn).

Lemma play_app turns more :
  ∀ s, play s (turns ++ more) = play s turns ++ play (playEnd s turns) more.
Proof.
  induction turns as [|t turns IH]; intros s; simpl; [done|]. by rewrite IH.
Qed.

Lemma playEnd_inv turns :
  ∀ s, engineInv s →
       engineInv (playEnd s turns) ∧
       shotsFired (playEnd s turns) = list_to_set (keyOf <$> play s turns) ∪ shotsFired s.
Proof.
  induction turns as [|t turns IH]; intros s Hinv; simpl.
  - split; [done|]. by rewrite union_empty_l_L.
  - destruct (play_step s t Hinv) as (Hinv' & Hf' & _).
    destruct (IH _ Hinv') as [Hend Hfired]. split; [done|].
    rewrite Hfired, Hf'. by rewrite (assoc_L (∪)), (comm_L (∪) _ {[ _ ]}).
Qed.

(** With every cell fired at, the next shot is (0,0). *)
Lemma getNextShot_exhausted s rng :
  engineInv s → (∀ cell, cell ∈ boardCells → keyOf cell ∈ shotsFired s) →
  (getNextShot s rng).1 = mkCoord 0 0.
Proof.
  intros [Hq Hempty] Hall.
  assert (Hclosed : ∀ F q, F = shotsFired s → openQueue F q → q = []).
  { intros F q -> [_ Hopen]. destruct q as [|c q]; [done|].
    apply Forall_cons in Hopen as [[Hv Hf] _]. destruct Hf.
    by apply Hall, isValid_boardCells. }
  assert (Hnone : ∀ s' cells, shotsFired s' = shotsFired s →
            (∀ c, c ∈ cells → c ∈ boardCells) → scoredCells s' cells = []).
  { intros s' cells Hf Hsub. apply dec_stable. intros Hne.
    apply scoredCells_nonempty in Hne as (cell & Hin & Hshot & _).
    apply hasShot_keyOf in Hshot. apply Hshot. rewrite Hf. by apply Hall, Hsub. }
  pose proof (getNextShot_fields s rng) as (Hf & _).
  destruct (getNextShot_source s rng) as [(_ & _ & Hhead)|(_ & _ & ->)].
  - rewrite (Hclosed _ _ eq_refl Hq) in Hhead. change (len []) with 0 in Hhead.
    rewrite decide_True in Hhead by done.
    pose proof (rebuildTargetQueue_open (set_mode Target s) (Hclosed _ _ eq_refl Hq)) as Hopen.
    by rewrite (Hclosed _ _ eq_refl Hopen) in Hhead.
  - set (s' := (getNextShot s rng).2) in *.
    destruct (getSmartHuntShot_tiers s' rng) as (_ & _ & T3).
    destruct T3 as [(_ & Hin & Hshot)|[-> _]]; [| |  |done].
    + apply Hnone; [done|]. by intros c [? _]%elem_of_List_filter.
    + by apply Hnone.
    + apply hasShot_keyOf in Hshot. destruct Hshot. rewrite Hf. by apply Hall.
Qed.

Lemma play_exhausted more :
  ∀ s, engineInv s → (∀ cell, cell ∈ boardCells → keyOf cell ∈ shotsFired s) →
       play s more = replicate (length more) (mkCoord 0 0).
Proof.
  induction more as [|t more IH]; intros s Hinv Hall; simpl; [done|].
  rewrite (getNextShot_exhausted s (t_rng t) Hinv Hall) at 1. f_equal.
  destruct (play_step s t Hinv) as (Hinv' & Hf' & _).
  apply IH; [done|]. intros cell Hcell. rewrite Hf'. by apply elem_of_union_r, Hall.
Qed.

Lemma play_covers turns :
  length turns = 100%nat → play newBattleshipAI turns ≡ₚ boardCells.
Proof.
  intros Hlen. destruct boardCells_keys as [_ Hcells].
  apply submseteq_length_Permutation; [|rewrite length_play; lia].
  apply NoDup_submseteq.
  - apply play_fresh; [apply newBattleshipAI_inv|].
    change (shotsFired newBattleshipAI) with (∅ : gset (Z * Z)). rewrite size_empty. lia.
  - intros c Hc. apply isValid_boardCells.
    pose proof (play_valid turns newBattleshipAI newBattleshipAI_inv) as Hvalid.
    rewrite Forall_forall in Hvalid. by apply Hvalid.
Qed.

End FullBoard.

(** X20. A session covers the board in exactly 100 shots, and then
    repeats (0,0).  In a session on a new engine in which every shot is
    reported before the next is asked for (with any outcomes and any
    draws), the first 100 shots are the 100 cells of the board, each
    once; every shot after them is (0,0), the fallback of the hunt. *)
Theorem session_covers_board (turns more : list Turn) :
  length turns = 100%nat →
  play newBattleshipAI turns ≡ₚ boardCells ∧
  play newBattleshipAI (turns ++ more)
  = play newBattleshipAI turns ++ replicate (length more) (mkCoord 0 0).
Proof.
  intros Hlen. pose proof (play_covers turns Hlen) as Hperm. split; [done|].
  rewrite play_app. f_equal.
  destruct (playEnd_inv turns newBattleshipAI newBattleshipAI_inv) as [Hinv Hfired].
  apply play_exhausted; [done|]. intros cell Hcell. rewrite Hfired.
  apply elem_of_union_l, elem_of_list_to_set, list_elem_of_fmap_2. by rewrite Hperm.
Qed.

Lemma session_covers_board_witness :
  length (replicate 100 (mkTurn stubbornDraws Miss None)) = 100%nat ∧
  play newBattleshipAI (replicate 100 (mkTurn stubbornDraws Miss None)) ≡ₚ boardCells ∧
  play newBattleshipAI (replicate 100 (mkTurn stubbornDraws Miss None)
                        ++ [mkTurn stubbornDraws Hit None])
  = play newBattleshipAI (replicate 100 (mkTurn stubbornDraws Miss None))
    ++ replicate (length [mkTurn stubbornDraws Hit None]) (mkCoord 0 0).
Proof.
  split; [reflexivity|].
  apply (session_covers_board (replicate 100 (mkTurn stubbornDraws Miss None))
           [mkTurn stubbornDraws Hit None]).
  reflexivity.
Defined.

Section SunkReport.
Implicit Types (s : BattleshipAI) (coord h : Coord) (l : list Coord).




End SunkReport.



Section FirstHit.
Implicit Types (s : BattleshipAI) (coord : Coord).



End FirstHit.



Section Runs.
Implicit Types (s : BattleshipAI) (l line : list Coord) (ty : LineType).

Lemma last_cons_default {A} (x : A) (l : list A) (d : A) : List.last (x :: l) d = List.last l x.
Proof.
  revert x d. induction l as [|y l IH]; intros x d; [done|].
  change (List.last (x :: y :: l) d) with (List.last (y :: l) d).
  by rewrite (IH y d), (IH y x).
Qed.

(** The run that [findContinuousHits] finds is cut from the front of its
    input, steps by one, and stops at the first gap. *)
Lemma continueRun_spec ty rest :
  ∀ prev, ∃ tail,
    rest = continueRun ty prev rest ++ tail ∧
    along ty <$> continueRun ty prev rest
    = seqZ (along ty prev + 1) (len (continueRun ty prev rest)) ∧
    match tail with
    | [] => True
    | c :: _ => along ty c ≠ along ty (List.last (continueRun ty prev rest) prev) + 1
    end.
Proof.
  induction rest as [|curr rest IH]; intros prev; simpl.
  - by exists [].
  - assert (Hnext : (match ty with
                     | Horizontal => bool_decide (col curr = col prev + 1)
                     | Vertical => bool_decide (row curr = row prev + 1)
                     end) = bool_decide (along ty curr = along ty prev + 1)) by (by destruct ty).
    rewrite Hnext. clear Hnext. case_bool_decide as Hstep.
    + destruct (IH curr) as (tail & Hsplit & Hkeys & Hstop).
      exists tail. split; [simpl; by f_equal|]. split.
      * rewrite fmap_cons, Hkeys. unfold len. simpl length.
        rewrite Nat2Z.inj_succ.
        rewrite (seqZ_cons (along ty prev + 1)) by lia. f_equal; [done|].
        f_equal; lia.
      * destruct tail as [|c tail]; [done|]. by rewrite last_cons_default.
    + exists (curr :: rest). by repeat split.
Qed.

Lemma groupPush_inv (key : Coord → Z) l h groups :
  (∀ g x, g ∈ groups → x ∈ g.2 → key x = g.1 ∧ x ∈ l) →
  ∀ g x, g ∈ groupPush (key h) h groups → x ∈ g.2 → key x = g.1 ∧ x ∈ l ++ [h].
Proof.
  induction groups as [|g0 groups IH]; intros Hinv g x Hg Hx; simpl in Hg.
  - apply list_elem_of_singleton in Hg as ->. simpl in *.
    apply list_elem_of_singleton in Hx as ->. split; [done|]. apply elem_of_app. right. left.
  - case_decide as Hkey.
    + apply elem_of_cons in Hg as [->|Hg]; simpl in *.
      * apply elem_of_app in Hx as [Hx|Hx].
        -- destruct (Hinv g0 x) as [? ?]; [left|done|]. split; [done|]. apply elem_of_app. by left.
        -- apply list_elem_of_singleton in Hx as ->. split; [done|]. apply elem_of_app. right. left.
      * destruct (Hinv g x) as [? ?]; [by right|done|]. split; [done|]. apply elem_of_app. by left.
    + apply elem_of_cons in Hg as [->|Hg].
      * destruct (Hinv g0 x) as [? ?]; [left|done|]. split; [done|]. apply elem_of_app. by left.
      * apply IH; [|done|done]. intros g' x' Hg' Hx'. apply Hinv; [by right|done].
Qed.

(** The members of a group share the key of the group and come from the
    list that was grouped. *)
Lemma groupBy_inv (key : Coord → Z) l :
  ∀ g x, g ∈ groupBy key l → x ∈ g.2 → key x = g.1 ∧ x ∈ l.
Proof.
  unfold groupBy. induction l as [|h l IH] using rev_ind.
  - intros g x Hg. by apply elem_of_nil in Hg.
  - rewrite foldl_app. simpl. by apply groupPush_inv.
Qed.

(** A group of hits no two of which are side by side holds no line. *)
Lemma groupRun_short ty (key : Coord → Z) group :
  (∀ a b, a ∈ group → b ∈ group → key a = key b → along ty b = along ty a + 1 → False) →
  (∀ a b, a ∈ group → b ∈ group → key a = key b) →
  match groupRun ty group with
  | Some continuous => len continuous < 2
  | None => True
  end.
Proof.
  intros Hapart Hkey. unfold groupRun. case_decide; [|done].
  set (sorted := sortBy _ group).
  assert (Hin : ∀ x, x ∈ sorted → x ∈ group).
  { intros x Hx. subst sorted. by rewrite sortBy_perm in Hx. }
  destruct sorted as [|a [|b rest]]; [done|done|].
  unfold findContinuousHits. simpl.
  assert (Hnext : (match ty with
                   | Horizontal => bool_decide (col b = col a + 1)
                   | Vertical => bool_decide (row b = row a + 1)
                   end) = bool_decide (along ty b = along ty a + 1)) by (by destruct ty).
  rewrite Hnext. clear Hnext. case_bool_decide as Hstep; [|unfold len; simpl; lia].
  destruct (Hapart a b); [apply Hin; left|apply Hin; right; left| |done].
  apply Hkey; apply Hin; [left|right; left].
Qed.

Lemma linesOf_none ty (key : Coord → Z) l :
  (∀ a b, a ∈ l → b ∈ l → key a = key b → along ty b = along ty a + 1 → False) →
  linesOf ty (groupBy key l) = [].
Proof.
  intros Hapart. unfold linesOf. apply dec_stable. intros Hne.
  destruct (omap _ _) as [|line rest] eqn:Hlines; [done|].
  assert (Hline : line ∈ line :: rest) by left. rewrite <- Hlines in Hline.
  apply list_elem_of_omap in Hline as (g & Hg & Hrun).
  pose proof (groupRun_short ty key g.2) as Hshort.
  destruct (groupRun ty g.2) as [continuous|]; [|done].
  case_decide as Hlong; [|done].
  assert (len continuous < 2); [|lia]. apply Hshort.
  - intros a b Ha Hb. apply Hapart; by eapply (groupBy_inv key l g).
  - intros a b Ha Hb. destruct (groupBy_inv key l g a Hg Ha) as [-> _].
    by destruct (groupBy_inv key l g b Hg Hb) as [-> _].
Qed.

Lemma findAllLines_none s :
  (∀ a b, a ∈ hits s → b ∈ hits s → ¬ nextTo a b) → findAllLines s = [].
Proof.
  intros Hapart. unfold findAllLines.
  rewrite (linesOf_none Horizontal row), (linesOf_none Vertical col); [done| |].
  - intros a b Ha Hb Hkey Hstep. apply (Hapart a b Ha Hb). right. by split.
  - intros a b Ha Hb Hkey Hstep. apply (Hapart a b Ha Hb). left. by split.
Qed.

End Runs.

(** X23. [findContinuousHits] returns the longest run at the front of
    its input: the result is a prefix of the (sorted) input, its
    coordinates along the direction go up by exactly one from the first
    element, and the element after the prefix, if there is one, does not
    continue the run.  Adjacent hits beyond the first gap are not seen. *)
Theorem findContinuousHits_prefix (h0 : Coord) (rest : list Coord) (ty : LineType) :
  let run := findContinuousHits (h0 :: rest) ty in
  ∃ tail,
    h0 :: rest = run ++ tail ∧
    along ty <$> run = seqZ (along ty h0) (len run) ∧
    match tail with
    | [] => True
    | c :: _ => along ty c ≠ along ty (List.last run h0) + 1
    end.
Proof.
  unfold findContinuousHits. cbv zeta.
  destruct (continueRun_spec ty rest h0) as (tail & Hsplit & Hkeys & Hstop).
  exists tail. split; [simpl; by f_equal|]. split.
  - rewrite fmap_cons, Hkeys. unfold len. simpl length.
    rewrite Nat2Z.inj_succ, (seqZ_cons (along ty h0)) by lia. f_equal. f_equal; lia.
  - destruct tail as [|c tail]; [done|]. by rewrite last_cons_default.
Qed.

(** X24. A hit that leaves no two open hits side by side makes the
    report throw.  With two or more hits open, if after adding [coord]
    no open hit has another one directly to its right or directly below
    it, then [reportResult(coord, 'hit')] throws (the reduce over the
    empty list of lines); by then the coordinate is recorded as fired
    and as an open hit, and the queue is as before. *)
Theorem hit_report_throws (s : BattleshipAI) (coord : Coord) (sunkCoords : option (list Coord)) :
  len (hits s) >= 2 →
  (∀ a b, a ∈ hits s ++ [coord] → b ∈ hits s ++ [coord] → ¬ nextTo a b) →
  ∃ s', reportResult s coord Hit sunkCoords = Thrown s' ∧
        hits s' = hits s ++ [coord] ∧ targetQueue s' = targetQueue s ∧
        shotsFired s' = {[keyOf coord]} ∪ shotsFired s.
Proof.
  intros Hlen Hapart. unfold reportResult, reportHit. cbv zeta.
  set (s1 := set_hits _ (set_lastHit (Some coord) (set_mode Target (set_shotsFired _ s)))).
  assert (Hlen1 : len (hits s1) = len (hits s) + 1).
  { subst s1. unfold len. simpl. rewrite length_app. simpl. lia. }
  rewrite !decide_False by lia.
  rewrite (findAllLines_none s1 Hapart). by exists s1.
Qed.

Lemma hit_report_throws_witness :
  let s := engine (reportResult (engine (reportResult newBattleshipAI (mkCoord 3 1) Hit None))
                                (mkCoord 5 5) Hit None) in
  len (hits s) >= 2 ∧
  ∃ s', reportResult s (mkCoord 7 3) Hit None = Thrown s' ∧
        hits s' = hits s ++ [mkCoord 7 3] ∧ targetQueue s' = targetQueue s ∧
        shotsFired s' = {[keyOf (mkCoord 7 3)]} ∪ shotsFired s.
Proof.
  intros s.
  assert (Hhits : hits s = [mkCoord 3 1; mkCoord 5 5]) by (by vm_compute).
  split; [by vm_compute|].
  apply (hit_report_throws s (mkCoord 7 3) None); [by vm_compute|].
  rewrite Hhits. intros a b Ha Hb. apply list_elem_of_In in Ha, Hb. simpl in Ha, Hb.
  destruct Ha as [<-|[<-|[<-|[]]]], Hb as [<-|[<-|[<-|[]]]];
    intros [[Hr Hc]|[Hc Hr]]; simpl in *; lia.
Defined.

Section Beside.
Implicit Types (s : BattleshipAI) (q line hs : list Coord) (acc : list (Coord * Z)) (ty : LineType).

Lemma besideHit_step hs h d :
  h ∈ hs →
  besideHit hs (mkCoord (stepDirection d (row h) (col h) 1).1 (stepDirection d (row h) (col h) 1).2).
Proof. intros Hin. exists h, d. split; [done|]. simpl. by destruct (stepDirection _ _ _ _). Qed.

Lemma pushIfOpen_beside hs s r k q :
  Forall (besideHit hs) q → besideHit hs (mkCoord r k) → Forall (besideHit hs) (pushIfOpen s r k q).
Proof.
  intros Hq Hc. unfold pushIfOpen. destruct (isOpen s r k); [|done].
  apply Forall_app. split; [done|]. by repeat constructor.
Qed.

Lemma perpendicularTargets_beside hs s ty line :
  (∀ h, h ∈ line → h ∈ hs) → Forall (besideHit hs) (perpendicularTargets s ty line).*1.
Proof.
  unfold perpendicularTargets.
  assert (Hgen : ∀ acc, (∀ h, h ∈ line → h ∈ hs) → Forall (besideHit hs) acc.*1 →
    Forall (besideHit hs) (foldl (λ acc h,
         match ty with
         | Horizontal => scoredPush s h Down (scoredPush s h Up acc)
         | Vertical => scoredPush s h Right (scoredPush s h Left acc)
         end) acc line).*1).
  { induction line as [|h rest IH]; intros acc Hsub Hacc; simpl; [done|].
    apply IH; [intros h' Hh'; apply Hsub; by right|].
    assert (Hh : h ∈ hs) by (apply Hsub; left).
    destruct ty; rewrite !scoredPush_fst;
      do 2 (apply pushIfOpen_beside; [|by apply besideHit_step]); done. }
  intros Hsub. apply Hgen; [done|constructor].
Qed.

Lemma allNeighbors_beside s : Forall (besideHit (hits s)) (allNeighbors s).*1.
Proof.
  unfold allNeighbors.
  assert (Hpush : ∀ hs h acc d, h ∈ hs → Forall (besideHit hs) acc.*1 →
            Forall (besideHit hs) (neighborPush s h acc d).*1).
  { intros hs h acc d Hh Hacc. unfold neighborPush. destruct (isOpen s _ _); [|done].
    destruct (existsb _ acc); [done|]. rewrite fmap_app. apply Forall_app. split; [done|].
    constructor; [|constructor]. by apply besideHit_step. }
  assert (Hgen : ∀ hs' acc, (∀ h, h ∈ hs' → h ∈ hits s) → Forall (besideHit (hits s)) acc.*1 →
    Forall (besideHit (hits s))
      (foldl (λ acc h, foldl (neighborPush s h) acc [Up; Down; Left; Right]) acc hs').*1).
  { induction hs' as [|h hs' IH]; intros acc Hsub Hacc; [done|].
    apply IH; [intros h' Hh'; apply Hsub; by right|].
    assert (Hh : h ∈ hits s) by (apply Hsub; left).
    simpl. by do 4 (apply Hpush; [done|]). }
  apply Hgen; [done|constructor].
Qed.

(** The ends of a sorted list of keys are keys of the list. *)
Lemma minKey_in (key : Coord → Z) line : line ≠ [] → ∃ h, h ∈ line ∧ key h = minKey key line.
Proof.
  intros Hne. unfold minKey, sortedKeys.
  destruct (sortBy (λ a b, a - b) (map key line)) as [|k ks] eqn:Hsorted.
  - assert (Hnil : map key line = []).
    { apply Permutation_nil_r. rewrite <- Hsorted. symmetry. apply sortBy_perm. }
    by destruct line.
  - assert (Hk : k ∈ map key line) by (rewrite <- (sortBy_perm (λ a b, a - b)), Hsorted; left).
    apply (list_elem_of_fmap_1 key) in Hk as (h & -> & Hh). by exists h.
Qed.

Lemma maxKey_in (key : Coord → Z) line : line ≠ [] → ∃ h, h ∈ line ∧ key h = maxKey key line.
Proof.
  intros Hne. unfold maxKey, sortedKeys.
  destruct (sortBy (λ a b, a - b) (map key line)) as [|k ks] eqn:Hsorted.
  - assert (Hnil : map key line = []).
    { apply Permutation_nil_r. rewrite <- Hsorted. symmetry. apply sortBy_perm. }
    by destruct line.
  - assert (Hne' : k :: ks ≠ []) by done.
    destruct (exists_last Hne') as (ks' & z & Heq). rewrite Heq, last_last.
    assert (Hz : z ∈ map key line).
    { rewrite <- (sortBy_perm (λ a b, a - b)), Hsorted, Heq. apply elem_of_app. right. left. }
    apply (list_elem_of_fmap_1 key) in Hz as (h & -> & Hh). by exists h.
Qed.

Lemma lineExtensions_beside hs s ty line h0 q :
  line ≠ [] → (∀ h, h ∈ line → h ∈ hs ∧ across ty h = across ty h0) →
  Forall (besideHit hs) q → Forall (besideHit hs) (lineExtensions s ty line h0 q).
Proof.
  intros Hne Hline Hq. unfold lineExtensions.
  destruct ty; (apply pushIfOpen_beside; [apply pushIfOpen_beside; [done|]|]).
  - destruct (maxKey_in col line Hne) as (h & Hh & <-). destruct (Hline h Hh) as [Hin Hrow].
    exists h, Right. split; [done|]. simpl in *. by rewrite Hrow.
  - destruct (minKey_in col line Hne) as (h & Hh & <-). destruct (Hline h Hh) as [Hin Hrow].
    exists h, Left. split; [done|]. simpl in *. by rewrite Hrow.
  - destruct (maxKey_in row line Hne) as (h & Hh & <-). destruct (Hline h Hh) as [Hin Hcol].
    exists h, Down. split; [done|]. simpl in *. by rewrite Hcol.
  - destruct (minKey_in row line Hne) as (h & Hh & <-). destruct (Hline h Hh) as [Hin Hcol].
    exists h, Up. split; [done|]. simpl in *. by rewrite Hcol.
Qed.

End Beside.

Section BesideRebuilt.
Implicit Types (s : BattleshipAI) (q line hs : list Coord) (ty : LineType).

Lemma findContinuousHits_sub l ty h : h ∈ findContinuousHits l ty → h ∈ l.
Proof.
  unfold findContinuousHits. destruct l as [|h0 rest]; [done|].
  destruct (continueRun_spec ty rest h0) as (tail & Hsplit & _).
  intros [->|Hin]%elem_of_cons; [left|]. right. rewrite Hsplit. apply elem_of_app. by left.
Qed.

(** The longest line is made of open hits that share a row, or a column. *)
Lemma longerLine_members hs direction groups :
  (∀ g x, g ∈ groups → x ∈ g.2 → across direction x = g.1 ∧ x ∈ hs) →
  ∀ best,
    (∀ ty line, best.1 = Some (ty, line) →
       ∀ h, h ∈ line → h ∈ hs ∧ ∀ h', h' ∈ line → across ty h = across ty h') →
    ∀ ty line, (foldl (longerLine direction) best groups).1 = Some (ty, line) →
      ∀ h, h ∈ line → h ∈ hs ∧ ∀ h', h' ∈ line → across ty h = across ty h'.
Proof.
  induction groups as [|g groups IH]; intros Hgroups best Hbest; simpl; [done|].
  apply IH; [intros g' x Hg'; apply Hgroups; by right|].
  unfold longerLine, groupRun. case_decide; [|done]. case_decide; [|done].
  intros ty line [= <- <-] h Hh.
  assert (Hmember : ∀ x, x ∈ findContinuousHits
                        (sortBy match direction with Horizontal => byCol | Vertical => byRow end g.2)
                        direction → across direction x = g.1 ∧ x ∈ hs).
  { intros x Hx%findContinuousHits_sub. rewrite sortBy_perm in Hx.
    apply (Hgroups g); [left|done]. }
  destruct (Hmember h Hh) as [Hkey Hin]. split; [done|].
  intros h' Hh'. destruct (Hmember h' Hh') as [Hkey' _]. by rewrite Hkey, Hkey'.
Qed.

Lemma rebuildTargetQueue_beside s :
  targetQueue s = [] → Forall (besideHit (hits s)) (targetQueue (rebuildTargetQueue s)).
Proof.
  intros Hq. unfold rebuildTargetQueue.
  set (longest := foldl (longerLine Vertical)
                    (foldl (longerLine Horizontal) (None, 0) (groupBy row (hits s)))
                    (groupBy col (hits s))).
  assert (Hline : ∀ ty line, longest.1 = Some (ty, line) →
            ∀ h, h ∈ line → h ∈ hits s ∧ ∀ h', h' ∈ line → across ty h = across ty h').
  { apply (longerLine_members (hits s) Vertical); [apply (groupBy_inv col)|].
    apply (longerLine_members (hits s) Horizontal); [apply (groupBy_inv row)|].
    by intros ty line. }
  assert (Hfinal : ∀ s1, hits s1 = hits s → Forall (besideHit (hits s)) (targetQueue s1) →
            Forall (besideHit (hits s))
              (targetQueue (if decide (len (targetQueue s1) = 0)
                            then set_targetQueue
                                   (targetQueue s1 ++ (sortBy byScoreDesc (allNeighbors s1)).*1) s1
                            else s1))).
  { intros s1 Hh Hs1. case_decide as Hlen; [|done]. simpl.
    apply Forall_app. split; [done|]. rewrite sortBy_perm, <- Hh. apply allNeighbors_beside. }
  destruct longest.1 as [[ty [|h0 rest]]|] eqn:Hbest.
  - apply Hfinal; [done|]. rewrite Hq. constructor.
  - specialize (Hline ty (h0 :: rest) eq_refl).
    assert (Hext : Forall (besideHit (hits s))
                     (lineExtensions s ty (h0 :: rest) h0 (targetQueue s))).
    { apply lineExtensions_beside; [done| |rewrite Hq; constructor].
      intros h Hh. destruct (Hline h Hh) as [Hin Hsame]. split; [done|]. apply Hsame. left. }
    apply Hfinal; [by case_decide|].
    case_decide as Hlen; [|done]. simpl. apply Forall_app. split; [done|].
    rewrite sortBy_perm. apply perpendicularTargets_beside.
    intros h Hh. by apply Hline.
  - apply Hfinal; [done|]. rewrite Hq. constructor.
Qed.

End BesideRebuilt.

(** X25. Rebuilding the queue yields only cells beside open hits.  From
    an empty queue -- the only way [rebuildTargetQueue] is called -- the
    queue it builds has no coordinate twice, and each coordinate is on
    the board, has not been fired at, and is one step up, down, left or
    right of an open hit. *)
Theorem rebuilt_targets_beside_hits (s : BattleshipAI) :
  targetQueue s = [] →
  NoDup (targetQueue (rebuildTargetQueue s)) ∧
  Forall (λ c, onBoard (row c) (col c) ∧ (keyOf c ∉ shotsFired s) ∧ besideHit (hits s) c)
         (targetQueue (rebuildTargetQueue s)).
Proof.
  intros Hq. destruct (rebuildTargetQueue_open s Hq) as [Hnd Hopen]. split; [done|].
  pose proof (rebuildTargetQueue_beside s Hq) as Hbeside.
  rewrite Forall_forall in Hopen, Hbeside. apply Forall_forall. intros c Hc.
  destruct (Hopen c Hc) as [Hvalid Hfresh]. split; [by apply isValid_onBoard|].
  split; [done|by apply Hbeside].
Qed.

Lemma rebuilt_targets_beside_hits_witness :
  targetQueue (set_targetQueue [] afterTwoHits) = [] ∧
  NoDup (targetQueue (rebuildTargetQueue (set_targetQueue [] afterTwoHits))) ∧
  Forall (λ c, onBoard (row c) (col c) ∧ (keyOf c ∉ shotsFired (set_targetQueue [] afterTwoHits)) ∧
               besideHit (hits (set_targetQueue [] afterTwoHits)) c)
         (targetQueue (rebuildTargetQueue (set_targetQueue [] afterTwoHits))).
Proof.
  split; [reflexivity|].
  apply (rebuilt_targets_beside_hits (set_targetQueue [] afterTwoHits)). reflexivity.
Defined.

(** X26. The hits that [findSunkShipHits] attributes to a sunk ship
    always include the coordinate just reported; every other one is an
    open hit; and all of them lie in the row of that coordinate, or all
    of them in its column. *)
Theorem findSunkShipHits_shape (s : BattleshipAI) (last : Coord) :
  last ∈ findSunkShipHits s last ∧
  (∀ h, h ∈ findSunkShipHits s last → h ∈ hits s ∨ h = last) ∧
  ((∀ h, h ∈ findSunkShipHits s last → row h = row last) ∨
   (∀ h, h ∈ findSunkShipHits s last → col h = col last)).
Proof.
  unfold findSunkShipHits. cbv zeta.
  set (horizontalLine := findContinuousHits (sortBy byCol _) Horizontal).
  set (verticalLine := findContinuousHits (sortBy byRow _) Vertical).
  assert (HH : ∀ h, h ∈ horizontalLine → (h ∈ hits s ∨ h = last) ∧ row h = row last).
  { intros h Hh%findContinuousHits_sub. rewrite sortBy_perm in Hh.
    apply elem_of_List_filter in Hh as [Hin Hrow]. apply bool_decide_eq_true in Hrow.
    split; [|done]. apply elem_of_app in Hin as [Hin|Hin]; [by left|right].
    by apply list_elem_of_singleton in Hin. }
  assert (HV : ∀ h, h ∈ verticalLine → (h ∈ hits s ∨ h = last) ∧ col h = col last).
  { intros h Hh%findContinuousHits_sub. rewrite sortBy_perm in Hh.
    apply elem_of_List_filter in Hh as [Hin Hcol]. apply bool_decide_eq_true in Hcol.
    split; [|done]. apply elem_of_app in Hin as [Hin|Hin]; [by left|right].
    by apply list_elem_of_singleton in Hin. }
  assert (Hhor : existsb (λ h, sameCoord h last) horizontalLine = true →
            last ∈ horizontalLine ∧ (∀ h, h ∈ horizontalLine → h ∈ hits s ∨ h = last) ∧
            ((∀ h, h ∈ horizontalLine → row h = row last) ∨
             (∀ h, h ∈ horizontalLine → col h = col last))).
  { intros Hin%existsb_sameCoord. split; [done|]. split; [|left]; intros h Hh; by apply HH. }
  assert (Hver : existsb (λ h, sameCoord h last) verticalLine = true →
            last ∈ verticalLine ∧ (∀ h, h ∈ verticalLine → h ∈ hits s ∨ h = last) ∧
            ((∀ h, h ∈ verticalLine → row h = row last) ∨
             (∀ h, h ∈ verticalLine → col h = col last))).
  { intros Hin%existsb_sameCoord. split; [done|]. split; [|right]; intros h Hh; by apply HV. }
  destruct (existsb _ horizontalLine) eqn:Hh, (existsb _ verticalLine) eqn:Hv; simpl.
  - case_decide; [by apply Hhor|by apply Hver].
  - by apply Hhor.
  - by apply Hver.
  - split; [left|]. split; [|left]; intros h Hin; apply list_elem_of_singleton in Hin as ->;
      [by right|done].
Qed.

(** X27. What a report changes.  [reportResult] always records the
    coordinate as fired.  Beyond the queue: a hit appends the coordinate
    to the open hits (also if it is there already), makes it [lastHit]
    and sets the mode ['target']; a miss adds it to the misses and
    changes neither hits, fleet, mode nor [lastHit]; a sunk report only
    removes open hits, and only removes from the fleet.  This holds too
    when the call throws. *)
Theorem reportResult_frame (s : BattleshipAI) (coord : Coord) (result : ShotResult)
    (sunkCoords : option (list Coord)) :
  let s' := engine (reportResult s coord result sunkCoords) in
  shotsFired s' = {[keyOf coord]} ∪ shotsFired s ∧
  match result with
  | Hit => hits s' = hits s ++ [coord] ∧ misses s' = misses s ∧
           remainingShipSizes s' = remainingShipSizes s ∧
           lastHit s' = Some coord ∧ mode s' = Target
  | Miss => hits s' = hits s ∧ misses s' = {[keyOf coord]} ∪ misses s ∧
            remainingShipSizes s' = remainingShipSizes s ∧
            lastHit s' = lastHit s ∧ mode s' = mode s
  | Sunk => sublist (hits s') (hits s) ∧ misses s' = misses s ∧
            sublist (remainingShipSizes s') (remainingShipSizes s)
  end.
Proof.
  unfold reportResult. cbv zeta.
  set (s1 := set_shotsFired ({[coordToKey (row coord) (col coord)]} ∪ shotsFired s) s).
  destruct result; cbn [engine].
  - by destruct (reportHit_fields s1 coord) as [queue ->].
  - by destruct (reportMiss_fields s1 coord) as [queue ->].
  - destruct (reportSunk_fields s1 coord sunkCoords) as (Hf & Hm & Hh & Hr & _).
    by rewrite Hf, Hm.
Qed.

Section GameOver.
Implicit Types (ships : list Ship).

Lemma allShipsSunk_insert ships i s s' :
  ships !! i = Some s → ship_sunk s' = ship_sunk s →
  allShipsSunk (<[i := s']> ships) = allShipsSunk ships.
Proof.
  unfold allShipsSunk. revert i. induction ships as [|s0 ships IH]; intros i Hlook Hsame; [done|].
  destruct i as [|i]; simpl in *.
  - injection Hlook as ->. by rewrite Hsame.
  - f_equal. by apply IH.
Qed.

End GameOver.

(** X28. The game can only end on a ['sunk'] result: if [allShipsSunk]
    holds of the roster that [processShot] leaves, then it held already
    before the shot or the shot returned ['sunk']. *)
Theorem game_over_only_on_sunk (board : Board) (ships : list Ship) (r c : Z)
    (res : ShotResult) (board' : Board) (ships' : list Ship) :
  processShot board ships r c = Some (res, board', ships') →
  allShipsSunk ships' = true → allShipsSunk ships = true ∨ res = Sunk.
Proof.
  unfold processShot. destruct (getCell board r c) as [cell|]; [|done]. simpl.
  case_decide as Hst.
  - destruct (setCellState board r c hit) as [board1|]; [|done]. simpl.
    destruct (findShip (shipId cell) ships 0) as [[i s]|] eqn:Hfind;
      [|intros [= <- <- <-]; by left].
    destruct (shipId cell) as [sid|]; [|intros [= <- <- <-]; by left].
    apply findShip_lookup in Hfind as (_ & Hlook & _).
    replace (i - 0)%nat with i in Hlook by lia.
    case_decide as Hsunk.
    + destruct (markShipAsSunk board1 sid) as [board2|]; [|done]. simpl.
      intros [= <- <- <-]. by right.
    + intros [= <- <- <-]. rewrite (allShipsSunk_insert ships i s) by done. by left.
  - destruct (setCellState board r c miss) as [board1|]; [|done]. simpl.
    intros [= <- <- <-]. by left.
Qed.

Lemma game_over_only_on_sunk_witness :
  let ships := [mkShip 0 1 0 false (Some true)] in
  let board := default [] (placeShip createEmptyBoard 0 0 1 true 0) in
  ∃ board',
    processShot board ships 0 0 = Some (Sunk, board', [mkShip 0 1 1 true (Some true)]) ∧
    allShipsSunk [mkShip 0 1 1 true (Some true)] = true ∧
    (allShipsSunk ships = true ∨ Sunk = Sunk).
Proof.
  intros ships board.
  exists (default [] (processShot board ships 0 0 ≫= λ out, Some out.1.2)).
  split; [reflexivity|]. split; [reflexivity|].
  apply (game_over_only_on_sunk board ships 0 0 Sunk
           (default [] (processShot board ships 0 0 ≫= λ out, Some out.1.2))
           [mkShip 0 1 1 true (Some true)]); reflexivity.
Defined.

(** X29. A second shot at the same cell is a miss.  On a 10x10 board,
    after any shot at a cell, a further shot at that cell returns
    ['miss'], leaves the roster as it is and paints the cell ['miss'] --
    also when the first shot was a hit or sank the ship, whose mark on
    that cell is lost while its hit count stays. *)
Theorem processShot_twice (board : Board) (ships : list Ship) (r c : Z)
    (res : ShotResult) (board1 : Board) (ships1 : list Ship) :
  wfBoard board → processShot board ships r c = Some (res, board1, ships1) →
  ∃ board2, processShot board1 ships1 r c = Some (Miss, board2, ships1) ∧
            wfBoard board2 ∧ state <$> getCell board2 r c = Some miss.
Proof.
  intros Hwf Hrun.
  assert (Hcell : is_Some (getCell board r c)).
  { unfold processShot in Hrun. destruct (getCell board r c); [by eexists|done]. }
  destruct Hcell as [cell Hcell].
  destruct (processShot_board_step board ships r c cell Hwf Hcell)
    as (res' & board' & ships' & Hrun' & Hwf1 & _ & Hshot & _).
  rewrite Hrun in Hrun'. injection Hrun' as <- <- <-.
  destruct (processShot_not_ship board1 ships1 r c _ Hwf1 Hshot) as (board2 & Hwf2 & -> & Hwith).
  { by destruct res. }
  exists board2. split; [done|]. split; [done|].
  rewrite Hwith. by rewrite decide_True.
Qed.

Lemma processShot_twice_witness :
  let board := default [] (scenarioA 2) in
  let board1 := default [] (scenarioA 2 ≫= λ b, setCellState b 4 2 hit) in
  let ships1 := <[2%nat := mkShip 2 3 1 false (Some false)]> createShips in
  wfBoard board ∧ processShot board createShips 4 2 = Some (Hit, board1, ships1) ∧
  ∃ board2, processShot board1 ships1 4 2 = Some (Miss, board2, ships1) ∧
            wfBoard board2 ∧ state <$> getCell board2 4 2 = Some miss.
Proof.
  intros board board1 ships1.
  assert (Hwf : wfBoard board).
  { subst board. destruct (scenarioA_board 2) as (b & -> & Hwf). exact Hwf. }
  split; [exact Hwf|]. split; [reflexivity|].
  apply (processShot_twice board createShips 4 2 Hit board1 ships1 Hwf). reflexivity.
Defined.
